(** * Modes of operation over a block cipher, and the GF(2^n) engine behind
      the authenticated mode.

    A shallow embedding of [galois.py] and of the classes [ECB], [CBC],
    [CTR] and [GCM] of [modes.py]:
    - Python integers are [Z]; bit-widths, lengths and loop indices are [nat];
    - [bytes] values are [list byte];
    - an exception is a value of [exn], and a computation that may raise
      lives in the [result] monad;
    - a generator is run to its end: what it yielded, in order, together
      with how it stopped (see [gen]). *)

From Stdlib Require Import ZArith List Lia Bool NArith.
From Stdlib Require Import Strings.Byte.
Import ListNotations.

Local Open Scope Z_scope.

(** ** Exceptions and the error monad *)

(** The exceptions met: the built-in ones by name; [RuntimeError] is what
    a [StopIteration] escaping a generator becomes; [PaddingException] is
    the [Exception("Padding error: ...")] of the padded branches. *)
Inductive exn : Type :=
| AssertionError
| IndexError
| ValueError
| OverflowError
| RuntimeError
| PaddingException.

Inductive result (A : Type) : Type :=
| Ok (a : A)
| Raise (e : exn).

Arguments Ok {A} a.
Arguments Raise {A} e.

Definition bind {A B : Type} (m : result A) (k : A -> result B) : result B :=
  match m with
  | Ok a => k a
  | Raise e => Raise e
  end.

Notation "x <- m ;; k" := (bind m (fun x => k))
  (at level 61, m at next level, right associativity).

(** [assert(c)] *)
Definition assert (c : bool) : result unit :=
  if c then Ok tt else Raise AssertionError.

Notation "'ensure' c ;; k" := (bind (assert c) (fun _ => k))
  (at level 61, c at next level, right associativity).

(** ** Python lists of integers *)

(** [l[i] = v] for an index already known to be in range; out of range
    the list is left as it is. *)
Fixpoint list_set (l : list Z) (i : nat) (v : Z) : list Z :=
  match l, i with
  | [], _ => []
  | _ :: r, O => v :: r
  | x :: r, S j => x :: list_set r j v
  end.

(** [l[p] = v] as Python does it: a negative index counts from the end,
    and an index outside [-len, len) raises IndexError. *)
Definition py_setitem (l : list Z) (p : Z) (v : Z) : result (list Z) :=
  let len := Z.of_nat (List.length l) in
  if (0 <=? p) && (p <? len) then Ok (list_set l (Z.to_nat p) v)
  else if (- len <=? p) && (p <? 0) then Ok (list_set l (Z.to_nat (len + p)) v)
  else Raise IndexError.

(** [max(l)] *)
Definition py_max (l : list Z) : result Z :=
  match l with
  | [] => Raise ValueError
  | x :: r => Ok (fold_left Z.max r x)
  end.

(** [[0 for _ in range(k)]] *)
Definition zeros (k : nat) : list Z := repeat 0 k.

(** * galois.py *)

Module Galois.

(** The table of irreducible polynomials, keyed by bit-width. *)
Definition irreducible_polynomials (num_bits : nat) : option (list Z) :=
  if Nat.eqb num_bits 8 then Some [8; 4; 3; 1; 0]
  else if Nat.eqb num_bits 64 then Some [64; 4; 3; 1; 0]
  else if Nat.eqb num_bits 128 then Some [128; 7; 2; 1; 0]
  else if Nat.eqb num_bits 256 then Some [256; 10; 5; 2; 0]
  else if Nat.eqb num_bits 512 then Some [512; 8; 5; 2; 0]
  else None.

(** An object of class [GaloisPolynomial]: its three attributes.

    A read [l[i]] of a bit list is written [nth i l 0] below.  In every
    object the class builds the bit list has [length] entries (proved
    below), which puts every index read in range; the IndexError of a read
    past the end of a shorter list is not modelled. *)
Record GaloisPolynomial : Type := mkGP {
  irr_pol : list Z;
  length : nat;
  bits : list Z
}.

(** The loop of [__init__]:
<<
    i = num_bits - 1
    while initial_value > 0:
        assert(i >= 0)
        self.bits[i] = initial_value % 2
        i -= 1
        initial_value = initial_value >> 1
>>
    The first argument is [i + 1], so that [O] stands for [i = -1]. *)
Fixpoint init_loop (i1 : nat) (initial_value : Z) (bits : list Z)
  : result (list Z) :=
  if 0 <? initial_value then
    match i1 with
    | O => Raise AssertionError
    | S i =>
        init_loop i (Z.shiftr initial_value 1)
                  (list_set bits i (initial_value mod 2))
    end
  else Ok bits.

(** [GaloisPolynomial(num_bits, initial_value, irreducible_polynomial)];
    the default [[]] of the last argument selects the table. *)
Definition __init__ (num_bits : nat) (initial_value : Z)
    (irreducible_polynomial : list Z) : result GaloisPolynomial :=
  irr <- match irreducible_polynomial with
         | [] =>
             match irreducible_polynomials num_bits with
             | Some p => Ok p
             | None => Raise AssertionError
             end
         | _ :: _ => Ok irreducible_polynomial
         end ;;
  ensure (0 <=? initial_value) ;;
  m <- py_max irr ;;
  ensure (m =? Z.of_nat num_bits) ;;
  b <- init_loop num_bits initial_value (zeros num_bits) ;;
  Ok (mkGP irr num_bits b).

Definition is_bit (b : Z) : bool := (b =? 0) || (b =? 1).

(** [int(''.join([f'{i}' for i in self.bits]), 2)].  In every object the
    class builds each entry of [bits] is 0 or 1 (the representation
    invariant, proved below), and the string is then the binary numeral of
    the value, most significant digit first.  [int] raises ValueError on the
    empty string and on a digit above 1; a bit list with any entry other
    than 0 and 1 is given ValueError here. *)
Definition bin_value (bs : list Z) : Z :=
  fold_left (fun acc b => 2 * acc + b) bs 0.

Definition intval (self : GaloisPolynomial) : result Z :=
  match bits self with
  | [] => Raise ValueError
  | _ :: _ =>
      if forallb is_bit (bits self) then Ok (bin_value (bits self))
      else Raise ValueError
  end.

(** [xor] *)
Definition xor (self other : GaloisPolynomial) : result GaloisPolynomial :=
  ensure (Nat.eqb (length self) (length other)) ;;
  output <- __init__ (length self) 0 (irr_pol self) ;;
  Ok (mkGP (irr_pol output) (length output)
        (fold_left
           (fun ob i =>
              list_set ob i (Z.lxor (nth i (bits self) 0) (nth i (bits other) 0)))
           (seq 0 (length self)) (bits output))).

(** The first loop of [mult]: one shifted copy of [self.bits] for each
    set bit of [other]. *)
Definition shifted_vals (self other : GaloisPolynomial) : list (list Z) :=
  flat_map
    (fun shift =>
       let index := (length self - 1 - shift)%nat in
       if nth index (bits other) 0 =? 1 then
         [zeros (length self - shift) ++ bits self ++ zeros shift]
       else [])
    (seq 0 (length self)).

(** Column sums modulo 2. *)
Definition intermediate_of (expected_length : nat) (svs : list (list Z))
  : list Z :=
  map (fun i => (fold_left (fun sum sv => sum + nth i sv 0) svs 0) mod 2)
      (seq 0 expected_length).

(** The dense pattern of the irreducible polynomial:
<<
    irr_pol_list = [0 for _ in range(ip_len)]
    for index in self.irr_pol:
        irr_pol_list[ip_len - 1 - index] = 1
>> *)
Fixpoint irr_pol_fill (ip_len : nat) (irr : list Z) (irr_pol_list : list Z)
  : result (list Z) :=
  match irr with
  | [] => Ok irr_pol_list
  | index :: rest =>
      l <- py_setitem irr_pol_list (Z.of_nat ip_len - 1 - index) 1 ;;
      irr_pol_fill ip_len rest l
  end.

Definition irr_pol_list_of (ip_len : nat) (irr : list Z) : result (list Z) :=
  irr_pol_fill ip_len irr (zeros ip_len).

(** [a[i] ^ b[i]] for every [i] of [range(expected_length)], in place. *)
Definition xor_into (expected_length : nat) (a b : list Z) : list Z :=
  fold_left (fun acc j => list_set acc j (Z.lxor (nth j acc 0) (nth j b 0)))
            (seq 0 expected_length) a.

(** One round of the reduction loop, at outer index [i]. *)
Definition reduce_step (expected_length ip_len : nat) (irr_pol_list : list Z)
    (intermediate_polynomial : list Z) (i : nat) : result (list Z) :=
  if nth i intermediate_polynomial 0 =? 1 then
    let shifted_irr_pol :=
      zeros i ++ irr_pol_list ++ zeros (expected_length - ip_len - i) in
    ensure (Nat.eqb (List.length shifted_irr_pol) expected_length) ;;
    Ok (xor_into expected_length intermediate_polynomial shifted_irr_pol)
  else Ok intermediate_polynomial.

Fixpoint reduce_loop (expected_length ip_len : nat) (irr_pol_list : list Z)
    (idxs : list nat) (intermediate_polynomial : list Z) : result (list Z) :=
  match idxs with
  | [] => Ok intermediate_polynomial
  | i :: rest =>
      p <- reduce_step expected_length ip_len irr_pol_list
             intermediate_polynomial i ;;
      reduce_loop expected_length ip_len irr_pol_list rest p
  end.

Definition list_eqb (a b : list Z) : bool :=
  if list_eq_dec Z.eq_dec a b then true else false.

(** [mult] up to the reduced double-width list, the assertion on its upper
    half not yet made. *)
Definition mult_reduced (self other : GaloisPolynomial) : result (list Z) :=
  ensure (Nat.eqb (length self) (length other)) ;;
  let svs := shifted_vals self other in
  let expected_length := (length self * 2)%nat in
  ensure (forallb (fun sv => Nat.eqb (List.length sv) expected_length) svs) ;;
  let intermediate_polynomial := intermediate_of expected_length svs in
  let ip_len := (length self + 1)%nat in
  irr_pol_list <- irr_pol_list_of ip_len (irr_pol self) ;;
  reduce_loop expected_length ip_len irr_pol_list
    (seq 0 (expected_length - length self)) intermediate_polynomial.

Definition mult (self other : GaloisPolynomial) : result GaloisPolynomial :=
  intermediate_polynomial <- mult_reduced self other ;;
  let expected_length := (length self * 2)%nat in
  ensure (list_eqb (firstn (expected_length - length self) intermediate_polynomial)
                  (zeros (expected_length - length self))) ;;
  let output_polynomial :=
    skipn (expected_length - length self) intermediate_polynomial in
  output <- __init__ (length self) 0 (irr_pol self) ;;
  Ok (mkGP (irr_pol output) (length output) output_polynomial).

End Galois.

(** * modes.py *)

(** ** Byte strings *)

Definition bytes : Type := list byte.

Definition byte_val (b : byte) : Z := Z.of_N (Byte.to_N b).

(** The byte of an integer in [range(256)]. *)
Definition byte_of (v : Z) : byte :=
  match Byte.of_N (Z.to_N v) with
  | Some b => b
  | None => x00
  end.

(** [a ^ b] on two bytes, as an element of a [bytes] object. *)
Definition byte_xor (a b : byte) : byte :=
  byte_of (Z.lxor (byte_val a) (byte_val b)).

(** [int.from_bytes(b, "little")] *)
Fixpoint from_bytes_little (b : bytes) : Z :=
  match b with
  | [] => 0
  | x :: r => byte_val x + 256 * from_bytes_little r
  end.

Fixpoint le_digits (len : nat) (v : Z) : bytes :=
  match len with
  | O => []
  | S k => byte_of (v mod 256) :: le_digits k (v / 256)
  end.

(** [v.to_bytes(len, "little")]: OverflowError when [v] is negative or
    does not fit. *)
Definition to_bytes_little (v : Z) (len : nat) : result bytes :=
  if (0 <=? v) && (v <? 256 ^ Z.of_nat len) then Ok (le_digits len v)
  else Raise OverflowError.

(** [v.to_bytes(len, byteorder='big')] *)
Definition to_bytes_big (v : Z) (len : nat) : result bytes :=
  b <- to_bytes_little v len ;;
  Ok (rev b).

(** ** Generators *)

(** A generator driven to its end: the elements it yielded and the way it
    stopped, a returned value or the exception that escaped. *)
Definition gen (Y R : Type) : Type := (list Y * result R)%type.

Definition gret {Y R : Type} (r : R) : gen Y R := ([], Ok r).

Definition yield {Y : Type} (y : Y) : gen Y unit := ([y], Ok tt).

Definition lift {Y R : Type} (m : result R) : gen Y R := ([], m).

Definition gbind {Y A B : Type} (m : gen Y A) (k : A -> gen Y B) : gen Y B :=
  match m with
  | (ys, Ok a) => let '(zs, r) := k a in (ys ++ zs, r)
  | (ys, Raise e) => (ys, Raise e)
  end.

Notation "x <~ m ;; k" := (gbind m (fun x => k))
  (at level 61, m at next level, right associativity).

Definition yielded {Y R : Type} (g : gen Y R) : list Y := fst g.
Definition outcome {Y R : Type} (g : gen Y R) : result R := snd g.

(** Modelled from the spec: [iterators.eof_signal_iterator] is imported by
    [modes.py] and is not among the sources.  The Block Sequencer gives a
    finite sequence of [(chunk, is_last)] pairs, one for each chunk of the
    source, [is_last] being true for the final chunk and for no other; it
    fails only if the source fails, so a source without a chunk gives no
    pair. *)
Fixpoint eof_signal_iterator {A : Type} (l : list A) : list (A * bool) :=
  match l with
  | [] => []
  | x :: r =>
      match r with
      | [] => [(x, true)]
      | _ :: _ => (x, false) :: eof_signal_iterator r
      end
  end.

(** ** The collaborators *)

Record Cipher : Type := mkCipher {
  block_size : nat;
  encrypt_block : bytes -> bytes;
  decrypt_block : bytes -> bytes
}.

Record PaddingScheme : Type := mkPadding {
  apply : bytes -> bytes;
  remove : bytes -> bytes
}.

(** ** ModeOfOperation *)

(** [bytes([a ^ b for a, b in zip(block1, block2)])] *)
Definition _xor (block1 block2 : bytes) : bytes :=
  map (fun ab => byte_xor (fst ab) (snd ab)) (combine block1 block2).

(** ** ECB *)

Module ECB.

Record session : Type := mkECB {
  cipher : Cipher;
  padding_scheme : PaddingScheme
}.

(** The body of the loop of [encrypt]: the value of [ciphertext]. *)
Definition encrypt_body (self : session) (data : bytes) (eof : bool)
  : result bytes :=
  let c := cipher self in
  if negb eof then
    Ok (encrypt_block c data)
  else
    let block := if negb eof then data else apply (padding_scheme self) data in
    if Nat.eqb (List.length block) (block_size c) then
      Ok (encrypt_block c block)
    else if Nat.eqb (List.length block) (block_size c * 2) then
      Ok (encrypt_block c (firstn (block_size c) block)
          ++ encrypt_block c (skipn (block_size c) block))
    else Raise PaddingException.

Fixpoint encrypt_loop (self : session) (items : list (bytes * bool))
  : gen bytes unit :=
  match items with
  | [] => gret tt
  | (data, eof) :: rest =>
      ciphertext <~ lift (encrypt_body self data eof) ;;
      _ <~ yield ciphertext ;;
      encrypt_loop self rest
  end.

Definition encrypt (self : session) (block_iterator : list bytes)
  : gen bytes unit :=
  encrypt_loop self (eof_signal_iterator block_iterator).

Fixpoint decrypt_loop (self : session) (items : list (bytes * bool))
  : gen bytes unit :=
  match items with
  | [] => gret tt
  | (data, eof) :: rest =>
      let plaintext := decrypt_block (cipher self) data in
      let block :=
        if negb eof then plaintext
        else remove (padding_scheme self) plaintext in
      _ <~ yield block ;;
      decrypt_loop self rest
  end.

Definition decrypt (self : session) (block_iterator : list bytes)
  : gen bytes unit :=
  decrypt_loop self (eof_signal_iterator block_iterator).

End ECB.

(** ** CBC *)

Module CBC.

Record session : Type := mkCBC {
  cipher : Cipher;
  iv : bytes;
  padding_scheme : PaddingScheme
}.

(** [not self.cipher_block]: [None] and the empty byte string are false. *)
Definition falsy (cipher_block : option bytes) : bool :=
  match cipher_block with
  | None => true
  | Some [] => true
  | Some (_ :: _) => false
  end.

Definition the (cipher_block : option bytes) : bytes :=
  match cipher_block with
  | None => []
  | Some b => b
  end.

(** The body of the loop of [encrypt] after the IV has been dealt with: the
    new value of [self.cipher_block]. *)
Definition encrypt_body (self : session) (data : bytes) (eof : bool)
    (cipher_block : bytes) : result bytes :=
  let c := cipher self in
  if negb eof then
    Ok (encrypt_block c (_xor data cipher_block))
  else
    let block := apply (padding_scheme self) data in
    if Nat.eqb (List.length block) (block_size c) then
      Ok (encrypt_block c (_xor block cipher_block))
    else if Nat.eqb (List.length block) (2 * block_size c) then
      let last_block :=
        encrypt_block c (_xor (firstn (block_size c) block) cipher_block) in
      let cipher_block :=
        encrypt_block c (_xor (skipn (block_size c) block) last_block) in
      Ok (last_block ++ cipher_block)
    else Raise PaddingException.

(** The loop of [encrypt]; [self.cipher_block] is threaded through and
    returned at the end. *)
Fixpoint encrypt_loop (self : session) (items : list (bytes * bool))
    (cipher_block : option bytes) : gen bytes (option bytes) :=
  match items with
  | [] => gret cipher_block
  | (data, eof) :: rest =>
      cb <~ (if falsy cipher_block
             then (_ <~ yield (iv self) ;; gret (iv self))
             else gret (the cipher_block)) ;;
      cb' <~ lift (encrypt_body self data eof cb) ;;
      _ <~ yield cb' ;;
      encrypt_loop self rest (Some cb')
  end.

(** [encrypt] on a session whose [cipher_block] attribute has the given
    value ([None] when the session is fresh). *)
Definition encrypt_from (self : session) (cipher_block : option bytes)
    (block_iterator : list bytes) : gen bytes (option bytes) :=
  encrypt_loop self (eof_signal_iterator block_iterator) cipher_block.

Definition encrypt (self : session) (block_iterator : list bytes)
  : gen bytes (option bytes) :=
  encrypt_from self None block_iterator.

(** The loop of [decrypt].  Besides [self.cipher_block] the state records,
    in order, the arguments handed to [decrypt_block]. *)
Fixpoint decrypt_loop (self : session) (items : list (bytes * bool))
    (cipher_block : bytes) (decrypted : list bytes)
  : gen bytes (bytes * list bytes) :=
  match items with
  | [] => gret (cipher_block, decrypted)
  | (data, eof) :: rest =>
      let plaintext :=
        _xor (decrypt_block (cipher self) data) cipher_block in
      let block :=
        if negb eof then plaintext
        else remove (padding_scheme self) plaintext in
      _ <~ yield block ;;
      decrypt_loop self rest data (decrypted ++ [data])
  end.

(** [decrypt]: [next] on an exhausted iterator stops the generator with an
    error. *)
Definition decrypt (self : session) (block_iterator : list bytes)
  : gen bytes (bytes * list bytes) :=
  match eof_signal_iterator block_iterator with
  | [] => lift (Raise RuntimeError)
  | (first, _) :: rest => decrypt_loop self rest first []
  end.

End CBC.

(** ** CTR *)

Module CTR.

Record session : Type := mkCTR {
  cipher : Cipher;
  nonce : bytes
}.

(** The byte string handed to the cipher by [_get_xor_block], before the
    assertion on its length. *)
Definition nonce_and_counter (self : session) (counter : Z) : result bytes :=
  counter_bytes <- to_bytes_big counter (List.length (nonce self)) ;;
  Ok (nonce self ++ counter_bytes).

Definition _get_xor_block (self : session) (counter : Z) : result bytes :=
  nc <- nonce_and_counter self counter ;;
  ensure (Nat.eqb (List.length nc) (block_size (cipher self))) ;;
  Ok (encrypt_block (cipher self) nc).

Fixpoint encrypt_loop (self : session) (items : list (bytes * bool))
    (counter : Z) : gen bytes Z :=
  match items with
  | [] => gret counter
  | (data, eof) :: rest =>
      xor_block <~ lift (_get_xor_block self counter) ;;
      let xor_block :=
        if eof && Nat.ltb (List.length data) (block_size (cipher self))
        then firstn (List.length data) xor_block
        else xor_block in
      let ciphertext := _xor data xor_block in
      let counter := counter + 1 in
      _ <~ yield ciphertext ;;
      encrypt_loop self rest counter
  end.

Definition encrypt (self : session) (block_iterator : list bytes)
  : gen bytes Z :=
  encrypt_loop self (eof_signal_iterator block_iterator) 0.

(** [return self.encrypt(block_iterator)] *)
Definition decrypt (self : session) (block_iterator : list bytes)
  : gen bytes Z :=
  encrypt self block_iterator.

End CTR.

(** ** GCM *)

Module GCM.

Import Galois.

Record session : Type := mkGCM {
  cipher : Cipher;
  nonce : bytes;
  header : bytes
}.

Definition GP (num_bits : nat) (initial_value : Z) : result GaloisPolynomial :=
  __init__ num_bits initial_value [].

Definition _get_xor_block (self : session) (counter : Z) : result bytes :=
  counter_bytes <- to_bytes_big counter (List.length (nonce self)) ;;
  let nonce_and_counter := nonce self ++ counter_bytes in
  ensure (Nat.eqb (List.length nonce_and_counter) (block_size (cipher self))) ;;
  Ok (encrypt_block (cipher self) nonce_and_counter).

Definition num_bits_of (self : session) : nat :=
  (8 * block_size (cipher self))%nat.

(** [rolling_polynomial.xor(C).mult(Ek_0)] *)
Definition roll (rolling_polynomial C Ek_0 : GaloisPolynomial)
  : result GaloisPolynomial :=
  t <- xor rolling_polynomial C ;;
  mult t Ek_0.

(** [Ek_0], the field element of the encrypted all-zero block. *)
Definition hash_subkey (self : session) : result GaloisPolynomial :=
  Ek_0_bytes <- (zero_bytes <- to_bytes_little 0 (block_size (cipher self)) ;;
                 Ok (encrypt_block (cipher self) zero_bytes)) ;;
  GP (num_bits_of self) (from_bytes_little Ek_0_bytes).

(** [len(self.header) << (num_bits // 2)], then [+= counter]. *)
Definition extra_block_of (self : session) (counter : Z) : Z :=
  Z.shiftl (Z.of_nat (List.length (header self)))
           (Z.of_nat (num_bits_of self / 2))
  + counter.

(** The last lines of both [encrypt] and [decrypt], from the value of
    [extra_block] on:
<<
    extra_block_gp = GP(num_bits, extra_block)
    rolling_polynomial = rolling_polynomial.xor(extra_block_gp).mult(Ek_0)
    gmac = rolling_polynomial.xor(ek_nonce)
>> *)
Definition gmac_of (self : session)
    (ek_nonce Ek_0 rolling_polynomial : GaloisPolynomial) (extra_block : Z)
  : result GaloisPolynomial :=
  extra_block_gp <- GP (num_bits_of self) extra_block ;;
  rolling_polynomial <- roll rolling_polynomial extra_block_gp Ek_0 ;;
  xor rolling_polynomial ek_nonce.

(** [gmac.intval().to_bytes(self.block_size, "little")] *)
Definition gmac_to_bytes (self : session) (gmac : GaloisPolynomial)
  : result bytes :=
  v <- intval gmac ;;
  to_bytes_little v (block_size (cipher self)).

(** From the counter and the rolling polynomial left by the loop to
    [gmac_bytes]. *)
Definition gmac_bytes_of (self : session)
    (ek_nonce Ek_0 rolling_polynomial : GaloisPolynomial) (counter : Z)
  : result bytes :=
  gmac <- gmac_of self ek_nonce Ek_0 rolling_polynomial
            (extra_block_of self counter) ;;
  gmac_to_bytes self gmac.

Fixpoint encrypt_loop (self : session) (Ek_0 : GaloisPolynomial)
    (items : list (bytes * bool)) (counter : Z)
    (rolling_polynomial : GaloisPolynomial)
  : gen bytes (Z * GaloisPolynomial) :=
  match items with
  | [] => gret (counter, rolling_polynomial)
  | (data, eof) :: rest =>
      xor_block <~ lift (_get_xor_block self counter) ;;
      let ciphertext := _xor data xor_block in
      let counter := counter + 1 in
      C <~ lift (GP (num_bits_of self) (from_bytes_little ciphertext)) ;;
      rolling_polynomial <~ lift (roll rolling_polynomial C Ek_0) ;;
      _ <~ yield ciphertext ;;
      encrypt_loop self Ek_0 rest counter rolling_polynomial
  end.

Definition encrypt (self : session) (block_iterator : list bytes)
  : gen bytes unit :=
  let num_bits := num_bits_of self in
  xb <~ lift (_get_xor_block self 0) ;;
  ek_nonce <~ lift (GP num_bits (from_bytes_little xb)) ;;
  let counter := 1 in
  _ <~ lift (assert (Nat.leb (List.length (header self))
                             (block_size (cipher self)))) ;;
  A <~ lift (GP num_bits (from_bytes_little (header self))) ;;
  header_bytes <~ lift (to_bytes_little (from_bytes_little (header self))
                                        (block_size (cipher self))) ;;
  _ <~ yield header_bytes ;;
  Ek_0 <~ lift (hash_subkey self) ;;
  rolling_polynomial <~ lift (mult A Ek_0) ;;
  st <~ encrypt_loop self Ek_0 (eof_signal_iterator block_iterator)
          counter rolling_polynomial ;;
  gmac_bytes <~ lift (gmac_bytes_of self ek_nonce Ek_0 (snd st) (fst st)) ;;
  yield gmac_bytes.

(** The loop of [decrypt]; it leaves at the element flagged last, and the
    loop variable [ciphertext] keeps the element it was bound to last. *)
Fixpoint decrypt_loop (self : session) (Ek_0 : GaloisPolynomial)
    (items : list (bytes * bool)) (counter : Z)
    (rolling_polynomial : GaloisPolynomial) (last : option bytes)
  : gen bytes (Z * GaloisPolynomial * option bytes) :=
  match items with
  | [] => gret (counter, rolling_polynomial, last)
  | (ciphertext, eof) :: rest =>
      if eof then gret (counter, rolling_polynomial, Some ciphertext)
      else
        xor_block <~ lift (_get_xor_block self counter) ;;
        let data := _xor ciphertext xor_block in
        let counter := counter + 1 in
        C <~ lift (GP (num_bits_of self) (from_bytes_little ciphertext)) ;;
        rolling_polynomial <~ lift (roll rolling_polynomial C Ek_0) ;;
        _ <~ yield data ;;
        decrypt_loop self Ek_0 rest counter rolling_polynomial
                     (Some ciphertext)
  end.

Definition bytes_eqb (a b : bytes) : bool :=
  if list_eq_dec Byte.byte_eq_dec a b then true else false.

(** [decrypt]; the returned boolean tells which of the two messages is
    printed: [true] for "Message verified correctly". *)
Definition decrypt (self : session) (block_iterator : list bytes)
  : gen bytes bool :=
  let num_bits := num_bits_of self in
  xb <~ lift (_get_xor_block self 0) ;;
  ek_nonce <~ lift (GP num_bits (from_bytes_little xb)) ;;
  let counter := 1 in
  match eof_signal_iterator block_iterator with
  | [] => lift (Raise RuntimeError)
  | (header_bytes, b) :: rest =>
      _ <~ lift (assert (negb b)) ;;
      A <~ lift (GP num_bits (from_bytes_little header_bytes)) ;;
      Ek_0 <~ lift (hash_subkey self) ;;
      rolling_polynomial <~ lift (mult A Ek_0) ;;
      st <~ decrypt_loop self Ek_0 rest counter rolling_polynomial None ;;
      let '(counter, rolling_polynomial, last) := st in
      gmac_bytes <~ lift (gmac_bytes_of self ek_nonce Ek_0
                            rolling_polynomial counter) ;;
      match last with
      | None => lift (Raise RuntimeError)
      | Some ciphertext => gret (bytes_eqb gmac_bytes ciphertext)
      end
  end.

End GCM.

(** * Definitions for the statements *)

(** ** Bit lists *)

Definition bit (b : Z) : Prop := b = 0 \/ b = 1.

(** Entry-wise XOR of two lists. *)
Definition zip_xor (a b : list Z) : list Z :=
  map (fun xy => Z.lxor (fst xy) (snd xy)) (combine a b).

(** The [k] low bits of [v], most significant first. *)
Fixpoint bits_of (k : nat) (v : Z) : list Z :=
  match k with
  | O => []
  | S j => bits_of j (v / 2) ++ [v mod 2]
  end.

Module GaloisSpec.

Import Galois.

(** The five widths of the table. *)
Definition supported_width (n : nat) : Prop :=
  n = 8%nat \/ n = 64%nat \/ n = 128%nat \/ n = 256%nat \/ n = 512%nat.

(** A well-formed object: [length] bits, each 0 or 1, and a polynomial
    whose largest exponent is [length], as [__init__] asserts. *)
Definition wf (e : GaloisPolynomial) : Prop :=
  List.length (bits e) = length e /\
  Forall bit (bits e) /\
  irr_pol e <> [] /\
  py_max (irr_pol e) = Ok (Z.of_nat (length e)).

(** The representation invariant: [length] bits, each 0 or 1, so that the
    value is below [2 ^ length] and [intval] returns it. *)
Definition invariant (e : GaloisPolynomial) : Prop :=
  List.length (bits e) = length e /\
  Forall bit (bits e) /\
  0 <= bin_value (bits e) < 2 ^ Z.of_nat (length e) /\
  ((0 < length e)%nat -> intval e = Ok (bin_value (bits e))).

(** The objects the class can build. *)
Inductive reachable : GaloisPolynomial -> Prop :=
| reach_init n v irr e : __init__ n v irr = Ok e -> reachable e
| reach_xor a b c : reachable a -> reachable b -> xor a b = Ok c -> reachable c
| reach_mult a b c : reachable a -> reachable b -> mult a b = Ok c -> reachable c.

(** The irreducible pattern aligned on position [i] of the double-width
    list: [shifted_irr_pol] of the reduction loop. *)
Definition aligned (n : nat) (ipl : list Z) (i : nat) : list Z :=
  zeros i ++ ipl ++ zeros (n * 2 - (n + 1) - i).

(** The first [k] entries are zero. *)
Definition top_zero (k : nat) (ip : list Z) : Prop :=
  forall j, (j < k)%nat -> nth j ip 0 = 0.

Definition xor_all (vs : list Z) : Z := fold_right Z.lxor 0 vs.

(** The contribution to the product of the bit of [bs] at position [s]
    from the right. *)
Definition term (A : Z) (bs : list Z) (n s : nat) : Z :=
  if nth (n - 1 - s) bs 0 =? 1 then A * 2 ^ Z.of_nat s else 0.

End GaloisSpec.

(** ** GF(2)[x]

    A polynomial over GF(2) is the non-negative integer whose bit [i] is
    the coefficient of [x^i]; the sum is [Z.lxor]. *)

Module GF2.

(** The carry-less product, by the binary digits of the right operand. *)
Fixpoint mul_pos (a : Z) (b : positive) : Z :=
  match b with
  | xH => a
  | xO b' => 2 * mul_pos a b'
  | xI b' => Z.lxor a (2 * mul_pos a b')
  end.

Definition mul (a b : Z) : Z :=
  match b with
  | Zpos p => mul_pos a p
  | _ => 0
  end.

(** The polynomial with the given exponents. *)
Definition of_exponents (irr : list Z) : Z :=
  fold_left (fun acc e => Z.setbit acc e) irr 0.

(** Long division by [p], of degree [n]: the bits [n + k - 1], ..., [n] of
    [v] are cleared from the top, each by the XOR of [p] shifted under it. *)
Fixpoint reduce (k : nat) (n : Z) (p v : Z) : Z :=
  match k with
  | O => v
  | S k' =>
      reduce k' n p
        (if Z.testbit v (n + Z.of_nat k')
         then Z.lxor v (Z.shiftl p (Z.of_nat k')) else v)
  end.

(** The product in GF(2^n) = GF(2)[x] / (p): the carry-less product
    reduced modulo [p]. *)
Definition mulmod (n : nat) (p a b : Z) : Z :=
  reduce n (Z.of_nat n) p (mul a b).

(** [r] is the remainder of [v] in the division by [p], of degree [n]:
    [v = p * q + r] in GF(2)[x] for some [q], with [deg r < n]. *)
Definition remainder (n : nat) (p v r : Z) : Prop :=
  0 <= r < 2 ^ Z.of_nat n /\
  exists q, 0 <= q /\ v = Z.lxor (mul p q) r.

End GF2.

(** ** Stub collaborators *)

(** A stub cipher: every byte XORed with a constant; it is its own
    inverse. *)
Definition xor_cipher (block_size : nat) (k : byte) : Cipher :=
  mkCipher block_size (map (byte_xor k)) (map (byte_xor k)).

(** ** CTR *)

Module CTRSpec.

Import CTR.

(** The keystream with a counter field of [block_size - len(nonce)] bytes,
    at block [i]: the counter fits the field, nonce and counter fill a
    block, and the output at [i] is the chunk at [i] XORed with the
    encrypted block, cut to the shorter of the two. *)
Definition ctr_block_as_stated (s : session) (chunks : list bytes) (i : nat)
  : Prop :=
  exists counter_bytes,
    to_bytes_big (Z.of_nat i)
      (block_size (cipher s) - List.length (nonce s)) = Ok counter_bytes /\
    List.length (nonce s ++ counter_bytes) = block_size (cipher s) /\
    let keystream := encrypt_block (cipher s) (nonce s ++ counter_bytes) in
    nth_error (yielded (encrypt s chunks)) i
    = Some (_xor (nth i chunks []) keystream) /\
    List.length (_xor (nth i chunks []) keystream)
    = Nat.min (List.length (nth i chunks [])) (List.length keystream).

Definition ctr_as_stated (s : session) (chunks : list bytes) : Prop :=
  forall i, (i < List.length chunks)%nat -> ctr_block_as_stated s chunks i.

(** The keystream block of counter [i], with the counter field the code
    gives it. *)
Definition keystream (s : session) (i : Z) : bytes :=
  encrypt_block (cipher s) (nonce s ++ rev (le_digits (List.length (nonce s)) i)).

Fixpoint outputs (s : session) (chunks : list bytes) (i : Z) : list bytes :=
  match chunks with
  | [] => []
  | data :: rest => _xor data (keystream s i) :: outputs s rest (i + 1)
  end.

Definition ctr3 : session := mkCTR (xor_cipher 3 x5a) [x01].

Definition ctr4 : session := mkCTR (xor_cipher 4 x5a) [x01; x02].

End CTRSpec.

(** ** CBC *)

Module CBCSpec.

Import CBC.

(** What [decrypt] yields for the block [data] met with chaining value
    [prev]. *)
Definition plain (s : session) (prev data : bytes) (eof : bool) : bytes :=
  let plaintext := _xor (decrypt_block (cipher s) data) prev in
  if negb eof then plaintext else remove (padding_scheme s) plaintext.

Fixpoint plains (s : session) (prev : bytes) (items : list (bytes * bool))
  : list bytes :=
  match items with
  | [] => []
  | (data, eof) :: rest => plain s prev data eof :: plains s data rest
  end.

End CBCSpec.

(** ** GCM *)

Module GCMSpec.

Import Galois GaloisSpec GCM.

(** An element of the field of width [nb] with polynomial [p]. *)
Definition elt (nb : nat) (p : list Z) (e : GaloisPolynomial) : Prop :=
  wf e /\ length e = nb /\ irr_pol e = p.

(** The block sizes whose field width [8 * block_size] is in the table and
    which leave room for a nonce. *)
Definition supported_block_size (bs : nat) : Prop :=
  bs = 8%nat \/ bs = 16%nat \/ bs = 32%nat \/ bs = 64%nat.

(** What the authenticated mode needs from its session: a block size whose
    field width is in the table, a cipher that returns blocks, and a nonce
    of half a block. *)
Definition session_ok (s : session) (p : list Z) : Prop :=
  supported_block_size (block_size (cipher s)) /\
  irreducible_polynomials (num_bits_of s) = Some p /\
  (forall x, List.length x = block_size (cipher s) ->
             List.length (encrypt_block (cipher s) x) = block_size (cipher s)) /\
  List.length (nonce s) = (block_size (cipher s) / 2)%nat.

(** The keystream block of counter [i]. *)
Definition keystream (s : session) (i : Z) : bytes :=
  encrypt_block (cipher s) (nonce s ++ rev (le_digits (List.length (nonce s)) i)).

(** A whole run of [encrypt], and of [decrypt] on what it yielded. *)
Definition gcm_run (s : session) (pt : list bytes)
    (ek A Ek_0 acc0 acc : GaloisPolynomial) (cts : list bytes) (tag : bytes)
  : Prop :=
  let bs := block_size (cipher s) in
  let nb := num_bits_of s in
  let hb := le_digits bs (from_bytes_little (header s)) in
  let n1 := 1 + Z.of_nat (List.length pt) in
  (exists xb, _get_xor_block s 0 = Ok xb /\
              GP nb (from_bytes_little xb) = Ok ek) /\
  GP nb (from_bytes_little (header s)) = Ok A /\
  hash_subkey s = Ok Ek_0 /\
  mult A Ek_0 = Ok acc0 /\
  encrypt_loop s Ek_0 (eof_signal_iterator pt) 1 acc0 = (cts, Ok (n1, acc)) /\
  List.length cts = List.length pt /\
  (forall tag' last,
     decrypt_loop s Ek_0 (map (fun c => (c, false)) cts ++ [(tag', true)])
       1 acc0 last = (pt, Ok (n1, acc, Some tag'))) /\
  gmac_bytes_of s ek Ek_0 acc n1 = Ok tag /\
  List.length tag = bs /\
  encrypt s pt = (hb :: cts ++ [tag], Ok tt) /\
  decrypt s (hb :: cts ++ [tag]) = (pt, Ok true).

(** Decrypting what [encrypt] yielded gives the plaintext back and a
    verified tag. *)
Definition round_trip (s : session) (pt : list bytes) : Prop :=
  decrypt s (yielded (encrypt s pt)) = (pt, Ok true).

(** What both [encrypt] and [decrypt] compute before their loop, from the
    header block they are given. *)
Definition setup (s : session) (header_block : bytes)
    (ek_nonce Ek_0 acc0 : GaloisPolynomial) : Prop :=
  (exists xb, _get_xor_block s 0 = Ok xb /\
              GP (num_bits_of s) (from_bytes_little xb) = Ok ek_nonce) /\
  hash_subkey s = Ok Ek_0 /\
  exists A, GP (num_bits_of s) (from_bytes_little header_block) = Ok A /\
            mult A Ek_0 = Ok acc0.

(** The tag made from the accumulator [acc] with a length block of value
    [length_value]: [(acc XOR length_element) x H XOR EK_nonce], as one
    block of bytes. *)
Definition tag_with (s : session) (ek_nonce Ek_0 acc : GaloisPolynomial)
    (length_value : Z) (tag : bytes) : Prop :=
  exists L t1 t2 gmac,
    GP (num_bits_of s) length_value = Ok L /\
    xor acc L = Ok t1 /\ mult t1 Ek_0 = Ok t2 /\
    xor t2 ek_nonce = Ok gmac /\
    gmac_to_bytes s gmac = Ok tag /\
    List.length tag = block_size (cipher s).

(** [encrypt] on [pt] leaves its loop with the counter at [counter] and
    ends by yielding the tag made with [length_value]. *)
Definition encrypt_finalized_with (s : session) (pt : list bytes)
    (counter length_value : Z) : Prop :=
  exists ek_nonce Ek_0 acc0 cts acc tag,
    setup s (header s) ek_nonce Ek_0 acc0 /\
    encrypt_loop s Ek_0 (eof_signal_iterator pt) 1 acc0
    = (cts, Ok (counter, acc)) /\
    tag_with s ek_nonce Ek_0 acc length_value tag /\
    outcome (encrypt s pt) = Ok tt /\
    last (yielded (encrypt s pt)) [] = tag.

(** [decrypt] on [stream] leaves its loop with the counter at [counter] and
    compares the last element of [stream] with the tag made with
    [length_value]. *)
Definition decrypt_finalized_with (s : session) (stream : list bytes)
    (counter length_value : Z) : Prop :=
  exists header_block body received ek_nonce Ek_0 acc0 pts acc tag,
    stream = header_block :: body ++ [received] /\
    setup s header_block ek_nonce Ek_0 acc0 /\
    decrypt_loop s Ek_0 (eof_signal_iterator (body ++ [received])) 1 acc0 None
    = (pts, Ok (counter, acc, Some received)) /\
    tag_with s ek_nonce Ek_0 acc length_value tag /\
    decrypt s stream = (pts, Ok (bytes_eqb tag received)).

(** The length block with the number of data blocks in its low half. *)
Definition length_block_as_stated (s : session) (block_count : nat) : Z :=
  Z.lor (Z.shiftl (Z.of_nat (List.length (header s)))
                  (Z.of_nat (num_bits_of s / 2)))
        (Z.of_nat block_count).

Definition gcm4 : session := mkGCM (xor_cipher 4 x5a) [x01; x02] [xaa; xbb].

Definition gcm8 : session :=
  mkGCM (xor_cipher 8 x5a) [x01; x02; x03; x04] [xaa; xbb].

Definition blocks8 : list bytes :=
  [[x00; x01; x02; x03; x04; x05; x06; x07];
   [x10; x11; x12; x13; x14; x15; x16; x17]].

End GCMSpec.

(** * Definitions for the further properties *)

(** ** Field elements by value *)

Module GaloisElem.

Import Galois.

(** The object of width [n] and polynomial [p] whose value is [v]. *)
Definition elem (p : list Z) (n : nat) (v : Z) : GaloisPolynomial :=
  mkGP p n (bits_of n v).

(** The value of an object: its bit list read as a binary numeral. *)
Definition val (e : GaloisPolynomial) : Z := bin_value (bits e).

(** The polynomial [__init__] gives the object: the table's for the
    default argument [[]], the argument itself otherwise. *)
Definition effective_polynomial (num_bits : nat)
    (irreducible_polynomial : list Z) : option (list Z) :=
  match irreducible_polynomial with
  | [] => irreducible_polynomials num_bits
  | _ :: _ => Some irreducible_polynomial
  end.

(** Three sample elements of GF(2^8), and one of GF(2^64). *)
Definition x57 : GaloisPolynomial := elem [8; 4; 3; 1; 0] 8 87.
Definition x83 : GaloisPolynomial := elem [8; 4; 3; 1; 0] 8 131.
Definition x1b : GaloisPolynomial := elem [8; 4; 3; 1; 0] 8 27.
Definition wide5 : GaloisPolynomial := elem [64; 4; 3; 1; 0] 64 5.

End GaloisElem.
(** ** Further stub collaborators and sample sessions *)

(** A stub padding scheme in the manner of PKCS#7: [k] bytes of value [k]
    bring the chunk to the next multiple of the block size. *)
Definition pkcs7 (block_size : nat) : PaddingScheme :=
  mkPadding
    (fun x =>
       let k := (block_size - List.length x mod block_size)%nat in
       x ++ repeat (byte_of (Z.of_nat k)) k)
    (fun x => firstn (List.length x - Z.to_nat (byte_val (last x x00))) x).

(** A stub padding scheme that returns a block and a half. *)
Definition bad_padding (block_size : nat) : PaddingScheme :=
  mkPadding (fun x => x ++ repeat x00 block_size) (fun x => x).

Module Samples.

Definition ecb4 : ECB.session := ECB.mkECB (xor_cipher 4 x5a) (pkcs7 4).

Definition ecb4_bad : ECB.session :=
  ECB.mkECB (xor_cipher 4 x5a) (bad_padding 4).

Definition cbc4 : CBC.session :=
  CBC.mkCBC (xor_cipher 4 x5a) [xa0; xa1; xa2; xa3] (pkcs7 4).

Definition cbc4_bad : CBC.session :=
  CBC.mkCBC (xor_cipher 4 x5a) [xa0; xa1; xa2; xa3] (bad_padding 4).

Definition ctr2 : CTR.session := CTR.mkCTR (xor_cipher 2 x5a) [x01].

Definition body4 : list bytes := [[x00; x01; x02; x03]; [x10; x11; x12; x13]].

Definition final4 : bytes := [x20; x21].

End Samples.

(** ** The CBC chain *)

Module CBCChain.

Import CBC.

(** The ciphertext blocks of the non-final chunks [body], chained from
    [cb]. *)
Fixpoint chain (s : session) (cb : bytes) (body : list bytes) : list bytes :=
  match body with
  | [] => []
  | x :: r =>
      let c := encrypt_block (cipher s) (_xor x cb) in
      c :: chain s c r
  end.

(** What the mode needs from a session and a message made of the non-final
    chunks [body] and a last chunk: blocks that are not empty, a cipher that
    returns a block for a block, an IV of one block, non-final chunks of
    one block. *)
Definition blocks_ok (s : session) (body : list bytes) : Prop :=
  (0 < block_size (cipher s))%nat /\
  (forall x, List.length x = block_size (cipher s) ->
             List.length (encrypt_block (cipher s) x) = block_size (cipher s)) /\
  List.length (iv s) = block_size (cipher s) /\
  Forall (fun b => List.length b = block_size (cipher s)) body.

End CBCChain.

(** * Proofs *)

(** ** Lists *)

Section ListFacts.

Lemma length_list_set l i v : List.length (list_set l i v) = List.length l.
Proof.
  revert i; induction l as [|x r IH]; intros [|j]; simpl; auto.
Qed.

Lemma nth_list_set l i v j :
  nth j (list_set l i v) 0 =
  if Nat.eqb i j && Nat.ltb i (List.length l) then v else nth j l 0.
Proof.
  revert i j; induction l as [|x r IH]; intros i j.
  - simpl. rewrite andb_false_r. now destruct i.
  - destruct i as [|i], j as [|j]; simpl; auto.
Qed.

Lemma list_set_middle pre y tail v :
  list_set (pre ++ y :: tail) (List.length pre) v = pre ++ v :: tail.
Proof. induction pre as [|x r IH]; simpl; [reflexivity | now rewrite IH]. Qed.

Lemma list_set_at pre y tail v i :
  i = List.length pre -> list_set (pre ++ y :: tail) i v = pre ++ v :: tail.
Proof. intros ->. apply list_set_middle. Qed.

Lemma zeros_succ_r k : zeros (S k) = zeros k ++ [0].
Proof. unfold zeros. induction k; simpl in *; [reflexivity | now rewrite <- IHk]. Qed.

Lemma length_zeros k : List.length (zeros k) = k.
Proof. apply repeat_length. Qed.

Lemma nth_zeros k j : nth j (zeros k) 0 = 0.
Proof. unfold zeros. revert j; induction k; intros [|j]; simpl; auto. Qed.

Lemma Forall_bit_zeros k : Forall bit (zeros k).
Proof. unfold zeros. induction k; simpl; constructor; auto. now left. Qed.

Lemma length_zip_xor a b :
  List.length (zip_xor a b) = Nat.min (List.length a) (List.length b).
Proof. unfold zip_xor. now rewrite length_map, length_combine. Qed.

Lemma nth_zip_xor a b j :
  List.length a = List.length b ->
  nth j (zip_xor a b) 0 = Z.lxor (nth j a 0) (nth j b 0).
Proof.
  revert b j; induction a as [|x r IH]; intros [|y s] [|j] H; simpl in *;
    try discriminate; auto; apply IH; lia.
Qed.

Lemma bit_lxor x y : bit x -> bit y -> bit (Z.lxor x y).
Proof. intros [->| ->] [->| ->]; cbv; auto. Qed.

Lemma Forall_bit_zip_xor a b :
  Forall bit a -> Forall bit b -> Forall bit (zip_xor a b).
Proof.
  intros Ha; revert b; induction Ha as [|x r Hx Hr IH]; intros b Hb.
  - constructor.
  - destruct Hb as [|y s Hy Hs]; simpl; constructor.
    + now apply bit_lxor.
    + now apply IH.
Qed.

(** A loop [for i in range(k, k + m): acc[i] = f(i, acc[i])]. *)
Lemma nth_list_set_eq l i v :
  (i < List.length l)%nat -> nth i (list_set l i v) 0 = v.
Proof.
  intros H. rewrite nth_list_set, Nat.eqb_refl.
  apply Nat.ltb_lt in H. now rewrite H.
Qed.

Lemma nth_list_set_neq l i v j :
  i <> j -> nth j (list_set l i v) 0 = nth j l 0.
Proof.
  intros H. rewrite nth_list_set.
  apply Nat.eqb_neq in H. now rewrite H.
Qed.

Lemma fold_set_spec (f : nat -> Z -> Z) m : forall k acc,
  let r := fold_left (fun acc i => list_set acc i (f i (nth i acc 0)))
                     (seq k m) acc in
  List.length r = List.length acc /\
  (forall j, (k <= j < k + m)%nat -> (j < List.length acc)%nat ->
             nth j r 0 = f j (nth j acc 0)) /\
  (forall j, (j < k \/ k + m <= j)%nat -> nth j r 0 = nth j acc 0).
Proof.
  induction m as [|m IH]; intros k acc; simpl.
  - repeat split; auto. intros j Hj. lia.
  - destruct (IH (S k) (list_set acc k (f k (nth k acc 0)))) as (HL & HI & HO).
    rewrite length_list_set in *.
    split; [exact HL|]. split.
    + intros j Hj Hlen. destruct (Nat.eq_dec k j) as [->|Hne].
      * rewrite HO by lia. now apply nth_list_set_eq.
      * rewrite HI by lia. now rewrite nth_list_set_neq.
    + intros j Hj. rewrite HO by lia. apply nth_list_set_neq. lia.
Qed.

Lemma xor_into_zip n a b :
  List.length a = n -> List.length b = n -> Galois.xor_into n a b = zip_xor a b.
Proof.
  intros Ha Hb. unfold Galois.xor_into.
  destruct (fold_set_spec (fun j x => Z.lxor x (nth j b 0)) n 0 a) as (HL & HI & _).
  apply nth_ext with (d := 0) (d' := 0).
  - rewrite HL, length_zip_xor. lia.
  - intros j Hj. rewrite HL in Hj. rewrite HI, nth_zip_xor by lia. reflexivity.
Qed.

End ListFacts.

(** ** The field engine *)

Module GaloisProofs.

Import Galois GaloisSpec GF2.

(** ** The constructor *)

Lemma bin_value_snoc l b : bin_value (l ++ [b]) = 2 * bin_value l + b.
Proof. unfold bin_value. now rewrite fold_left_app. Qed.

Lemma bin_value_zeros k : bin_value (zeros k) = 0.
Proof.
  induction k as [|k IH]; [reflexivity|].
  rewrite zeros_succ_r, bin_value_snoc, IH. reflexivity.
Qed.

Lemma length_bits_of k : forall v, List.length (bits_of k v) = k.
Proof.
  induction k as [|k IH]; intros v; simpl; [reflexivity|].
  rewrite length_app, IH. simpl. lia.
Qed.

Lemma Forall_bit_bits_of k : forall v, Forall bit (bits_of k v).
Proof.
  induction k as [|k IH]; intros v; simpl; [constructor|].
  apply Forall_app; split; [apply IH|]. constructor; [|constructor].
  unfold bit. pose proof (Z.mod_pos_bound v 2). lia.
Qed.

Lemma bits_of_0 k : bits_of k 0 = zeros k.
Proof.
  induction k as [|k IH]; [reflexivity|].
  simpl bits_of. rewrite zeros_succ_r. change (0 / 2) with 0. now rewrite IH.
Qed.

Lemma bin_value_bits_of k : forall v,
  0 <= v -> bin_value (bits_of k v) = v mod 2 ^ Z.of_nat k.
Proof.
  induction k as [|k IH]; intros v Hv.
  - simpl. now rewrite Z.mod_1_r.
  - simpl bits_of. rewrite bin_value_snoc, IH by (apply Z.div_pos; lia).
    rewrite Nat2Z.inj_succ, Z.pow_succ_r by lia.
    rewrite Z.rem_mul_r by lia. lia.
Qed.

Lemma bin_value_bits_of_small k v :
  0 <= v < 2 ^ Z.of_nat k -> bin_value (bits_of k v) = v.
Proof.
  intros H. rewrite bin_value_bits_of by lia. apply Z.mod_small. lia.
Qed.

Lemma bin_value_bound l :
  Forall bit l -> 0 <= bin_value l < 2 ^ Z.of_nat (List.length l).
Proof.
  induction l as [|b l IH] using rev_ind; intros H.
  - simpl. cbv. split; [discriminate | reflexivity].
  - apply Forall_app in H. destruct H as [Hl Hb].
    inversion Hb as [|? ? Hb' _]; subst.
    rewrite bin_value_snoc, length_app. simpl List.length.
    replace (Z.of_nat (List.length l + 1)) with (Z.succ (Z.of_nat (List.length l))) by lia.
    rewrite Z.pow_succ_r by lia. specialize (IH Hl). unfold bit in Hb'. lia.
Qed.

Lemma init_loop_0 k l : init_loop k 0 l = Ok l.
Proof. destruct k; reflexivity. Qed.

Lemma init_loop_ok k : forall v tail,
  0 <= v < 2 ^ Z.of_nat k ->
  init_loop k v (zeros k ++ tail) = Ok (bits_of k v ++ tail).
Proof.
  induction k as [|k IH]; intros v tail Hv.
  - simpl in Hv. assert (v = 0) by lia. subst. reflexivity.
  - destruct (Z.eq_dec v 0) as [->|Hnz].
    + now rewrite init_loop_0, bits_of_0.
    + rewrite zeros_succ_r, <- app_assoc. cbn [init_loop app].
      replace (0 <? v) with true by (symmetry; apply Z.ltb_lt; lia).
      rewrite list_set_at by (now rewrite length_zeros).
      rewrite Z.shiftr_div_pow2 by lia. change (2 ^ 1) with 2.
      rewrite (IH (v / 2) ((v mod 2) :: tail)).
      * simpl bits_of. now rewrite <- app_assoc.
      * rewrite Nat2Z.inj_succ, Z.pow_succ_r in Hv by lia.
        split; [apply Z.div_pos; lia|]. apply Z.div_lt_upper_bound; lia.
Qed.

Lemma init_loop_overflow k : forall v l,
  2 ^ Z.of_nat k <= v -> init_loop k v l = Raise AssertionError.
Proof.
  induction k as [|k IH]; intros v l Hv.
  - simpl in *. replace (0 <? v) with true by (symmetry; apply Z.ltb_lt; lia).
    reflexivity.
  - assert (0 < 2 ^ Z.of_nat (S k)) by (apply Z.pow_pos_nonneg; lia).
    cbn [init_loop]. replace (0 <? v) with true by (symmetry; apply Z.ltb_lt; lia).
    apply IH. rewrite Z.shiftr_div_pow2 by lia. change (2 ^ 1) with 2.
    rewrite Nat2Z.inj_succ, Z.pow_succ_r in Hv by lia.
    apply Z.div_le_lower_bound; lia.
Qed.

Lemma table_max n p :
  irreducible_polynomials n = Some p ->
  p <> [] /\ py_max p = Ok (Z.of_nat n).
Proof.
  unfold irreducible_polynomials.
  repeat match goal with
         | |- context [Nat.eqb n ?k] => destruct (Nat.eqb_spec n k) as [->|?]
         end; intros H; inversion H; subst; split; try discriminate; reflexivity.
Qed.

(** The constructor with an explicit polynomial. *)
Lemma init_custom n v irr :
  irr <> [] -> py_max irr = Ok (Z.of_nat n) -> 0 <= v < 2 ^ Z.of_nat n ->
  __init__ n v irr = Ok (mkGP irr n (bits_of n v)).
Proof.
  intros Hne Hmax Hv. unfold __init__.
  destruct irr as [|e irr]; [congruence|]. cbn [bind].
  replace (0 <=? v) with true by (symmetry; apply Z.leb_le; lia).
  cbn [assert bind]. rewrite Hmax. cbn [bind]. rewrite Z.eqb_refl. cbn [assert bind].
  rewrite <- (app_nil_r (zeros n)), init_loop_ok by lia.
  now rewrite app_nil_r.
Qed.

(** The constructor with the polynomial of the table. *)
Lemma init_default n v p :
  irreducible_polynomials n = Some p -> 0 <= v < 2 ^ Z.of_nat n ->
  __init__ n v [] = Ok (mkGP p n (bits_of n v)).
Proof.
  intros Hp Hv. destruct (table_max n p Hp) as [Hne Hmax].
  unfold __init__. rewrite Hp. cbn [bind].
  replace (0 <=? v) with true by (symmetry; apply Z.leb_le; lia).
  cbn [assert bind]. rewrite Hmax. cbn [bind]. rewrite Z.eqb_refl. cbn [assert bind].
  rewrite <- (app_nil_r (zeros n)), init_loop_ok by lia.
  now rewrite app_nil_r.
Qed.

Lemma init_wf n v irr e : __init__ n v irr = Ok e -> wf e /\ length e = n.
Proof.
  unfold __init__. intros H.
  destruct (match irr with [] => _ | _ :: _ => _ end) as [p|] eqn:Hp;
    cbn [bind] in H; [|discriminate].
  destruct (0 <=? v) eqn:Hv; cbn [assert bind] in H; [|discriminate].
  destruct (py_max p) as [m|] eqn:Hm; cbn [bind] in H; [|discriminate].
  destruct (Z.eqb_spec m (Z.of_nat n)) as [->|]; cbn [assert bind] in H; [|discriminate].
  apply Z.leb_le in Hv.
  destruct (Z_lt_le_dec v (2 ^ Z.of_nat n)) as [Hlt|Hge].
  - rewrite <- (app_nil_r (zeros n)), init_loop_ok, app_nil_r in H by lia.
    cbn [bind] in H. inversion H; subst. unfold wf. cbn.
    repeat split; auto using length_bits_of, Forall_bit_bits_of.
    intros ->. discriminate.
  - rewrite init_loop_overflow in H by lia. discriminate.
Qed.

(** ** [xor], and the pieces of [mult] *)

Lemma wf_init_zero a :
  wf a -> __init__ (length a) 0 (irr_pol a)
          = Ok (mkGP (irr_pol a) (length a) (zeros (length a))).
Proof.
  intros (_ & _ & Hne & Hmax).
  rewrite init_custom, bits_of_0; auto.
  split; [lia|]. apply Z.pow_pos_nonneg; lia.
Qed.

(** [xor] on two objects of the same width. *)
Lemma xor_ok a b :
  wf a -> wf b -> length a = length b ->
  xor a b = Ok (mkGP (irr_pol a) (length a) (zip_xor (bits a) (bits b))).
Proof.
  intros Ha Hb Hlen. unfold xor.
  rewrite <- Hlen, Nat.eqb_refl. cbn [assert bind].
  rewrite wf_init_zero by assumption. cbn [bind irr_pol length bits].
  do 2 f_equal.
  destruct Ha as (La & _), Hb as (Lb & _).
  destruct (fold_set_spec
              (fun i _ => Z.lxor (nth i (bits a) 0) (nth i (bits b) 0))
              (length a) 0 (zeros (length a))) as (HL & HI & _).
  cbv zeta in HL, HI. rewrite length_zeros in *.
  apply nth_ext with (d := 0) (d' := 0).
  - rewrite HL, length_zip_xor. lia.
  - intros j Hj. rewrite HL in Hj. rewrite HI, nth_zip_xor by lia. reflexivity.
Qed.

Lemma xor_wf a b c :
  wf a -> wf b -> length a = length b -> xor a b = Ok c ->
  wf c /\ length c = length a /\ irr_pol c = irr_pol a.
Proof.
  intros Ha Hb Hlen H. rewrite xor_ok in H by assumption.
  inversion H; subst; clear H. unfold wf. cbn [bits length irr_pol].
  destruct Ha as (La & Ba & Na & Ma), Hb as (Lb & Bb & _).
  repeat split; auto.
  - rewrite length_zip_xor. lia.
  - now apply Forall_bit_zip_xor.
Qed.

(** *** The shifted copies and the column sums *)

Lemma shifted_vals_shape a b sv :
  wf a -> In sv (shifted_vals a b) ->
  List.length sv = (length a * 2)%nat /\ Forall bit sv.
Proof.
  intros (La & Ba & _) Hin. unfold shifted_vals in Hin.
  apply in_flat_map in Hin. destruct Hin as (shift & Hs & Hin).
  apply in_seq in Hs.
  destruct (nth _ (bits b) 0 =? 1); [|contradiction].
  destruct Hin as [<-|[]]. split.
  - rewrite !length_app, !length_zeros. lia.
  - repeat (apply Forall_app; split); auto using Forall_bit_zeros.
Qed.

Lemma shifted_vals_check a b :
  wf a ->
  forallb (fun sv => Nat.eqb (List.length sv) (length a * 2)) (shifted_vals a b)
  = true.
Proof.
  intros Ha. apply forallb_forall. intros sv Hin.
  apply Nat.eqb_eq. now apply (shifted_vals_shape a b sv).
Qed.

Lemma length_intermediate_of L svs : List.length (intermediate_of L svs) = L.
Proof. unfold intermediate_of. now rewrite length_map, length_seq. Qed.

Lemma Forall_bit_intermediate_of L svs : Forall bit (intermediate_of L svs).
Proof.
  unfold intermediate_of. apply Forall_forall. intros x Hx.
  apply in_map_iff in Hx. destruct Hx as (i & <- & _).
  unfold bit. match goal with |- ?t mod 2 = 0 \/ _ => pose proof (Z.mod_pos_bound t 2) end.
  lia.
Qed.

(** *** The dense pattern of the polynomial *)

Lemma py_setitem_inv l p l' :
  py_setitem l p 1 = Ok l' ->
  exists i, (i < List.length l)%nat /\ l' = list_set l i 1 /\
            (0 <= p -> i = Z.to_nat p).
Proof.
  unfold py_setitem. intros H.
  destruct ((0 <=? p) && (p <? Z.of_nat (List.length l))) eqn:E1.
  - apply andb_true_iff in E1. destruct E1 as [E1 E2].
    apply Z.leb_le in E1. apply Z.ltb_lt in E2.
    inversion H; subst. exists (Z.to_nat p). repeat split; auto. lia.
  - destruct ((- Z.of_nat (List.length l) <=? p) && (p <? 0)) eqn:E2; [|discriminate].
    apply andb_true_iff in E2. destruct E2 as [E2 E3].
    apply Z.leb_le in E2. apply Z.ltb_lt in E3.
    inversion H; subst. exists (Z.to_nat (Z.of_nat (List.length l) + p)).
    repeat split; auto; lia.
Qed.

Lemma py_setitem_ok l p v :
  0 <= p < Z.of_nat (List.length l) ->
  py_setitem l p v = Ok (list_set l (Z.to_nat p) v).
Proof.
  intros H. unfold py_setitem.
  replace (0 <=? p) with true by (symmetry; apply Z.leb_le; lia).
  replace (p <? Z.of_nat (List.length l)) with true by (symmetry; apply Z.ltb_lt; lia).
  reflexivity.
Qed.

Lemma py_setitem_error l p v e :
  py_setitem l p v = Raise e -> e = IndexError.
Proof.
  unfold py_setitem.
  destruct (_ && _); [discriminate|]. destruct (_ && _); [discriminate|].
  now inversion 1.
Qed.

Lemma Forall_bit_list_set l i v : Forall bit l -> bit v -> Forall bit (list_set l i v).
Proof.
  intros H; revert i; induction H as [|x r Hx Hr IH]; intros [|i] Hv; simpl;
    constructor; auto.
Qed.

Lemma irr_pol_fill_inv L irr : forall l l',
  irr_pol_fill L irr l = Ok l' ->
  List.length l' = List.length l /\
  (Forall bit l -> Forall bit l') /\
  (forall j, nth j l 0 = 1 -> nth j l' 0 = 1) /\
  (forall e, In e irr -> 0 <= e <= Z.of_nat L - 1 ->
             Z.of_nat L <= Z.of_nat (List.length l) ->
             nth (Z.to_nat (Z.of_nat L - 1 - e)) l' 0 = 1).
Proof.
  induction irr as [|index rest IH]; intros l l' H; cbn [irr_pol_fill] in H.
  - inversion H; subst. repeat split; auto. intros e [].
  - destruct (py_setitem l (Z.of_nat L - 1 - index) 1) as [l1|] eqn:E;
      cbn [bind] in H; [|discriminate].
    destruct (py_setitem_inv _ _ _ E) as (i & Hi & -> & Hpos).
    destruct (IH _ _ H) as (HL & HB & HK & HE).
    rewrite length_list_set in *.
    split; [exact HL|]. split; [|split].
    + intros Hb. apply HB. apply Forall_bit_list_set; auto. now right.
    + intros j Hj. apply HK. rewrite nth_list_set.
      destruct (Nat.eqb i j && Nat.ltb i (List.length l)); auto.
    + intros e [->|Hin] He Hlen.
      * apply HK. rewrite Hpos by lia. apply nth_list_set_eq. lia.
      * now apply HE.
Qed.

Lemma irr_pol_fill_ok L irr : forall l,
  List.length l = L ->
  Forall (fun e => 0 <= e <= Z.of_nat L - 1) irr ->
  exists l', irr_pol_fill L irr l = Ok l'.
Proof.
  induction irr as [|index rest IH]; intros l Hl Hirr; cbn [irr_pol_fill].
  - eauto.
  - inversion Hirr as [|? ? He Hrest]; subst.
    rewrite py_setitem_ok by lia. cbn [bind].
    apply IH; auto. now rewrite length_list_set.
Qed.

Lemma irr_pol_fill_error L irr : forall l e,
  irr_pol_fill L irr l = Raise e -> e = IndexError.
Proof.
  induction irr as [|index rest IH]; intros l e H; cbn [irr_pol_fill] in H.
  - discriminate.
  - destruct (py_setitem l _ 1) as [l1|e1] eqn:E; cbn [bind] in H.
    + eauto.
    + inversion H; subst. eauto using py_setitem_error.
Qed.

(** The largest exponent is one of the exponents, and bounds them all. *)
Lemma fold_max_spec r : forall x,
  (fold_left Z.max r x = x \/ In (fold_left Z.max r x) r) /\
  x <= fold_left Z.max r x /\
  Forall (fun e => e <= fold_left Z.max r x) r.
Proof.
  induction r as [|y r IH]; intros x; simpl.
  - repeat split; auto. lia.
  - destruct (IH (Z.max x y)) as (H1 & H2 & H3). repeat split.
    + destruct H1 as [H1|H1]; [|auto].
      rewrite H1. destruct (Z.max_spec x y) as [[_ ->]|[_ ->]]; auto.
    + lia.
    + constructor; [lia | exact H3].
Qed.

Lemma py_max_spec l m :
  py_max l = Ok m -> In m l /\ Forall (fun e => e <= m) l.
Proof.
  destruct l as [|x r]; [discriminate|]. cbn [py_max]. intros H.
  inversion H; subst; clear H.
  destruct (fold_max_spec r x) as (H1 & H2 & H3). split.
  - destruct H1 as [->|H1]; [now left | now right].
  - constructor; assumption.
Qed.

Lemma irr_pol_list_inv a ipl :
  wf a -> irr_pol_list_of (length a + 1) (irr_pol a) = Ok ipl ->
  List.length ipl = (length a + 1)%nat /\ Forall bit ipl /\ nth 0 ipl 0 = 1.
Proof.
  intros (_ & _ & _ & Hmax) H. unfold irr_pol_list_of in H.
  destruct (irr_pol_fill_inv _ _ _ _ H) as (HL & HB & _ & HE).
  rewrite length_zeros in *. destruct (py_max_spec _ _ Hmax) as [Hin _].
  repeat split; auto using Forall_bit_zeros.
  specialize (HE _ Hin). replace (Z.to_nat _) with 0%nat in HE by lia.
  apply HE; lia.
Qed.

Lemma irr_pol_list_ok a :
  wf a -> Forall (fun e => 0 <= e) (irr_pol a) ->
  exists ipl, irr_pol_list_of (length a + 1) (irr_pol a) = Ok ipl.
Proof.
  intros (_ & _ & _ & Hmax) Hpos. apply irr_pol_fill_ok; [apply length_zeros|].
  destruct (py_max_spec _ _ Hmax) as [_ Hle].
  rewrite Forall_forall in *. intros e He.
  specialize (Hpos e He). specialize (Hle e He). lia.
Qed.

(** ** The reduction loop *)

Lemma nth_bit l j : Forall bit l -> bit (nth j l 0).
Proof.
  intros H; revert j; induction H as [|x r Hx Hr IH]; intros [|j]; simpl; auto;
    now left.
Qed.

Lemma top_zero_firstn k l :
  (k <= List.length l)%nat -> top_zero k l -> firstn k l = zeros k.
Proof.
  intros Hk Ht. apply nth_ext with (d := 0) (d' := 0).
  - rewrite length_firstn, length_zeros. lia.
  - intros j Hj. rewrite length_firstn in Hj.
    rewrite nth_firstn, nth_zeros.
    replace (Nat.ltb j k) with true by (symmetry; apply Nat.ltb_lt; lia).
    apply Ht. lia.
Qed.

Section Reduction.

Variables (n : nat) (ipl : list Z).
Hypothesis ipl_length : List.length ipl = (n + 1)%nat.
Hypothesis ipl_bits : Forall bit ipl.
Hypothesis ipl_lead : nth 0 ipl 0 = 1.

Lemma length_aligned i : (i < n)%nat -> List.length (aligned n ipl i) = (n * 2)%nat.
Proof.
  intros Hi. unfold aligned. rewrite !length_app, !length_zeros, ipl_length. lia.
Qed.

Lemma Forall_bit_aligned i : Forall bit (aligned n ipl i).
Proof.
  unfold aligned. repeat (apply Forall_app; split); auto using Forall_bit_zeros.
Qed.

Lemma nth_aligned_lt i j : (j < i)%nat -> nth j (aligned n ipl i) 0 = 0.
Proof.
  intros H. unfold aligned. rewrite app_nth1 by (now rewrite length_zeros).
  apply nth_zeros.
Qed.

Lemma nth_aligned_eq i : nth i (aligned n ipl i) 0 = 1.
Proof.
  unfold aligned. rewrite app_nth2 by (rewrite length_zeros; lia).
  rewrite length_zeros, Nat.sub_diag, app_nth1 by lia. exact ipl_lead.
Qed.

Lemma reduce_step_eq ip i :
  List.length ip = (n * 2)%nat -> (i < n)%nat ->
  reduce_step (n * 2) (n + 1) ipl ip i =
  Ok (if nth i ip 0 =? 1 then zip_xor ip (aligned n ipl i) else ip).
Proof.
  intros Hlen Hi. unfold reduce_step.
  destruct (nth i ip 0 =? 1); [|reflexivity].
  fold (aligned n ipl i). rewrite length_aligned, Nat.eqb_refl by assumption.
  cbn [assert bind]. now rewrite xor_into_zip by auto using length_aligned.
Qed.

Lemma reduce_step_shape ip i :
  List.length ip = (n * 2)%nat -> Forall bit ip -> (i < n)%nat -> top_zero i ip ->
  let r := if nth i ip 0 =? 1 then zip_xor ip (aligned n ipl i) else ip in
  List.length r = (n * 2)%nat /\ Forall bit r /\ top_zero (S i) r.
Proof.
  intros Hlen Hb Hi Ht. cbv zeta.
  destruct (Z.eqb_spec (nth i ip 0) 1) as [H1|H1].
  - split; [|split].
    + rewrite length_zip_xor, length_aligned by assumption. lia.
    + apply Forall_bit_zip_xor; auto using Forall_bit_aligned.
    + intros j Hj. rewrite nth_zip_xor by (now rewrite length_aligned).
      destruct (Nat.eq_dec j i) as [->|Hne].
      * now rewrite H1, nth_aligned_eq.
      * rewrite Ht, nth_aligned_lt by lia. reflexivity.
  - split; [assumption|]. split; [assumption|].
    intros j Hj. destruct (Nat.eq_dec j i) as [->|Hne].
    + destruct (nth_bit ip i Hb); congruence.
    + apply Ht. lia.
Qed.

Lemma reduce_loop_shape m : forall k ip,
  List.length ip = (n * 2)%nat -> Forall bit ip -> (k + m <= n)%nat ->
  top_zero k ip ->
  exists r, reduce_loop (n * 2) (n + 1) ipl (seq k m) ip = Ok r /\
            List.length r = (n * 2)%nat /\ Forall bit r /\ top_zero (k + m) r.
Proof.
  induction m as [|m IH]; intros k ip Hlen Hb Hk Ht; cbn [seq reduce_loop].
  - exists ip. rewrite Nat.add_0_r. auto.
  - rewrite reduce_step_eq by (auto; lia). cbn [bind].
    destruct (reduce_step_shape ip k) as (L1 & B1 & T1); auto; try lia.
    destruct (IH (S k) _ L1 B1) as (r & Hr & L2 & B2 & T2); auto; try lia.
    exists r. replace (k + S m)%nat with (S k + m)%nat by lia. auto.
Qed.

End Reduction.

Lemma list_eqb_refl l : list_eqb l l = true.
Proof. unfold list_eqb. destruct (list_eq_dec Z.eq_dec l l); congruence. Qed.

(** What [mult] computes before its assertion, whenever the dense pattern
    could be built. *)
Lemma mult_reduced_inv a b :
  wf a -> wf b -> length a = length b ->
  forall ipl, irr_pol_list_of (length a + 1) (irr_pol a) = Ok ipl ->
  exists r,
    mult_reduced a b = Ok r /\
    reduce_loop (length a * 2) (length a + 1) ipl (seq 0 (length a))
      (intermediate_of (length a * 2) (shifted_vals a b)) = Ok r /\
    List.length r = (length a * 2)%nat /\ Forall bit r /\
    firstn (length a) r = zeros (length a).
Proof.
  intros Ha Hb Hlen ipl Hipl.
  destruct (irr_pol_list_inv a ipl Ha Hipl) as (IL & IB & I0).
  destruct (reduce_loop_shape (length a) ipl IL IB I0 (length a) 0
              (intermediate_of (length a * 2) (shifted_vals a b)))
    as (r & Hr & L & B & T).
  - apply length_intermediate_of.
  - apply Forall_bit_intermediate_of.
  - lia.
  - intros j Hj. lia.
  - exists r. unfold mult_reduced.
    rewrite <- Hlen, Nat.eqb_refl. cbn [assert bind].
    rewrite shifted_vals_check by assumption. cbn [assert bind].
    rewrite Hipl. cbn [bind].
    replace (length a * 2 - length a)%nat with (length a) by lia.
    repeat split; auto. apply top_zero_firstn; [lia | exact T].
Qed.

Lemma mult_of_reduced a b r :
  wf a -> mult_reduced a b = Ok r ->
  firstn (length a) r = zeros (length a) ->
  mult a b = Ok (mkGP (irr_pol a) (length a) (skipn (length a) r)).
Proof.
  intros Ha Hr Hz. unfold mult. rewrite Hr. cbn [bind].
  replace (length a * 2 - length a)%nat with (length a) by lia.
  rewrite Hz, list_eqb_refl. cbn [assert bind].
  rewrite wf_init_zero by assumption. reflexivity.
Qed.

(** When the dense pattern cannot be built, for a negative exponent, [mult]
    stops there, on IndexError. *)
Lemma mult_index_error a b e :
  wf a -> length a = length b ->
  irr_pol_list_of (length a + 1) (irr_pol a) = Raise e ->
  mult_reduced a b = Raise IndexError /\ mult a b = Raise IndexError.
Proof.
  intros Ha Hlen E. pose proof (irr_pol_fill_error _ _ _ _ E) as ->.
  assert (H : mult_reduced a b = Raise IndexError).
  { unfold mult_reduced. rewrite <- Hlen, Nat.eqb_refl. cbn [assert bind].
    rewrite shifted_vals_check by assumption. cbn [assert bind].
    now rewrite E. }
  split; [exact H|]. unfold mult. now rewrite H.
Qed.

(** [mult] on two objects of the same width whose polynomial has no
    negative exponent. *)
Lemma mult_ok a b :
  wf a -> wf b -> length a = length b ->
  Forall (fun e => 0 <= e) (irr_pol a) ->
  exists r, mult_reduced a b = Ok r /\
            List.length r = (length a * 2)%nat /\ Forall bit r /\
            firstn (length a) r = zeros (length a) /\
            mult a b = Ok (mkGP (irr_pol a) (length a) (skipn (length a) r)).
Proof.
  intros Ha Hb Hlen Hpos.
  destruct (irr_pol_list_ok a Ha Hpos) as (ipl & Hipl).
  destruct (mult_reduced_inv a b Ha Hb Hlen ipl Hipl) as (r & Hr & _ & L & B & T).
  exists r. repeat split; auto. now apply mult_of_reduced.
Qed.

Lemma Forall_skipn {A} (P : A -> Prop) k : forall l, Forall P l -> Forall P (skipn k l).
Proof.
  induction k as [|k IH]; intros l H; [exact H|].
  destruct H; simpl; [constructor | now apply IH].
Qed.

Lemma mult_wf a b c :
  wf a -> wf b -> length a = length b -> mult a b = Ok c ->
  wf c /\ length c = length a /\ irr_pol c = irr_pol a.
Proof.
  intros Ha Hb Hlen H.
  destruct (irr_pol_list_of (length a + 1) (irr_pol a)) as [ipl|e] eqn:E.
  - destruct (mult_reduced_inv a b Ha Hb Hlen ipl E) as (r & Hr & _ & L & B & T).
    rewrite (mult_of_reduced a b r Ha Hr T) in H. inversion H; subst; clear H.
    unfold wf. cbn [bits length irr_pol].
    destruct Ha as (La & Ba & Na & Ma). repeat split; auto.
    + rewrite length_skipn. lia.
    + now apply Forall_skipn.
  - destruct (mult_index_error a b e Ha Hlen E) as [_ Hm]. congruence.
Qed.

(** ** Values of bit lists *)

Lemma bit_b2z x : bit x -> x = Z.b2z (x =? 1).
Proof. intros [->| ->]; reflexivity. Qed.

Lemma bin_value_app l1 l2 :
  bin_value (l1 ++ l2) = bin_value l1 * 2 ^ Z.of_nat (List.length l2) + bin_value l2.
Proof.
  induction l2 as [|x l2 IH] using rev_ind.
  - rewrite app_nil_r. simpl. change (bin_value []) with 0. lia.
  - rewrite app_assoc, !bin_value_snoc, IH, length_app. simpl List.length.
    replace (Z.of_nat (List.length l2 + 1)) with (Z.succ (Z.of_nat (List.length l2))) by lia.
    rewrite Z.pow_succ_r by lia. ring.
Qed.

(** Bit [m] of the value is the entry [m] places from the right. *)
Lemma testbit_bin_value l : Forall bit l -> forall m, 0 <= m ->
  Z.testbit (bin_value l) m =
  if m <? Z.of_nat (List.length l)
  then nth (List.length l - 1 - Z.to_nat m) l 0 =? 1 else false.
Proof.
  induction l as [|x l IH] using rev_ind; intros Hb m Hm.
  - change (bin_value []) with 0. rewrite Z.testbit_0_l. simpl.
    now destruct (m <? 0).
  - apply Forall_app in Hb. destruct Hb as [Hl Hx].
    inversion Hx as [|? ? Hx' _]; subst.
    rewrite bin_value_snoc, length_app. simpl List.length.
    rewrite (bit_b2z x Hx'), Z.add_comm.
    destruct (Z.eq_dec m 0) as [->|Hnz].
    + rewrite Z.add_comm, Z.testbit_0_r.
      replace (0 <? Z.of_nat (List.length l + 1)) with true by (symmetry; apply Z.ltb_lt; lia).
      replace (List.length l + 1 - 1 - Z.to_nat 0)%nat with (List.length l) by lia.
      rewrite app_nth2, Nat.sub_diag by lia. simpl.
      now rewrite <- (bit_b2z x Hx').
    + replace m with (Z.succ (m - 1)) at 1 by lia.
      rewrite Z.add_comm, Z.testbit_succ_r by lia.
      rewrite IH by (auto; lia).
      destruct (Z.ltb_spec (m - 1) (Z.of_nat (List.length l))),
               (Z.ltb_spec m (Z.of_nat (List.length l + 1))); try lia; auto.
      rewrite app_nth1 by lia. f_equal. f_equal. lia.
Qed.

Lemma eqb1_lxor x y : bit x -> bit y -> (Z.lxor x y =? 1) = xorb (x =? 1) (y =? 1).
Proof. intros [->| ->] [->| ->]; reflexivity. Qed.

Lemma bin_value_zip_xor a b :
  List.length a = List.length b -> Forall bit a -> Forall bit b ->
  bin_value (zip_xor a b) = Z.lxor (bin_value a) (bin_value b).
Proof.
  intros Hlen Ha Hb. apply Z.bits_inj'. intros m Hm.
  rewrite Z.lxor_spec, !testbit_bin_value by auto using Forall_bit_zip_xor.
  rewrite length_zip_xor, <- Hlen, Nat.min_id.
  destruct (m <? Z.of_nat (List.length a)); [|reflexivity].
  rewrite nth_zip_xor by assumption.
  apply eqb1_lxor; now apply nth_bit.
Qed.

Lemma nth_eqb1_testbit l i :
  Forall bit l -> (i < List.length l)%nat ->
  (nth i l 0 =? 1) = Z.testbit (bin_value l) (Z.of_nat (List.length l - 1 - i)).
Proof.
  intros Hb Hi. rewrite testbit_bin_value by (auto; lia).
  replace (_ <? _) with true by (symmetry; apply Z.ltb_lt; lia).
  f_equal. f_equal. lia.
Qed.

Lemma bin_value_list_set l i :
  Forall bit l -> (i < List.length l)%nat ->
  bin_value (list_set l i 1)
  = Z.setbit (bin_value l) (Z.of_nat (List.length l - 1 - i)).
Proof.
  intros Hb Hi. apply Z.bits_inj'. intros m Hm.
  rewrite Z.setbit_eqb by lia.
  assert (Hb' : Forall bit (list_set l i 1)) by (apply Forall_bit_list_set; auto; now right).
  rewrite !testbit_bin_value by auto. rewrite length_list_set.
  destruct (Z.ltb_spec m (Z.of_nat (List.length l))) as [Hlt|Hge].
  - rewrite nth_list_set.
    replace (Nat.ltb i (List.length l)) with true by (symmetry; apply Nat.ltb_lt; lia).
    rewrite andb_true_r.
    destruct (Nat.eqb_spec i (List.length l - 1 - Z.to_nat m)) as [E|E].
    + replace (_ =? m) with true by (symmetry; apply Z.eqb_eq; lia). reflexivity.
    + replace (_ =? m) with false by (symmetry; apply Z.eqb_neq; lia). reflexivity.
  - replace (_ =? m) with false by (symmetry; apply Z.eqb_neq; lia). reflexivity.
Qed.

(** *** The dense pattern is the polynomial *)

Lemma irr_pol_fill_value L irr : forall l l',
  List.length l = L -> Forall bit l ->
  Forall (fun e => 0 <= e <= Z.of_nat L - 1) irr ->
  irr_pol_fill L irr l = Ok l' ->
  bin_value l' = fold_left (fun acc e => Z.setbit acc e) irr (bin_value l).
Proof.
  induction irr as [|e rest IH]; intros l l' Hl Hb Hirr H; cbn [irr_pol_fill] in H.
  - now inversion H.
  - inversion Hirr as [|? ? He Hrest]; subst.
    rewrite py_setitem_ok in H by lia. cbn [bind] in H.
    rewrite (IH _ _ (length_list_set _ _ _)
               (Forall_bit_list_set _ _ _ Hb (or_intror eq_refl)) Hrest H).
    cbn [fold_left]. rewrite bin_value_list_set by (auto; lia).
    do 2 f_equal. lia.
Qed.

Lemma irr_pol_list_value a ipl :
  wf a -> Forall (fun e => 0 <= e) (irr_pol a) ->
  irr_pol_list_of (length a + 1) (irr_pol a) = Ok ipl ->
  bin_value ipl = GF2.of_exponents (irr_pol a).
Proof.
  intros (_ & _ & _ & Hmax) Hpos H. unfold irr_pol_list_of in H.
  rewrite (irr_pol_fill_value _ _ _ _ (length_zeros _) (Forall_bit_zeros _)) with (2 := H).
  - now rewrite bin_value_zeros.
  - destruct (py_max_spec _ _ Hmax) as [_ Hle].
    rewrite Forall_forall in *. intros e He.
    specialize (Hpos e He). specialize (Hle e He). lia.
Qed.

(** *** The column sums are the carry-less product *)

Lemma fold_sum_shift (g : list Z -> Z) svs : forall x,
  fold_left (fun sum sv => sum + g sv) svs x
  = x + fold_left (fun sum sv => sum + g sv) svs 0.
Proof.
  induction svs as [|sv svs IH]; intros x; simpl; [lia|].
  rewrite IH, (IH (g sv)). lia.
Qed.

Lemma add_mod2_lxor x s : bit x -> (x + s) mod 2 = Z.lxor x (s mod 2).
Proof.
  intros Hx. pose proof (Z.mod_pos_bound s 2 ltac:(lia)) as Hs.
  rewrite Z.add_mod by lia.
  assert (Hc : s mod 2 = 0 \/ s mod 2 = 1) by lia.
  destruct Hx as [->| ->], Hc as [->| ->]; reflexivity.
Qed.

Lemma nth_map_seq (f : nat -> Z) L j :
  (j < L)%nat -> nth j (map f (seq 0 L)) 0 = f j.
Proof.
  intros Hj. rewrite (nth_indep _ 0 (f 0%nat)) by (now rewrite length_map, length_seq).
  rewrite (map_nth f), seq_nth by assumption. reflexivity.
Qed.

Lemma intermediate_of_cons L sv svs :
  List.length sv = L -> Forall bit sv ->
  intermediate_of L (sv :: svs) = zip_xor sv (intermediate_of L svs).
Proof.
  intros Hl Hb. apply nth_ext with (d := 0) (d' := 0).
  - rewrite length_zip_xor, !length_intermediate_of. lia.
  - intros j Hj. rewrite length_intermediate_of in Hj.
    rewrite nth_zip_xor by (now rewrite length_intermediate_of).
    unfold intermediate_of. rewrite !nth_map_seq by assumption. cbn [fold_left Z.add].
    rewrite (fold_sum_shift (fun sv0 => nth j sv0 0)).
    apply add_mod2_lxor. now apply nth_bit.
Qed.

Lemma intermediate_of_nil L : intermediate_of L [] = zeros L.
Proof.
  apply nth_ext with (d := 0) (d' := 0).
  - now rewrite length_intermediate_of, length_zeros.
  - intros j Hj. rewrite length_intermediate_of in Hj.
    unfold intermediate_of. rewrite nth_map_seq, nth_zeros by assumption.
    reflexivity.
Qed.

Lemma bin_value_intermediate L svs :
  Forall (fun sv => List.length sv = L /\ Forall bit sv) svs ->
  bin_value (intermediate_of L svs) = xor_all (map bin_value svs).
Proof.
  induction 1 as [|sv svs [Hl Hb] Hrest IH].
  - now rewrite intermediate_of_nil, bin_value_zeros.
  - rewrite intermediate_of_cons, bin_value_zip_xor, IH;
      auto using Forall_bit_intermediate_of.
    now rewrite length_intermediate_of.
Qed.

Lemma mul_double a b : 0 <= b -> GF2.mul a (2 * b) = 2 * GF2.mul a b.
Proof. intros Hb. destruct b as [|p|p]; try reflexivity; lia. Qed.

Lemma mul_double_1 a b :
  0 <= b -> GF2.mul a (2 * b + 1) = Z.lxor a (2 * GF2.mul a b).
Proof.
  intros Hb. destruct b as [|p|p]; try lia.
  - simpl. now rewrite Z.lxor_0_r.
  - reflexivity.
Qed.

Lemma double_lxor x y : 2 * Z.lxor x y = Z.lxor (2 * x) (2 * y).
Proof.
  rewrite !(Z.mul_comm 2). change 2 with (2 ^ 1).
  rewrite <- !Z.shiftl_mul_pow2 by lia. apply Z.shiftl_lxor.
Qed.

Lemma bin_value_shifted k l s :
  bin_value (zeros k ++ l ++ zeros s) = bin_value l * 2 ^ Z.of_nat s.
Proof.
  rewrite !bin_value_app, !bin_value_zeros, length_zeros, length_app. lia.
Qed.

Lemma shifted_vals_terms a b :
  xor_all (map bin_value (shifted_vals a b))
  = xor_all (map (term (bin_value (bits a)) (bits b) (length a))
                 (seq 0 (length a))).
Proof.
  unfold shifted_vals. generalize (seq 0 (length a)) as l.
  induction l as [|s l IH]; [reflexivity|].
  cbn [flat_map map]. rewrite map_app. unfold xor_all in *.
  rewrite fold_right_app, IH. unfold term at 2.
  destruct (nth (length a - 1 - s) (bits b) 0 =? 1); cbn [map fold_right app].
  - now rewrite bin_value_shifted.
  - now rewrite Z.lxor_0_l.
Qed.

Lemma xor_all_double (t : nat -> Z) l :
  xor_all (map (fun s => 2 * t s) l) = 2 * xor_all (map t l).
Proof.
  unfold xor_all. induction l as [|s l IH]; cbn [map fold_right]; [reflexivity|].
  now rewrite IH, double_lxor.
Qed.

Lemma terms_mul A bs :
  Forall bit bs ->
  xor_all (map (term A bs (List.length bs)) (seq 0 (List.length bs)))
  = GF2.mul A (bin_value bs).
Proof.
  induction bs as [|c bs IH] using rev_ind; intros Hb; [reflexivity|].
  apply Forall_app in Hb. destruct Hb as [Hbs Hc].
  inversion Hc as [|? ? Hc' _]; subst.
  rewrite length_app, Nat.add_comm. cbn [List.length Nat.add seq map].
  rewrite <- seq_shift, map_map.
  rewrite (map_ext_in _ (fun s => 2 * term A bs (List.length bs) s)).
  - change (xor_all (?x :: ?l)) with (Z.lxor x (xor_all l)).
    rewrite xor_all_double, IH, bin_value_snoc by assumption.
    pose proof (bin_value_bound bs Hbs) as HB.
    unfold term. replace (S (List.length bs) - 1 - 0)%nat with (List.length bs) by lia.
    rewrite app_nth2, Nat.sub_diag by lia. cbn [nth].
    destruct Hc' as [->| ->]; cbn [Z.eqb Z.of_nat Z.pow].
    + rewrite Z.lxor_0_l, Z.add_0_r. symmetry. apply mul_double. lia.
    + rewrite Z.mul_1_r. symmetry. apply mul_double_1. lia.
  - intros s Hs. apply in_seq in Hs. unfold term.
    replace (S (List.length bs) - 1 - S s)%nat with (List.length bs - 1 - s)%nat by lia.
    rewrite app_nth1 by lia.
    destruct (nth _ bs 0 =? 1); [|reflexivity].
    rewrite Nat2Z.inj_succ, Z.pow_succ_r by lia. ring.
Qed.

(** The double-width intermediate of [mult] is the GF(2) product. *)
Lemma intermediate_value a b :
  wf a -> wf b -> length a = length b ->
  bin_value (intermediate_of (length a * 2) (shifted_vals a b))
  = GF2.mul (bin_value (bits a)) (bin_value (bits b)).
Proof.
  intros Ha Hb Hlen. rewrite bin_value_intermediate.
  - rewrite shifted_vals_terms. destruct Hb as (Lb & Bb & _).
    rewrite Hlen, <- Lb. now apply terms_mul.
  - apply Forall_forall. intros sv Hin. now apply (shifted_vals_shape a b).
Qed.

(** *** The reduction loop is long division *)

Section ReductionValue.

Variables (n : nat) (ipl : list Z).
Hypothesis ipl_length : List.length ipl = (n + 1)%nat.
Hypothesis ipl_bits : Forall bit ipl.
Hypothesis ipl_lead : nth 0 ipl 0 = 1.

Lemma bin_value_aligned i :
  (i < n)%nat ->
  bin_value (aligned n ipl i) = Z.shiftl (bin_value ipl) (Z.of_nat (n - 1 - i)).
Proof.
  intros Hi. unfold aligned. rewrite bin_value_shifted, Z.shiftl_mul_pow2 by lia.
  do 3 f_equal. lia.
Qed.

Lemma reduce_loop_value k : forall ip,
  (k <= n)%nat -> List.length ip = (n * 2)%nat -> Forall bit ip ->
  top_zero (n - k) ip ->
  exists r, reduce_loop (n * 2) (n + 1) ipl (seq (n - k) k) ip = Ok r /\
            bin_value r = GF2.reduce k (Z.of_nat n) (bin_value ipl) (bin_value ip).
Proof.
  induction k as [|k IH]; intros ip Hk Hlen Hb Ht; cbn [seq reduce_loop GF2.reduce].
  - eauto.
  - rewrite (reduce_step_eq n ipl ipl_length) by (auto; lia). cbn [bind].
    destruct (reduce_step_shape n ipl ipl_length ipl_bits ipl_lead ip (n - S k))
      as (L1 & B1 & T1); auto; try lia.
    replace (S (n - S k)) with (n - k)%nat in * by lia.
    destruct (IH _ ltac:(lia) L1 B1 T1) as (r & Hr & Hv).
    exists r. split; [exact Hr|]. rewrite Hv. f_equal.
    rewrite nth_eqb1_testbit by (auto; lia).
    replace (Z.of_nat (List.length ip - 1 - (n - S k))) with (Z.of_nat n + Z.of_nat k) by lia.
    destruct (Z.testbit (bin_value ip) (Z.of_nat n + Z.of_nat k)); [|reflexivity].
    rewrite bin_value_zip_xor, bin_value_aligned; auto; try lia.
    + do 3 f_equal. lia.
    + rewrite (length_aligned n ipl ipl_length); lia.
    + now apply Forall_bit_aligned.
Qed.

End ReductionValue.

Lemma bin_value_skipn_zeros k l :
  firstn k l = zeros k -> bin_value (skipn k l) = bin_value l.
Proof.
  intros H. rewrite <- (firstn_skipn k l) at 2.
  now rewrite H, bin_value_app, bin_value_zeros.
Qed.

(** [mult] computes the product of GF(2)[x] reduced modulo the configured
    polynomial. *)
Lemma mult_value a b :
  wf a -> wf b -> length a = length b ->
  Forall (fun e => 0 <= e) (irr_pol a) ->
  exists c, mult a b = Ok c /\ wf c /\ length c = length a /\
            irr_pol c = irr_pol a /\
            bin_value (bits c)
            = GF2.mulmod (length a) (GF2.of_exponents (irr_pol a))
                (bin_value (bits a)) (bin_value (bits b)).
Proof.
  intros Ha Hb Hlen Hpos.
  destruct (irr_pol_list_ok a Ha Hpos) as (ipl & Hipl).
  destruct (irr_pol_list_inv a ipl Ha Hipl) as (IL & IB & I0).
  destruct (mult_reduced_inv a b Ha Hb Hlen ipl Hipl) as (r & Hr & Hloop & L & B & T).
  pose proof (mult_of_reduced a b r Ha Hr T) as Hm.
  destruct (mult_wf a b _ Ha Hb Hlen Hm) as (Wc & Lc & Ic).
  eexists. split; [exact Hm|].
  split; [exact Wc|]. split; [exact Lc|]. split; [exact Ic|].
  cbn [bits]. rewrite bin_value_skipn_zeros by assumption.
  destruct (reduce_loop_value (length a) ipl IL IB I0 (length a)
              (intermediate_of (length a * 2) (shifted_vals a b)))
    as (r' & Hr' & Hv); auto.
  - apply length_intermediate_of.
  - apply Forall_bit_intermediate_of.
  - intros j Hj. lia.
  - rewrite Nat.sub_diag in Hr'. assert (r' = r) by congruence. subst r'.
    rewrite Hv, intermediate_value, (irr_pol_list_value a ipl) by assumption.
    reflexivity.
Qed.

(** ** GF(2)[x] *)

Lemma lt_pow2_bits x k :
  0 <= x -> 0 <= k ->
  (x < 2 ^ k <-> forall m, k <= m -> Z.testbit x m = false).
Proof.
  intros Hx Hk. split.
  - intros Hlt m Hm. destruct (Z.eq_dec x 0) as [->|Hnz].
    + apply Z.testbit_0_l.
    + apply Z.bits_above_log2; [lia|].
      apply Z.log2_lt_pow2 in Hlt; lia.
  - intros Hbits. destruct (Z.eq_dec x 0) as [->|Hnz].
    + apply Z.pow_pos_nonneg; lia.
    + apply Z.log2_lt_pow2; [lia|].
      destruct (Z_lt_le_dec (Z.log2 x) k) as [|Hge]; [assumption|].
      specialize (Hbits _ Hge). rewrite Z.bit_log2 in Hbits by lia. discriminate.
Qed.

Lemma lxor_low (ca cb : bool) a b :
  Z.lxor (2 * a + Z.b2z ca) (2 * b + Z.b2z cb)
  = 2 * Z.lxor a b + Z.b2z (xorb ca cb).
Proof.
  apply Z.bits_inj'. intros m Hm. rewrite Z.lxor_spec.
  destruct (Z.eq_dec m 0) as [->|Hnz].
  - now rewrite !Z.testbit_0_r.
  - replace m with (Z.succ (m - 1)) by lia.
    rewrite !Z.testbit_succ_r, Z.lxor_spec by lia. reflexivity.
Qed.

Lemma mul_low p (c : bool) a :
  0 <= a ->
  GF2.mul p (2 * a + Z.b2z c) = Z.lxor (if c then p else 0) (2 * GF2.mul p a).
Proof.
  intros Ha. destruct c; cbn [Z.b2z].
  - now apply mul_double_1.
  - rewrite Z.add_0_r, Z.lxor_0_l. now apply mul_double.
Qed.

Lemma mul_0_r p : GF2.mul p 0 = 0.
Proof. reflexivity. Qed.

(** The product is linear in its right operand. *)
Lemma mul_lxor_r p : forall (k : nat) a b,
  0 <= a < 2 ^ Z.of_nat k -> 0 <= b < 2 ^ Z.of_nat k ->
  GF2.mul p (Z.lxor a b) = Z.lxor (GF2.mul p a) (GF2.mul p b).
Proof.
  induction k as [|k IH]; intros a b Ha Hb.
  - simpl in Ha, Hb. assert (a = 0) by lia. assert (b = 0) by lia. subst.
    reflexivity.
  - rewrite Nat2Z.inj_succ, Z.pow_succ_r in Ha, Hb by lia.
    rewrite (Z.div2_odd a), (Z.div2_odd b).
    assert (Ha' : 0 <= Z.div2 a < 2 ^ Z.of_nat k)
      by (rewrite Z.div2_div; split; [apply Z.div_pos | apply Z.div_lt_upper_bound]; lia).
    assert (Hb' : 0 <= Z.div2 b < 2 ^ Z.of_nat k)
      by (rewrite Z.div2_div; split; [apply Z.div_pos | apply Z.div_lt_upper_bound]; lia).
    rewrite lxor_low, !mul_low, IH, double_lxor by (auto; try lia; apply Z.lxor_nonneg; lia).
    apply Z.bits_inj'. intros m Hm. rewrite !Z.lxor_spec.
    destruct (Z.odd a), (Z.odd b); cbn [xorb];
      rewrite ?Z.testbit_0_l;
      destruct (Z.testbit p m), (Z.testbit (2 * GF2.mul p (Z.div2 a)) m),
               (Z.testbit (2 * GF2.mul p (Z.div2 b)) m); reflexivity.
Qed.

Lemma pow2_bound a : 0 <= a -> exists k : nat, a < 2 ^ Z.of_nat k.
Proof.
  intros Ha. exists (Z.to_nat a). rewrite Z2Nat.id by lia.
  apply Z.pow_gt_lin_r; lia.
Qed.

Lemma mul_lxor p a b :
  0 <= a -> 0 <= b ->
  GF2.mul p (Z.lxor a b) = Z.lxor (GF2.mul p a) (GF2.mul p b).
Proof.
  intros Ha Hb.
  destruct (pow2_bound (Z.max a b) ltac:(lia)) as (k & Hk).
  apply (mul_lxor_r p k); lia.
Qed.

Lemma mul_pow2 p (k : nat) : GF2.mul p (2 ^ Z.of_nat k) = Z.shiftl p (Z.of_nat k).
Proof.
  induction k as [|k IH].
  - cbn [Z.of_nat]. rewrite Z.shiftl_0_r. reflexivity.
  - rewrite Nat2Z.inj_succ, Z.pow_succ_r, mul_double, IH by (try apply Z.pow_nonneg; lia).
    rewrite !Z.shiftl_mul_pow2, Z.pow_succ_r by lia. ring.
Qed.

Lemma mul_pos_degree p q :
  0 < p -> 0 < GF2.mul_pos p q /\
           Z.log2 (GF2.mul_pos p q) = Z.log2 p + Z.log2 (Zpos q).
Proof.
  intros Hp. induction q as [q [IH1 IH2]|q [IH1 IH2]|]; cbn [GF2.mul_pos].
  - assert (Hd : Z.log2 (2 * GF2.mul_pos p q) = Z.succ (Z.log2 (GF2.mul_pos p q)))
      by (apply Z.log2_double; lia).
    assert (Hl : Z.log2 (Z.lxor p (2 * GF2.mul_pos p q)) = Z.log2 (2 * GF2.mul_pos p q)).
    { apply Z.log2_bits_unique.
      - rewrite Z.lxor_spec, Z.bit_log2 by lia.
        rewrite Z.bits_above_log2; [reflexivity | lia |].
        rewrite Hd, IH2. pose proof (Z.log2_nonneg (Z.pos q)). lia.
      - intros m Hm. rewrite Z.lxor_spec, !Z.bits_above_log2; try reflexivity; try lia.
        rewrite Hd, IH2 in Hm. pose proof (Z.log2_nonneg (Z.pos q)). lia. }
    split.
    + assert (0 <= Z.lxor p (2 * GF2.mul_pos p q)) by (apply Z.lxor_nonneg; lia).
      assert (Z.lxor p (2 * GF2.mul_pos p q) <> 0); [|lia].
      intros E. rewrite E in Hl. change (Z.log2 0) with 0 in Hl.
      pose proof (Z.log2_nonneg (GF2.mul_pos p q)). lia.
    + rewrite Hl, Hd, IH2. change (Z.pos q~1) with (2 * Z.pos q + 1).
      rewrite Z.log2_succ_double by lia. lia.
  - split; [lia|]. change (Z.pos q~0) with (2 * Z.pos q).
    rewrite !Z.log2_double by lia. lia.
  - split; [lia|]. simpl. lia.
Qed.

Lemma mul_degree p q :
  0 < p -> 0 < q -> 2 ^ (Z.log2 p) <= GF2.mul p q.
Proof.
  intros Hp Hq. destruct q as [|q|q]; try lia. cbn [GF2.mul].
  destruct (mul_pos_degree p q Hp) as [H1 H2].
  apply Z.log2_le_pow2; [lia|]. rewrite H2.
  pose proof (Z.log2_nonneg (Z.pos q)). lia.
Qed.

Lemma mul_0_l q : GF2.mul 0 q = 0.
Proof.
  destruct q as [|q|q]; try reflexivity. cbn [GF2.mul].
  induction q as [q IH|q IH|]; cbn [GF2.mul_pos]; rewrite ?IH; reflexivity.
Qed.

Lemma mul_bound (n : nat) a b :
  0 <= a < 2 ^ Z.of_nat n -> 0 <= b < 2 ^ Z.of_nat n ->
  0 <= GF2.mul a b < 2 ^ (Z.of_nat n + Z.of_nat n).
Proof.
  intros Ha Hb.
  assert (H0 : 0 < 2 ^ (Z.of_nat n + Z.of_nat n)) by (apply Z.pow_pos_nonneg; lia).
  destruct (Z.eq_dec a 0) as [->|Hna]; [rewrite mul_0_l; lia|].
  destruct b as [|q|q]; try (cbn [GF2.mul]; lia).
  cbn [GF2.mul]. destruct (mul_pos_degree a q ltac:(lia)) as [H1 H2].
  split; [lia|]. apply Z.log2_lt_pow2; [lia|]. rewrite H2.
  assert (Z.log2 a < Z.of_nat n) by (apply Z.log2_lt_pow2; lia).
  assert (Z.log2 (Z.pos q) < Z.of_nat n) by (apply Z.log2_lt_pow2; lia).
  lia.
Qed.

Section Division.

Variables (n : nat) (p : Z).
Hypothesis p_degree : 2 ^ Z.of_nat n <= p < 2 ^ (Z.of_nat n + 1).

Lemma p_pos : 0 < p.
Proof. assert (0 < 2 ^ Z.of_nat n) by (apply Z.pow_pos_nonneg; lia). lia. Qed.

Lemma p_log2 : Z.log2 p = Z.of_nat n.
Proof. apply Z.log2_unique; [lia|]. now rewrite <- Z.add_1_r. Qed.

(** The remainder is unique. *)
Lemma remainder_unique v r1 r2 :
  remainder n p v r1 -> remainder n p v r2 -> r1 = r2.
Proof.
  intros (B1 & q1 & Q1 & E1) (B2 & q2 & Q2 & E2).
  assert (Hx : GF2.mul p (Z.lxor q1 q2) = Z.lxor r1 r2).
  { rewrite mul_lxor by assumption. rewrite E1 in E2.
    apply Z.bits_inj'. intros m Hm.
    apply (f_equal (fun z => Z.testbit z m)) in E2.
    rewrite !Z.lxor_spec in *.
    destruct (Z.testbit (GF2.mul p q1) m), (Z.testbit (GF2.mul p q2) m),
             (Z.testbit r1 m), (Z.testbit r2 m); cbn in *; congruence. }
  assert (Hq : 0 <= Z.lxor q1 q2) by (apply Z.lxor_nonneg; lia).
  assert (Hr : 0 <= Z.lxor r1 r2 < 2 ^ Z.of_nat n).
  { split; [apply Z.lxor_nonneg; lia|].
    apply lt_pow2_bits; [apply Z.lxor_nonneg; lia | lia |].
    intros m Hm. rewrite Z.lxor_spec.
    rewrite (proj1 (lt_pow2_bits r1 (Z.of_nat n) ltac:(lia) ltac:(lia)) ltac:(lia) m Hm).
    rewrite (proj1 (lt_pow2_bits r2 (Z.of_nat n) ltac:(lia) ltac:(lia)) ltac:(lia) m Hm).
    reflexivity. }
  destruct (Z.eq_dec (Z.lxor q1 q2) 0) as [E0|Hnz].
  - rewrite E0, mul_0_r in Hx. symmetry in Hx. now apply Z.lxor_eq.
  - pose proof (mul_degree p (Z.lxor q1 q2) p_pos ltac:(lia)) as Hd.
    rewrite p_log2 in Hd. lia.
Qed.

(** Long division leaves the remainder. *)
Lemma reduce_remainder k : forall v,
  0 <= v < 2 ^ (Z.of_nat n + Z.of_nat k) ->
  remainder n p v (GF2.reduce k (Z.of_nat n) p v).
Proof.
  induction k as [|k IH]; intros v Hv; cbn [GF2.reduce].
  - rewrite Z.add_0_r in Hv. split; [exact Hv|]. exists 0. split; [lia|].
    now rewrite mul_0_r, Z.lxor_0_l.
  - set (v' := if Z.testbit v (Z.of_nat n + Z.of_nat k)
               then Z.lxor v (Z.shiftl p (Z.of_nat k)) else v).
    assert (Hs : 0 <= Z.shiftl p (Z.of_nat k))
      by (apply Z.shiftl_nonneg; pose proof p_pos; lia).
    assert (Hv' : 0 <= v' < 2 ^ (Z.of_nat n + Z.of_nat k)).
    { assert (Hnn : 0 <= v') by (unfold v'; destruct (Z.testbit v _); [apply Z.lxor_nonneg|]; lia).
      split; [exact Hnn|]. apply lt_pow2_bits; [exact Hnn | lia |].
      intros m Hm.
      assert (Hhi : forall j, Z.of_nat n + Z.of_nat (S k) <= j -> Z.testbit v j = false)
        by (apply lt_pow2_bits; lia).
      unfold v'. destruct (Z.testbit v (Z.of_nat n + Z.of_nat k)) eqn:Eb.
      - rewrite Z.lxor_spec, Z.shiftl_spec by lia.
        destruct (Z.eq_dec m (Z.of_nat n + Z.of_nat k)) as [->|Hne].
        + rewrite Eb. replace (Z.of_nat n + Z.of_nat k - Z.of_nat k) with (Z.log2 p)
            by (rewrite p_log2; lia).
          now rewrite Z.bit_log2 by apply p_pos.
        + rewrite Hhi by lia.
          rewrite Z.bits_above_log2; [reflexivity | pose proof p_pos; lia |].
          rewrite p_log2. lia.
      - destruct (Z.eq_dec m (Z.of_nat n + Z.of_nat k)) as [->|Hne]; [exact Eb|].
        apply Hhi. lia. }
    destruct (IH v' Hv') as (B & q & Q & E).
    split; [exact B|].
    unfold v' in E. destruct (Z.testbit v (Z.of_nat n + Z.of_nat k)).
    + exists (Z.lxor q (2 ^ Z.of_nat k)). split.
      * apply Z.lxor_nonneg. assert (0 <= 2 ^ Z.of_nat k) by (apply Z.pow_nonneg; lia). lia.
      * rewrite mul_lxor, mul_pow2 by (try apply Z.pow_nonneg; lia).
        apply Z.bits_inj'. intros m Hm.
        apply (f_equal (fun z => Z.testbit z m)) in E.
        rewrite !Z.lxor_spec in *.
        destruct (Z.testbit v m), (Z.testbit (Z.shiftl p (Z.of_nat k)) m),
                 (Z.testbit (GF2.mul p q) m),
                 (Z.testbit (GF2.reduce k (Z.of_nat n) p _) m);
          cbn in *; congruence.
    + exists q. auto.
Qed.

(** The product of GF(2^n): the remainder of the GF(2)[x] product. *)
Lemma mulmod_remainder a b :
  0 <= a < 2 ^ Z.of_nat n -> 0 <= b < 2 ^ Z.of_nat n ->
  remainder n p (GF2.mul a b) (GF2.mulmod n p a b).
Proof.
  intros Ha Hb. unfold GF2.mulmod. apply reduce_remainder.
  now apply mul_bound.
Qed.

End Division.

(** ** Properties of the field engine *)

Lemma forallb_is_bit l : Forall bit l -> forallb is_bit l = true.
Proof.
  intros H. apply forallb_forall. intros x Hx.
  rewrite Forall_forall in H. destruct (H x Hx) as [->| ->]; reflexivity.
Qed.

Lemma intval_ok e :
  wf e -> (0 < length e)%nat ->
  intval e = Ok (bin_value (bits e)) /\
  0 <= bin_value (bits e) < 2 ^ Z.of_nat (length e).
Proof.
  intros (L & B & _) Hn. split.
  - unfold intval. destruct (bits e) as [|x r] eqn:E; [simpl in L; lia|].
    now rewrite forallb_is_bit.
  - rewrite <- L. now apply bin_value_bound.
Qed.

Lemma table_nonneg n p :
  irreducible_polynomials n = Some p -> Forall (fun e => 0 <= e) p.
Proof.
  unfold irreducible_polynomials.
  repeat match goal with
         | |- context [Nat.eqb n ?k] => destruct (Nat.eqb_spec n k) as [->|?]
         end; intros H; inversion H; subst;
    repeat constructor; lia.
Qed.

Lemma xor_same_length a b c : xor a b = Ok c -> length a = length b.
Proof.
  unfold xor. destruct (Nat.eqb_spec (length a) (length b)); [auto|discriminate].
Qed.

Lemma mult_same_length a b c : mult a b = Ok c -> length a = length b.
Proof.
  unfold mult, mult_reduced.
  destruct (Nat.eqb_spec (length a) (length b)); [auto|discriminate].
Qed.

Lemma supported_width_table n :
  supported_width n ->
  (0 < n)%nat /\
  exists p, irreducible_polynomials n = Some p /\
            Forall (fun e => 0 <= e) p /\
            2 ^ Z.of_nat n <= GF2.of_exponents p < 2 ^ (Z.of_nat n + 1).
Proof.
  intros [->|[->|[->|[->| ->]]]]; (split; [lia|]); eexists;
    (split; [reflexivity|]); (split; [repeat constructor; lia|]);
    vm_compute; split; congruence.
Qed.

Lemma init_overflow_default n v :
  supported_width n -> 2 ^ Z.of_nat n <= v ->
  __init__ n v [] = Raise AssertionError.
Proof.
  intros Hn Hv. destruct (supported_width_table n Hn) as (_ & p & Hp & _ & _).
  destruct (table_max n p Hp) as [_ Hmax].
  assert (0 < 2 ^ Z.of_nat n) by (apply Z.pow_pos_nonneg; lia).
  unfold __init__. rewrite Hp. cbn [bind].
  replace (0 <=? v) with true by (symmetry; apply Z.leb_le; lia).
  cbn [assert bind]. rewrite Hmax. cbn [bind]. rewrite Z.eqb_refl. cbn [assert bind].
  now rewrite init_loop_overflow.
Qed.

Lemma intval_init p n v :
  (0 < n)%nat -> 0 <= v < 2 ^ Z.of_nat n ->
  intval (mkGP p n (bits_of n v)) = Ok v.
Proof.
  intros Hn Hv. unfold intval. cbn [bits].
  destruct (bits_of n v) as [|x r] eqn:E.
  - pose proof (length_bits_of n v) as L. rewrite E in L. simpl in L. lia.
  - rewrite <- E, forallb_is_bit by apply Forall_bit_bits_of.
    now rewrite bin_value_bits_of_small.
Qed.

(** C7. Constructing a field element of a supported width [n] from an
    integer [v] with [0 <= v < 2^n] succeeds, and [intval] gives [v] back;
    from [v >= 2^n] the constructor fails, on its assertion [i >= 0]. *)
Theorem init_intval_inverse (n : nat) (v : Z) :
  supported_width n ->
  (0 <= v < 2 ^ Z.of_nat n ->
   exists e, __init__ n v [] = Ok e /\ length e = n /\ intval e = Ok v) /\
  (2 ^ Z.of_nat n <= v -> __init__ n v [] = Raise AssertionError).
Proof.
  intros Hn. destruct (supported_width_table n Hn) as (Hpos & p & Hp & _ & _).
  split.
  - intros Hv. eexists. split; [now apply (init_default n v p)|].
    split; [reflexivity | now apply intval_init].
  - now apply init_overflow_default.
Qed.

Lemma init_intval_inverse_witness :
  (exists e, __init__ 8 200 [] = Ok e /\ length e = 8%nat /\ intval e = Ok 200) /\
  __init__ 8 256 [] = Raise AssertionError.
Proof.
  split.
  - apply (init_intval_inverse 8 200); [left; reflexivity | lia].
  - apply (init_intval_inverse 8 256); [left; reflexivity | vm_compute; discriminate].
Defined.

Lemma wf_invariant e : wf e -> invariant e.
Proof.
  intros W. pose proof W as (L & B & _).
  split; [exact L|]. split; [exact B|]. split.
  - rewrite <- L. now apply bin_value_bound.
  - intros Hn. now apply intval_ok.
Qed.

Lemma reachable_wf e : reachable e -> wf e.
Proof.
  induction 1 as [n v irr e H | a b c _ Wa _ Wb H | a b c _ Wa _ Wb H].
  - apply (init_wf _ _ _ _ H).
  - apply (xor_wf a b c Wa Wb (xor_same_length _ _ _ H) H).
  - apply (mult_wf a b c Wa Wb (mult_same_length _ _ _ H) H).
Qed.

(** C9. Every object built by the constructor, [xor] or [mult] has a bit
    list of exactly [length] entries, each 0 or 1, so a value below
    [2^length]; and the result of [xor] and of [mult] has the width and the
    polynomial of the receiver. *)
Theorem reachable_invariant :
  (forall e, reachable e -> invariant e) /\
  (forall a b c, reachable a -> reachable b ->
                 xor a b = Ok c \/ mult a b = Ok c ->
                 invariant c /\ length c = length a /\ irr_pol c = irr_pol a).
Proof.
  split.
  - intros e He. apply wf_invariant, reachable_wf, He.
  - intros a b c Ha Hb [H|H]; apply reachable_wf in Ha, Hb.
    + destruct (xor_wf a b c Ha Hb (xor_same_length _ _ _ H) H) as (W & L & I).
      split; [now apply wf_invariant | now split].
    + destruct (mult_wf a b c Ha Hb (mult_same_length _ _ _ H) H) as (W & L & I).
      split; [now apply wf_invariant | now split].
Qed.

(** C3. For two objects of the same width [n] whose polynomial has [n] as
    its largest exponent, the reduction loop of [mult] leaves a list of
    [2n] entries whose first [n] are zero: the assertion before the
    truncation holds and [mult] does not raise AssertionError.  With no
    negative exponent in the polynomial [mult] returns. *)
Theorem mult_upper_half_zero (a b : GaloisPolynomial) :
  wf a -> wf b -> length a = length b ->
  (forall r, mult_reduced a b = Ok r ->
             List.length r = (length a * 2)%nat /\
             firstn (length a) r = zeros (length a)) /\
  mult a b <> Raise AssertionError /\
  (Forall (fun e => 0 <= e) (irr_pol a) ->
   exists r c, mult_reduced a b = Ok r /\ mult a b = Ok c).
Proof.
  intros Ha Hb Hlen.
  destruct (irr_pol_list_of (length a + 1) (irr_pol a)) as [ipl|e] eqn:E.
  - destruct (mult_reduced_inv a b Ha Hb Hlen ipl E) as (r & Hr & _ & L & _ & T).
    pose proof (mult_of_reduced a b r Ha Hr T) as Hm.
    split; [|split].
    + intros r' Hr'. assert (r' = r) by congruence. subst. auto.
    + rewrite Hm. discriminate.
    + intros _. eauto.
  - destruct (mult_index_error a b e Ha Hlen E) as [Hr Hm].
    split; [|split].
    + intros r' Hr'. congruence.
    + rewrite Hm. discriminate.
    + intros Hpos. destruct (irr_pol_list_ok a Ha Hpos) as (ipl & Hipl). congruence.
Qed.

(** C2. At each of the five widths, with the polynomial of the table,
    [a.mult(b)] is the element whose value is the carry-less product of the
    values of [a] and [b] reduced modulo the polynomial: the remainder of
    the GF(2)[x] product in the division by the polynomial (there is one
    remainder only, [remainder_unique]).  At width 8 with exponents
    [8,4,3,1,0], 0x02 times 0x03 is 0x06. *)
Theorem mult_is_field_product (n : nat) (a b : GaloisPolynomial) :
  supported_width n -> wf a -> wf b ->
  length a = n -> length b = n ->
  irreducible_polynomials n = Some (irr_pol a) ->
  (exists va vb c,
     intval a = Ok va /\ intval b = Ok vb /\
     mult a b = Ok c /\ length c = n /\ irr_pol c = irr_pol a /\
     intval c = Ok (GF2.mulmod n (GF2.of_exponents (irr_pol a)) va vb) /\
     remainder n (GF2.of_exponents (irr_pol a)) (GF2.mul va vb)
       (GF2.mulmod n (GF2.of_exponents (irr_pol a)) va vb)) /\
  (x <- __init__ 8 2 [8; 4; 3; 1; 0] ;;
   y <- __init__ 8 3 [8; 4; 3; 1; 0] ;;
   z <- mult x y ;;
   intval z) = Ok 6.
Proof.
  intros Hn Wa Wb La Lb Hp. split; [|reflexivity].
  destruct (supported_width_table n Hn) as (Hpos & p & Hp' & Hnn & Hdeg).
  assert (p = irr_pol a) by congruence. subst p.
  destruct (intval_ok a Wa ltac:(lia)) as [Ia Ba].
  destruct (intval_ok b Wb ltac:(lia)) as [Ib Bb].
  destruct (mult_value a b Wa Wb ltac:(congruence) Hnn)
    as (c & Hc & Wc & Lc & Ic & Hv).
  rewrite La in *. rewrite Lb in *.
  exists (bin_value (bits a)), (bin_value (bits b)), c.
  repeat (split; [assumption|]). split.
  - destruct (intval_ok c Wc ltac:(lia)) as [-> _]. now rewrite Hv.
  - now apply mulmod_remainder.
Qed.

Lemma mult_is_field_product_witness :
  exists a b va vb c,
    __init__ 8 87 [] = Ok a /\ __init__ 8 131 [] = Ok b /\
    intval a = Ok va /\ intval b = Ok vb /\
    mult a b = Ok c /\ length c = 8%nat /\ irr_pol c = irr_pol a /\
    intval c = Ok (GF2.mulmod 8 (GF2.of_exponents (irr_pol a)) va vb) /\
    remainder 8 (GF2.of_exponents (irr_pol a)) (GF2.mul va vb)
      (GF2.mulmod 8 (GF2.of_exponents (irr_pol a)) va vb).
Proof.
  eexists. eexists. 
  destruct (proj1 (mult_is_field_product 8
                     (mkGP [8; 4; 3; 1; 0] 8 (bits_of 8 87))
                     (mkGP [8; 4; 3; 1; 0] 8 (bits_of 8 131))
                     (or_introl eq_refl)
                     (proj1 (init_wf 8 87 [] _ eq_refl))
                     (proj1 (init_wf 8 131 [] _ eq_refl))
                     eq_refl eq_refl eq_refl))
    as (va & vb & c & H).
  exists va, vb, c. split; [reflexivity|]. split; [reflexivity|]. exact H.
Defined.

Example mult_57_83 :
  (x <- __init__ 8 87 [] ;; y <- __init__ 8 131 [] ;; z <- mult x y ;; intval z)
  = Ok 193 /\ GF2.mulmod 8 (GF2.of_exponents [8; 4; 3; 1; 0]) 87 131 = 193.
Proof. split; reflexivity. Qed.

Lemma mult_upper_half_zero_witness :
  exists a b, __init__ 8 87 [] = Ok a /\ __init__ 8 131 [] = Ok b /\
    (forall r, mult_reduced a b = Ok r ->
               List.length r = (length a * 2)%nat /\
               firstn (length a) r = zeros (length a)) /\
    mult a b <> Raise AssertionError /\
    (Forall (fun e => 0 <= e) (irr_pol a) ->
     exists r c, mult_reduced a b = Ok r /\ mult a b = Ok c).
Proof.
  eexists. eexists. split; [reflexivity|]. split; [reflexivity|].
  apply mult_upper_half_zero.
  - exact (proj1 (init_wf 8 87 [] _ eq_refl)).
  - exact (proj1 (init_wf 8 131 [] _ eq_refl)).
  - reflexivity.
Defined.

Lemma reachable_invariant_witness :
  exists a b c, __init__ 8 87 [] = Ok a /\ __init__ 8 131 [] = Ok b /\
    mult a b = Ok c /\ invariant a /\
    invariant c /\ length c = length a /\ irr_pol c = irr_pol a.
Proof.
  eexists. eexists. eexists.
  split; [reflexivity|]. split; [reflexivity|]. split; [reflexivity|].
  split.
  - apply (proj1 reachable_invariant).
    exact (reach_init 8 87 [] _ eq_refl).
  - apply (proj2 reachable_invariant _ (mkGP [8; 4; 3; 1; 0] 8 (bits_of 8 131))).
    + exact (reach_init 8 87 [] _ eq_refl).
    + exact (reach_init 8 131 [] _ eq_refl).
    + right. reflexivity.
Defined.

Example mult_02_03 :
  (a <- __init__ 8 2 [8; 4; 3; 1; 0] ;;
   b <- __init__ 8 3 [8; 4; 3; 1; 0] ;;
   c <- mult a b ;;
   intval c) = Ok 6.
Proof. reflexivity. Qed.

End GaloisProofs.

(** ** Byte strings *)

Module BytesProofs.

Import GaloisProofs.

Lemma byte_val_bound b : 0 <= byte_val b < 256.
Proof. unfold byte_val. pose proof (Byte.to_N_bounded b). lia. Qed.

Lemma byte_of_val b : byte_of (byte_val b) = b.
Proof. unfold byte_of, byte_val. now rewrite N2Z.id, Byte.of_to_N. Qed.

Lemma byte_val_of v : 0 <= v < 256 -> byte_val (byte_of v) = v.
Proof.
  intros Hv. unfold byte_of, byte_val.
  destruct (Byte.of_N (Z.to_N v)) as [b|] eqn:E.
  - apply Byte.to_of_N in E. rewrite E. lia.
  - apply Byte.of_N_None_iff in E. lia.
Qed.

Lemma byte_val_inj a b : byte_val a = byte_val b -> a = b.
Proof. intros H. rewrite <- (byte_of_val a), <- (byte_of_val b). now f_equal. Qed.

Lemma lxor_byte_bound x y :
  0 <= x < 256 -> 0 <= y < 256 -> 0 <= Z.lxor x y < 256.
Proof.
  intros Hx Hy. split; [apply Z.lxor_nonneg; lia|].
  change 256 with (2 ^ 8) in *.
  apply lt_pow2_bits; [apply Z.lxor_nonneg; lia | lia |].
  intros m Hm. rewrite Z.lxor_spec.
  rewrite (proj1 (lt_pow2_bits x 8 ltac:(lia) ltac:(lia)) ltac:(lia) m Hm).
  rewrite (proj1 (lt_pow2_bits y 8 ltac:(lia) ltac:(lia)) ltac:(lia) m Hm).
  reflexivity.
Qed.

Lemma byte_val_xor a b :
  byte_val (byte_xor a b) = Z.lxor (byte_val a) (byte_val b).
Proof.
  unfold byte_xor. apply byte_val_of.
  apply lxor_byte_bound; apply byte_val_bound.
Qed.

Lemma byte_xor_cancel a b : byte_xor (byte_xor a b) b = a.
Proof.
  apply byte_val_inj. rewrite !byte_val_xor, Z.lxor_assoc, Z.lxor_nilpotent.
  apply Z.lxor_0_r.
Qed.

Lemma length_xor b1 b2 :
  List.length (_xor b1 b2) = Nat.min (List.length b1) (List.length b2).
Proof. unfold _xor. now rewrite length_map, length_combine. Qed.

Lemma xor_cancel : forall data key,
  List.length data = List.length key -> _xor (_xor data key) key = data.
Proof.
  induction data as [|x r IH]; intros [|y s] H; simpl in H; try discriminate.
  - reflexivity.
  - unfold _xor in *. simpl. rewrite byte_xor_cancel. f_equal. apply IH. lia.
Qed.

Lemma xor_firstn : forall data key,
  _xor data (firstn (List.length data) key) = _xor data key.
Proof.
  induction data as [|x r IH]; intros [|y s]; simpl; try reflexivity.
  unfold _xor in *. simpl. f_equal. apply IH.
Qed.

Lemma from_bytes_bound b :
  0 <= from_bytes_little b < 256 ^ Z.of_nat (List.length b).
Proof.
  induction b as [|x r IH].
  - simpl. lia.
  - cbn [from_bytes_little List.length]. rewrite Nat2Z.inj_succ, Z.pow_succ_r by lia.
    pose proof (byte_val_bound x). lia.
Qed.

Lemma length_le_digits len : forall v, List.length (le_digits len v) = len.
Proof. induction len as [|k IH]; intros v; simpl; auto. Qed.

Lemma from_le_digits len : forall v,
  0 <= v < 256 ^ Z.of_nat len -> from_bytes_little (le_digits len v) = v.
Proof.
  induction len as [|k IH]; intros v Hv.
  - simpl in *. lia.
  - rewrite Nat2Z.inj_succ, Z.pow_succ_r in Hv by lia.
    cbn [le_digits from_bytes_little].
    rewrite byte_val_of by (apply Z.mod_pos_bound; lia).
    rewrite IH.
    + pose proof (Z.div_mod v 256). lia.
    + split; [apply Z.div_pos; lia | apply Z.div_lt_upper_bound; lia].
Qed.

Lemma to_bytes_little_ok v len :
  0 <= v < 256 ^ Z.of_nat len -> to_bytes_little v len = Ok (le_digits len v).
Proof.
  intros Hv. unfold to_bytes_little.
  replace (0 <=? v) with true by (symmetry; apply Z.leb_le; lia).
  replace (v <? 256 ^ Z.of_nat len) with true by (symmetry; apply Z.ltb_lt; lia).
  reflexivity.
Qed.

Lemma to_bytes_little_overflow v len :
  256 ^ Z.of_nat len <= v -> to_bytes_little v len = Raise OverflowError.
Proof.
  intros Hv. unfold to_bytes_little.
  replace (v <? 256 ^ Z.of_nat len) with false by (symmetry; apply Z.ltb_ge; lia).
  now rewrite andb_false_r.
Qed.

Lemma to_bytes_big_ok v len :
  0 <= v < 256 ^ Z.of_nat len -> to_bytes_big v len = Ok (rev (le_digits len v)).
Proof. intros Hv. unfold to_bytes_big. now rewrite to_bytes_little_ok. Qed.

Lemma pow256 k : 256 ^ Z.of_nat k = 2 ^ Z.of_nat (8 * k).
Proof.
  change 256 with (2 ^ 8). rewrite <- Z.pow_mul_r by lia. f_equal. lia.
Qed.

Lemma eof_signal_iterator_snoc {A} (l : list A) t :
  eof_signal_iterator (l ++ [t]) = map (fun x => (x, false)) l ++ [(t, true)].
Proof.
  induction l as [|x r IH]; [reflexivity|].
  cbn [app eof_signal_iterator map]. rewrite IH.
  destruct r; reflexivity.
Qed.

Lemma eof_signal_iterator_fst {A} (l : list A) :
  map fst (eof_signal_iterator l) = l.
Proof.
  induction l as [|x r IH]; [reflexivity|].
  cbn [eof_signal_iterator]. destruct r as [|y r]; [reflexivity|].
  cbn [map fst]. now rewrite IH.
Qed.

Lemma nth_error_xor : forall b1 b2 i,
  nth_error (_xor b1 b2) i =
  match nth_error b1 i, nth_error b2 i with
  | Some a, Some b => Some (byte_xor a b)
  | _, _ => None
  end.
Proof.
  induction b1 as [|x r IH]; intros [|y s] [|i]; cbn; auto.
  - now destruct (nth_error r i).
  - apply IH.
Qed.

(** C10. [_xor] on any two byte strings gives a byte string as long as the
    shorter one, whose byte at [i] is the XOR of the bytes at [i]: what is
    beyond the shorter operand is dropped, without an error. *)
Theorem xor_truncates_to_shorter (block1 block2 : bytes) :
  List.length (_xor block1 block2)
  = Nat.min (List.length block1) (List.length block2) /\
  (forall i,
     nth_error (_xor block1 block2) i =
     match nth_error block1 i, nth_error block2 i with
     | Some a, Some b => Some (byte_xor a b)
     | _, _ => None
     end) /\
  (forall a b, byte_val (byte_xor a b) = Z.lxor (byte_val a) (byte_val b)).
Proof.
  split; [apply length_xor|]. split; [intros i; apply nth_error_xor|].
  apply byte_val_xor.
Qed.

Example xor_short_chunk :
  _xor [x01; x02] [xff; x0f; x33] = [xfe; x0d].
Proof. reflexivity. Qed.

End BytesProofs.

(** ** CTR *)

Module CTRProofs.

Import BytesProofs CTR CTRSpec.

Lemma nonce_and_counter_ok s i :
  0 <= i < 256 ^ Z.of_nat (List.length (nonce s)) ->
  nonce_and_counter s i
  = Ok (nonce s ++ rev (le_digits (List.length (nonce s)) i)).
Proof.
  intros Hi. unfold nonce_and_counter. now rewrite to_bytes_big_ok.
Qed.

Lemma length_nonce_and_counter s i :
  List.length (nonce s ++ rev (le_digits (List.length (nonce s)) i))
  = (2 * List.length (nonce s))%nat.
Proof. rewrite length_app, length_rev, length_le_digits. lia. Qed.

Lemma get_xor_block_ok s i :
  (2 * List.length (nonce s))%nat = block_size (cipher s) ->
  0 <= i < 256 ^ Z.of_nat (List.length (nonce s)) ->
  _get_xor_block s i
  = Ok (encrypt_block (cipher s)
          (nonce s ++ rev (le_digits (List.length (nonce s)) i))).
Proof.
  intros Hn Hi. unfold _get_xor_block.
  rewrite nonce_and_counter_ok by assumption. cbn [bind].
  rewrite length_nonce_and_counter, Hn, Nat.eqb_refl. reflexivity.
Qed.

Lemma get_xor_block_mismatch s i :
  (2 * List.length (nonce s))%nat <> block_size (cipher s) ->
  0 <= i < 256 ^ Z.of_nat (List.length (nonce s)) ->
  _get_xor_block s i = Raise AssertionError.
Proof.
  intros Hn Hi. unfold _get_xor_block.
  rewrite nonce_and_counter_ok by assumption. cbn [bind].
  rewrite length_nonce_and_counter.
  apply Nat.eqb_neq in Hn. now rewrite Hn.
Qed.

(** A counter that does not fit [len(nonce)] bytes. *)
Lemma get_xor_block_overflow s i :
  256 ^ Z.of_nat (List.length (nonce s)) <= i ->
  _get_xor_block s i = Raise OverflowError.
Proof.
  intros Hi. unfold _get_xor_block, nonce_and_counter, to_bytes_big.
  now rewrite to_bytes_little_overflow.
Qed.

Lemma encrypt_loop_ok s :
  (2 * List.length (nonce s))%nat = block_size (cipher s) ->
  forall items counter,
    0 <= counter ->
    counter + Z.of_nat (List.length items) <= 256 ^ Z.of_nat (List.length (nonce s)) ->
    encrypt_loop s items counter
    = (outputs s (map fst items) counter,
       Ok (counter + Z.of_nat (List.length items))).
Proof.
  intros Hn. induction items as [|[data eof] rest IH]; intros counter Hc Hb.
  - cbn. now rewrite Z.add_0_r.
  - cbn [List.length] in Hb. rewrite Nat2Z.inj_succ in Hb.
    cbn [encrypt_loop]. rewrite get_xor_block_ok by (auto; lia).
    cbn [lift gbind yield]. rewrite IH by lia.
    cbn [map fst outputs List.length app]. rewrite Nat2Z.inj_succ.
    f_equal; [|f_equal; lia]. f_equal.
    fold (keystream s counter).
    destruct (eof && _); [apply xor_firstn | reflexivity].
Qed.

Lemma length_outputs s chunks : forall i,
  List.length (outputs s chunks i) = List.length chunks.
Proof. induction chunks as [|d r IH]; intros i; simpl; auto. Qed.

Lemma nth_error_outputs s chunks : forall i (k : nat),
  (k < List.length chunks)%nat ->
  nth_error (outputs s chunks i) k
  = Some (_xor (nth k chunks []) (keystream s (i + Z.of_nat k))).
Proof.
  induction chunks as [|d r IH]; intros i k Hk; simpl in Hk; [lia|].
  destruct k as [|k]; cbn [outputs nth_error nth].
  - now rewrite Z.add_0_r.
  - rewrite IH by lia. do 3 f_equal. lia.
Qed.

(** C8. [CTR.decrypt] is [CTR.encrypt]: on the same session and the same
    input both give the same elements and end the same way. *)
Theorem ctr_decrypt_is_encrypt (s : CTR.session) (x : list bytes) :
  CTR.decrypt s x = CTR.encrypt s x.
Proof. reflexivity. Qed.

(** C5, as stated, fails: with a one-byte nonce and a three-byte block the
    counter field of [block_size - len(nonce)] = 2 bytes would fill the
    block, but the code gives the counter [len(nonce)] = 1 byte and stops
    on its assertion before yielding anything. *)
Lemma ctr_counter_width_counterexample :
  (List.length (nonce ctr3) <= block_size (cipher ctr3))%nat /\
  nonce_and_counter ctr3 0 = Ok [x01; x00] /\
  encrypt ctr3 [[x00; x00; x00]] = ([], Raise AssertionError) /\
  ~ ctr_as_stated ctr3 [[x00; x00; x00]].
Proof.
  split; [cbn; lia|]. split; [reflexivity|]. split; [reflexivity|].
  intros H. destruct (H 0%nat) as (cb & _ & _ & Hnth & _); [cbn; lia|].
  discriminate Hnth.
Qed.

(** C5, amended.  The counter field is [len(nonce)] bytes wide.  When
    [2 * len(nonce) = block_size] that is [block_size - len(nonce)], and for
    every block index [i] below [256 ^ len(nonce)] the keystream input is
    [nonce ++ big-endian(i)], a full block, and the output at [i] is the
    chunk at [i] XORed with the encrypted input, cut to the shorter of the
    two.  When [2 * len(nonce)] is not [block_size], [encrypt] stops on its
    assertion at the first block. *)
Theorem ctr_keystream (s : session) (chunks : list bytes) :
  ((2 * List.length (nonce s))%nat = block_size (cipher s) ->
   Z.of_nat (List.length chunks) <= 256 ^ Z.of_nat (List.length (nonce s)) ->
   List.length (nonce s) = (block_size (cipher s) - List.length (nonce s))%nat /\
   ctr_as_stated s chunks /\
   List.length (yielded (encrypt s chunks)) = List.length chunks /\
   outcome (encrypt s chunks) = Ok (Z.of_nat (List.length chunks))) /\
  ((2 * List.length (nonce s))%nat <> block_size (cipher s) ->
   chunks <> [] ->
   encrypt s chunks = ([], Raise AssertionError)).
Proof.
  split.
  - intros Hn Hb.
    assert (Llen : List.length (eof_signal_iterator chunks) = List.length chunks)
      by (rewrite <- (eof_signal_iterator_fst chunks) at 2; now rewrite length_map).
    assert (E : encrypt s chunks
                = (outputs s chunks 0, Ok (Z.of_nat (List.length chunks)))).
    { unfold encrypt. rewrite encrypt_loop_ok by (auto; lia).
      now rewrite eof_signal_iterator_fst, Llen. }
    split; [lia|]. split; [|split].
    + intros i Hi. unfold ctr_block_as_stated.
      replace (block_size (cipher s) - List.length (nonce s))%nat
        with (List.length (nonce s)) by lia.
      exists (rev (le_digits (List.length (nonce s)) (Z.of_nat i))).
      split; [apply to_bytes_big_ok; lia|].
      split; [rewrite length_nonce_and_counter; exact Hn|].
      cbv zeta. split; [|apply length_xor].
      rewrite E. unfold yielded. cbn [fst].
      now rewrite nth_error_outputs by assumption.
    + rewrite E. unfold yielded. cbn [fst]. apply length_outputs.
    + now rewrite E.
  - intros Hn Hne. destruct chunks as [|c rest]; [congruence|].
    unfold encrypt.
    assert (H0 : 0 <= 0 < 256 ^ Z.of_nat (List.length (nonce s)))
      by (split; [lia | apply Z.pow_pos_nonneg; lia]).
    cbn [eof_signal_iterator].
    destruct rest; cbn [encrypt_loop];
      rewrite (get_xor_block_mismatch s 0 Hn H0); reflexivity.
Qed.

(** Past [256 ^ len(nonce)] blocks the counter does not fit its field:
    with a one-byte nonce and two-byte blocks, 256 blocks are yielded and
    [to_bytes] raises on the next. *)
Example ctr_counter_overflow :
  List.length (yielded (encrypt (mkCTR (xor_cipher 2 x5a) [x01])
                                (repeat [x00; x00] 257))) = 256%nat /\
  outcome (encrypt (mkCTR (xor_cipher 2 x5a) [x01]) (repeat [x00; x00] 257))
  = Raise OverflowError.
Proof. vm_compute. split; reflexivity. Qed.

Lemma ctr_keystream_witness :
  (List.length (nonce ctr4) = (block_size (cipher ctr4) - List.length (nonce ctr4))%nat /\
   ctr_as_stated ctr4 [[x00; x01; x02; x03]; [x10; x11]] /\
   List.length (yielded (encrypt ctr4 [[x00; x01; x02; x03]; [x10; x11]])) = 2%nat /\
   outcome (encrypt ctr4 [[x00; x01; x02; x03]; [x10; x11]]) = Ok 2) /\
  encrypt ctr3 [[x00; x00; x00]] = ([], Raise AssertionError).
Proof.
  split.
  - apply (proj1 (ctr_keystream ctr4 [[x00; x01; x02; x03]; [x10; x11]])).
    + reflexivity.
    + vm_compute. discriminate.
  - apply (proj2 (ctr_keystream ctr3 [[x00; x00; x00]])).
    + cbn. lia.
    + discriminate.
Defined.

End CTRProofs.

(** ** CBC *)

Module CBCProofs.

Import BytesProofs CBC CBCSpec.

Lemma encrypt_first s x rest :
  exists more, yielded (encrypt s (x :: rest)) = iv s :: more.
Proof.
  unfold encrypt, encrypt_from. cbn [eof_signal_iterator].
  destruct rest as [|y rest];
    cbn [encrypt_loop falsy yield gret gbind app];
    destruct (lift _) as [ys [cb'|e]]; cbn [gbind];
    try destruct (encrypt_loop _ _ _) as [zs r]; cbn; eauto.
Qed.

Lemma last_cons {A} (l : list A) : forall x d, last (x :: l) d = last l x.
Proof.
  induction l as [|y l IH]; intros x d; [reflexivity|].
  change (last (x :: y :: l) d) with (last (y :: l) d). now rewrite !IH.
Qed.

Lemma decrypt_loop_eq s : forall items prev log,
  decrypt_loop s items prev log
  = (plains s prev items,
     Ok (last (map fst items) prev, log ++ map fst items)).
Proof.
  induction items as [|[data eof] rest IH]; intros prev log.
  - cbn. now rewrite app_nil_r.
  - cbn [decrypt_loop yield gbind]. rewrite IH.
    cbn [plains map fst app]. fold (plain s prev data eof).
    f_equal. f_equal. f_equal.
    + symmetry. apply last_cons.
    + now rewrite <- app_assoc.
Qed.

Lemma length_plains s : forall items prev,
  List.length (plains s prev items) = List.length items.
Proof.
  induction items as [|[d e] r IH]; intros prev; simpl; auto.
Qed.

Lemma nth_error_plains s : forall rest prev j,
  nth_error (plains s prev (eof_signal_iterator rest)) j =
  option_map
    (fun data => plain s (nth j (prev :: rest) []) data
                   (Nat.eqb (S j) (List.length rest)))
    (nth_error rest j).
Proof.
  induction rest as [|x rest IH]; intros prev j.
  - now destruct j.
  - cbn [eof_signal_iterator]. destruct rest as [|y rest].
    + destruct j as [|[|j]]; reflexivity.
    + cbn [plains]. destruct j as [|j]; [reflexivity|].
      cbn [nth_error]. rewrite IH. reflexivity.
Qed.

(** C6. On a fresh session and a non-empty input, the first element
    yielded by [encrypt] is the IV itself.  [decrypt] takes the first input
    element as the first chaining value only: it yields one element for each
    later input element, computed from that element and the one before it,
    and [decrypt_block] is applied to the later elements, never to the
    first. *)
Theorem cbc_iv_framing (s : session) (first : bytes) (rest : list bytes) :
  (exists more, yielded (encrypt s (first :: rest)) = iv s :: more) /\
  (exists outs,
     decrypt s (first :: rest) = (outs, Ok (last rest first, rest)) /\
     List.length outs = List.length rest /\
     forall j,
       nth_error outs j =
       option_map
         (fun data =>
            let plaintext :=
              _xor (decrypt_block (cipher s) data) (nth j (first :: rest) []) in
            if Nat.eqb (S j) (List.length rest)
            then remove (padding_scheme s) plaintext else plaintext)
         (nth_error rest j)).
Proof.
  split; [apply encrypt_first|].
  exists (plains s first (eof_signal_iterator rest)).
  assert (E : eof_signal_iterator (first :: rest)
              = (first, match rest with [] => true | _ => false end)
                  :: eof_signal_iterator rest)
    by (destruct rest; reflexivity).
  split; [|split].
  - unfold decrypt. rewrite E, decrypt_loop_eq.
    now rewrite eof_signal_iterator_fst.
  - rewrite length_plains. rewrite <- (eof_signal_iterator_fst rest) at 2.
    now rewrite length_map.
  - intros j. rewrite nth_error_plains.
    destruct (nth_error rest j); cbn [option_map]; [|reflexivity].
    unfold plain. now destruct (Nat.eqb (S j) (List.length rest)).
Qed.

End CBCProofs.

(** ** GCM *)

Module GCMProofs.

Import Galois GaloisSpec GaloisProofs BytesProofs GCM GCMSpec.

Section Field.

Variables (nb : nat) (p : list Z).
Hypothesis table : irreducible_polynomials nb = Some p.

Lemma GP_ok v :
  0 <= v < 2 ^ Z.of_nat nb ->
  GP nb v = Ok (mkGP p nb (bits_of nb v)) /\ elt nb p (mkGP p nb (bits_of nb v)).
Proof.
  intros Hv. unfold GP. pose proof (init_default nb v p table Hv) as H.
  split; [exact H|]. destruct (init_wf _ _ _ _ H) as [W L]. now split.
Qed.

Lemma xor_elt a b :
  elt nb p a -> elt nb p b -> exists c, xor a b = Ok c /\ elt nb p c.
Proof.
  intros (Wa & La & Ia) (Wb & Lb & Ib).
  assert (Hlen : length a = length b) by congruence.
  eexists. split; [now apply xor_ok|].
  destruct (xor_wf a b _ Wa Wb Hlen (xor_ok a b Wa Wb Hlen)) as (W & L & I).
  split; [exact W | split; congruence].
Qed.

Lemma mult_elt a b :
  elt nb p a -> elt nb p b -> exists c, mult a b = Ok c /\ elt nb p c.
Proof.
  intros (Wa & La & Ia) (Wb & Lb & Ib).
  assert (Hlen : length a = length b) by congruence.
  destruct (mult_ok a b Wa Wb Hlen) as (r & _ & _ & _ & _ & Hm).
  - rewrite Ia. now apply (table_nonneg nb).
  - eexists. split; [exact Hm|].
    destruct (mult_wf a b _ Wa Wb Hlen Hm) as (W & L & I).
    split; [exact W | split; congruence].
Qed.

Lemma roll_elt r C K :
  elt nb p r -> elt nb p C -> elt nb p K -> exists r', roll r C K = Ok r' /\ elt nb p r'.
Proof.
  intros Hr HC HK. unfold roll.
  destruct (xor_elt r C Hr HC) as (t & -> & Ht). cbn [bind].
  now apply mult_elt.
Qed.

End Field.

Lemma supported_table bs :
  supported_block_size bs ->
  exists p, irreducible_polynomials (8 * bs) = Some p.
Proof. intros [->|[->|[->| ->]]]; eexists; reflexivity. Qed.

Lemma supported_even bs :
  supported_block_size bs -> (2 * (bs / 2) = bs)%nat /\ (0 < bs)%nat.
Proof. intros [->|[->|[->| ->]]]; split; cbn; lia. Qed.

Lemma extra_block_bound bs hl counter :
  supported_block_size bs -> (hl <= bs)%nat ->
  0 <= counter <= 256 ^ Z.of_nat (bs / 2) ->
  0 <= Z.shiftl (Z.of_nat hl) (Z.of_nat (8 * bs / 2)) + counter
    < 2 ^ Z.of_nat (8 * bs).
Proof.
  intros Hbs Hhl Hc. rewrite Z.shiftl_mul_pow2 by lia.
  rewrite pow256 in Hc.
  assert (E : (8 * bs / 2 = 8 * (bs / 2))%nat)
    by (destruct Hbs as [->|[->|[->| ->]]]; reflexivity).
  rewrite E.
  assert (E2 : Z.of_nat (8 * bs) = Z.of_nat (8 * (bs / 2)) + Z.of_nat (8 * (bs / 2)))
    by (destruct (supported_even bs Hbs); lia).
  rewrite E2, Z.pow_add_r by lia.
  set (k := 2 ^ Z.of_nat (8 * (bs / 2))) in *.
  assert (Hk : Z.of_nat bs + 1 < k).
  { unfold k. destruct Hbs as [->|[->|[->| ->]]]; cbn; lia. }
  nia.
Qed.

Lemma nonce_half s p :
  session_ok s p -> (2 * List.length (nonce s))%nat = block_size (cipher s).
Proof.
  intros (supported & _ & _ & nonce_length). rewrite nonce_length.
  apply (supported_even _ supported).
Qed.

Lemma gcm_xor_block_ok s p i :
  session_ok s p ->
  0 <= i < 256 ^ Z.of_nat (List.length (nonce s)) ->
  _get_xor_block s i = Ok (keystream s i) /\
  List.length (keystream s i) = block_size (cipher s).
Proof.
  intros Hs Hi. pose proof (nonce_half s p Hs) as Hhalf.
  destruct Hs as (_ & _ & cipher_length & _).
  unfold _get_xor_block, keystream.
  rewrite to_bytes_big_ok by assumption. cbn [bind].
  assert (L : List.length (nonce s ++ rev (le_digits (List.length (nonce s)) i))
              = block_size (cipher s))
    by (rewrite length_app, length_rev, length_le_digits; lia).
  rewrite L, Nat.eqb_refl. cbn [assert bind]. split; [reflexivity|].
  now apply cipher_length.
Qed.

(** A counter that does not fit [len(nonce)] bytes. *)
Lemma gcm_xor_block_overflow s i :
  256 ^ Z.of_nat (List.length (nonce s)) <= i ->
  _get_xor_block s i = Raise OverflowError.
Proof.
  intros Hi. unfold _get_xor_block, to_bytes_big.
  now rewrite to_bytes_little_overflow.
Qed.

Lemma GP_bytes s p x :
  session_ok s p ->
  (List.length x <= block_size (cipher s))%nat ->
  GP (num_bits_of s) (from_bytes_little x)
  = Ok (mkGP p (num_bits_of s) (bits_of (num_bits_of s) (from_bytes_little x))) /\
  elt (num_bits_of s) p
      (mkGP p (num_bits_of s) (bits_of (num_bits_of s) (from_bytes_little x))).
Proof.
  intros (_ & table & _ & _) Hx. apply (GP_ok _ p table).
  pose proof (from_bytes_bound x) as Hb. unfold num_bits_of.
  rewrite <- pow256. split; [lia|].
  apply Z.lt_le_trans with (1 := proj2 Hb).
  apply Z.pow_le_mono_r; lia.
Qed.

Lemma hash_subkey_ok s p :
  session_ok s p ->
  exists Ek_0, hash_subkey s = Ok Ek_0 /\ elt (num_bits_of s) p Ek_0.
Proof.
  intros Hs. unfold hash_subkey. rewrite to_bytes_little_ok.
  - cbn [bind]. eexists. apply (GP_bytes s p _ Hs).
    destruct Hs as (_ & _ & cipher_length & _).
    rewrite cipher_length; [lia | apply length_le_digits].
  - split; [lia|]. apply Z.pow_pos_nonneg; lia.
Qed.

Lemma gmac_bytes_ok s p ek Ek_0 rolling counter :
  session_ok s p ->
  (List.length (header s) <= block_size (cipher s))%nat ->
  elt (num_bits_of s) p ek -> elt (num_bits_of s) p Ek_0 ->
  elt (num_bits_of s) p rolling ->
  0 <= counter <= 256 ^ Z.of_nat (List.length (nonce s)) ->
  exists tag, gmac_bytes_of s ek Ek_0 rolling counter = Ok tag /\
              List.length tag = block_size (cipher s).
Proof.
  intros (supported & table & _ & nonce_length) Hh Hek HEk Hr Hc.
  unfold gmac_bytes_of, gmac_of.
  destruct (GP_ok _ p table (extra_block_of s counter)) as (-> & HL).
  { unfold extra_block_of, num_bits_of. apply extra_block_bound; auto.
    now rewrite <- nonce_length. }
  cbn [bind].
  destruct (roll_elt _ p table _ _ _ Hr HL HEk) as (r' & -> & Hr'). cbn [bind].
  destruct (xor_elt _ p _ _ Hr' Hek) as (g & -> & (Wg & Lg & Ig)). cbn [bind].
  unfold gmac_to_bytes.
  destruct (intval_ok g Wg) as (-> & Hv).
  { rewrite Lg. unfold num_bits_of. destruct (supported_even _ supported). lia. }
  cbn [bind]. rewrite Lg in Hv. unfold num_bits_of in Hv. rewrite <- pow256 in Hv.
  rewrite to_bytes_little_ok by assumption.
  eexists. split; [reflexivity | apply length_le_digits].
Qed.

(** The loops of [encrypt] and [decrypt] side by side: the second undoes
    the first and leaves the same counter and rolling polynomial. *)
Lemma loops_agree s p Ek_0 :
  session_ok s p -> elt (num_bits_of s) p Ek_0 ->
  forall items counter rolling,
    Forall (fun b => List.length b = block_size (cipher s)) (map fst items) ->
    elt (num_bits_of s) p rolling -> 0 <= counter ->
    counter + Z.of_nat (List.length items)
      <= 256 ^ Z.of_nat (List.length (nonce s)) ->
    exists cts rolling',
      encrypt_loop s Ek_0 items counter rolling
      = (cts, Ok (counter + Z.of_nat (List.length items), rolling')) /\
      List.length cts = List.length items /\
      elt (num_bits_of s) p rolling' /\
      forall tag last,
        decrypt_loop s Ek_0 (map (fun c => (c, false)) cts ++ [(tag, true)])
          counter rolling last
        = (map fst items,
           Ok (counter + Z.of_nat (List.length items), rolling', Some tag)).
Proof.
  intros Hs HEk. assert (table := proj1 (proj2 Hs)).
  induction items as [|[data eof] rest IH];
    intros counter rolling Hfull Hr Hc Hb.
  - exists [], rolling. cbn. rewrite Z.add_0_r. auto.
  - cbn [map fst] in Hfull. inversion Hfull as [|? ? Hd Hrest]; subst.
    cbn [List.length] in Hb. rewrite Nat2Z.inj_succ in Hb.
    destruct (gcm_xor_block_ok s p counter Hs ltac:(lia)) as (Hks & Lks).
    set (ct := _xor data (keystream s counter)).
    assert (Lct : List.length ct = block_size (cipher s))
      by (unfold ct; rewrite length_xor, Hd, Lks; lia).
    destruct (GP_bytes s p ct Hs ltac:(lia)) as (HC & EC).
    destruct (roll_elt _ p table _ _ _ Hr EC HEk) as (r1 & Hr1 & Er1).
    destruct (IH (counter + 1) r1 Hrest Er1 ltac:(lia) ltac:(lia))
      as (cts & r' & Henc & Lcts & Er' & Hdec).
    exists (ct :: cts), r'. split; [|split; [cbn; lia|split; [exact Er'|]]].
    + cbn [encrypt_loop]. rewrite Hks. cbn [lift gbind]. fold ct.
      rewrite HC. cbn [gbind]. rewrite Hr1. cbn [gbind yield].
      rewrite Henc. cbn [app List.length]. rewrite Nat2Z.inj_succ.
      do 3 f_equal. lia.
    + intros tag last. cbn [map app decrypt_loop].
      rewrite Hks. cbn [lift gbind]. rewrite HC. cbn [gbind].
      rewrite Hr1. cbn [gbind yield]. rewrite Hdec.
      cbn [app map fst List.length]. rewrite Nat2Z.inj_succ.
      unfold ct. rewrite xor_cancel by lia.
      do 4 f_equal. lia.
Qed.

Lemma bytes_eqb_refl b : bytes_eqb b b = true.
Proof. unfold bytes_eqb. destruct (list_eq_dec Byte.byte_eq_dec b b); congruence. Qed.

Lemma eof_signal_iterator_framed {A} (x : A) l t :
  eof_signal_iterator (x :: l ++ [t])
  = (x, false) :: map (fun c => (c, false)) l ++ [(t, true)].
Proof. exact (eof_signal_iterator_snoc (x :: l) t). Qed.

Lemma gcm_run_exists (s : session) (pt : list bytes) :
  supported_block_size (block_size (cipher s)) ->
  (forall x, List.length x = block_size (cipher s) ->
             List.length (encrypt_block (cipher s) x) = block_size (cipher s)) ->
  List.length (nonce s) = (block_size (cipher s) / 2)%nat ->
  (List.length (header s) <= block_size (cipher s))%nat ->
  Forall (fun b => List.length b = block_size (cipher s)) pt ->
  Z.of_nat (List.length pt) < 256 ^ Z.of_nat (block_size (cipher s) / 2) ->
  exists ek A Ek_0 acc0 acc cts tag, gcm_run s pt ek A Ek_0 acc0 acc cts tag.
Proof.
  intros Hbs Hcipher Hnonce Hheader Hfull Hcount.
  destruct (supported_table _ Hbs) as (p & table).
  fold (num_bits_of s) in table.
  assert (Hs : session_ok s p) by (unfold session_ok; auto).
  assert (H256 : 0 < 256 ^ Z.of_nat (List.length (nonce s)))
    by (apply Z.pow_pos_nonneg; lia).
  destruct (gcm_xor_block_ok s p 0 Hs ltac:(lia)) as (Hxb & Lxb).
  destruct (GP_bytes s p (keystream s 0) Hs ltac:(lia)) as (Hek & Eek).
  destruct (GP_bytes s p (header s) Hs Hheader) as (HA & EA).
  destruct (hash_subkey_ok s p Hs) as (Ek_0 & HEk & EEk).
  destruct (mult_elt _ p table _ _ EA EEk) as (acc0 & Hacc0 & Eacc0).
  assert (Llen : List.length (eof_signal_iterator pt) = List.length pt)
    by (rewrite <- (eof_signal_iterator_fst pt) at 2; now rewrite length_map).
  assert (Hfull' : Forall (fun b => List.length b = block_size (cipher s))
                          (map fst (eof_signal_iterator pt)))
    by (now rewrite eof_signal_iterator_fst).
  assert (Hcount' : 1 + Z.of_nat (List.length (eof_signal_iterator pt))
                    <= 256 ^ Z.of_nat (List.length (nonce s)))
    by (rewrite Llen, Hnonce; lia).
  destruct (loops_agree s p Ek_0 Hs EEk (eof_signal_iterator pt) 1 acc0
              Hfull' Eacc0 ltac:(lia) Hcount')
    as (cts & acc & Henc & Lcts & Eacc & Hdec).
  change (list byte * bool)%type with (bytes * bool)%type in Henc, Hdec, Lcts.
  rewrite Llen in Henc. rewrite Llen in Hdec. rewrite Llen in Lcts.
  rewrite eof_signal_iterator_fst in Hdec.
  destruct (gmac_bytes_ok s p _ Ek_0 acc
              (1 + Z.of_nat (List.length pt)) Hs Hheader Eek EEk Eacc)
    as (tag & Htag & Ltag); [rewrite Hnonce; lia|].
  assert (Hhb : 0 <= from_bytes_little (header s)
                < 256 ^ Z.of_nat (block_size (cipher s))).
  { pose proof (from_bytes_bound (header s)) as Hb. split; [lia|].
    apply Z.lt_le_trans with (1 := proj2 Hb). apply Z.pow_le_mono_r; lia. }
  do 2 eexists. exists Ek_0, acc0, acc, cts, tag. unfold gcm_run. cbv zeta.
  split; [eexists; split; eassumption|].
  split; [exact HA|]. split; [exact HEk|]. split; [exact Hacc0|].
  split; [exact Henc|]. split; [exact Lcts|]. split; [exact Hdec|].
  split; [exact Htag|].
  split; [exact Ltag|]. split.
  - unfold encrypt. rewrite Hxb. cbn [lift gbind]. rewrite Hek. cbn [gbind].
    replace (Nat.leb _ _) with true by (symmetry; apply Nat.leb_le; lia).
    cbn [assert gbind]. rewrite HA. cbn [gbind].
    rewrite to_bytes_little_ok by assumption. cbn [gbind yield].
    rewrite HEk. cbn [gbind]. rewrite Hacc0. cbn [gbind].
    rewrite Henc. cbn [gbind lift fst snd]. rewrite Htag. cbn [app]. reflexivity.
  - unfold decrypt. rewrite Hxb. cbn [lift gbind]. rewrite Hek. cbn [gbind].
    rewrite eof_signal_iterator_framed. cbn [negb assert gbind].
    rewrite from_le_digits by assumption. rewrite HA. cbn [gbind].
    rewrite HEk. cbn [gbind]. rewrite Hacc0. cbn [gbind].
    rewrite Hdec. cbn [gbind lift]. rewrite Htag. cbn [gret app].
    now rewrite bytes_eqb_refl, app_nil_r.
Qed.

Lemma tag_with_of_gmac_bytes s ek Ek_0 acc counter tag :
  gmac_bytes_of s ek Ek_0 acc counter = Ok tag ->
  List.length tag = block_size (cipher s) ->
  tag_with s ek Ek_0 acc (extra_block_of s counter) tag.
Proof.
  unfold gmac_bytes_of, gmac_of, roll, tag_with. intros H Hlen.
  destruct (GP _ _) as [L|] eqn:HL; cbn [bind] in H; [|discriminate].
  destruct (xor acc L) as [t1|] eqn:H1; cbn [bind] in H; [|discriminate].
  destruct (mult t1 Ek_0) as [t2|] eqn:H2; cbn [bind] in H; [|discriminate].
  destruct (xor t2 ek) as [g|] eqn:H3; cbn [bind] in H; [|discriminate].
  exists L, t1, t2, g. auto 10.
Qed.

(** C1, as stated, fails: a cipher of 4-byte blocks whose [decrypt_block]
    inverts [encrypt_block], a 2-byte nonce, a 2-byte header and one full
    block of plaintext; the field width 32 is not in the table, [encrypt]
    stops on the assertion of the constructor and yields nothing, and so
    does [decrypt]. *)
Lemma gcm_unsupported_block_counterexample :
  (forall x, decrypt_block (cipher gcm4) (encrypt_block (cipher gcm4) x) = x) /\
  List.length (nonce gcm4) = (block_size (cipher gcm4) / 2)%nat /\
  (List.length (header gcm4) <= block_size (cipher gcm4))%nat /\
  Forall (fun b => List.length b = block_size (cipher gcm4))
         [[x00; x01; x02; x03]] /\
  encrypt gcm4 [[x00; x01; x02; x03]] = ([], Raise AssertionError) /\
  ~ round_trip gcm4 [[x00; x01; x02; x03]].
Proof.
  split.
  { intros x. cbn. rewrite map_map. rewrite <- (map_id x) at 2.
    apply map_ext. intros b. apply byte_val_inj.
    rewrite !byte_val_xor, <- Z.lxor_assoc, Z.lxor_nilpotent. apply Z.lxor_0_l. }
  split; [reflexivity|]. split; [cbn; lia|].
  split; [repeat constructor|]. split; [reflexivity|].
  unfold round_trip. vm_compute. discriminate.
Qed.

(** A block of one byte has its width, 8, in the table, but leaves no room
    for a nonce: [_get_xor_block] stops on its assertion. *)
Example gcm_one_byte_block :
  encrypt (mkGCM (xor_cipher 1 x5a) [] []) [[x00]] = ([], Raise AssertionError).
Proof. reflexivity. Qed.

(** C1, amended.  For a cipher whose block size is 8, 16, 32 or 64 bytes
    (the field width [8 * block_size] is then in the table) and which
    returns blocks, a nonce of [block_size / 2] bytes, a header of at most
    one block and a plaintext of fewer than [256 ^ (block_size / 2)] full
    blocks: [encrypt] ends normally, and [decrypt] on a session with the
    same cipher, nonce and header, fed what [encrypt] yielded, yields the
    plaintext blocks and reports the tag verified. *)
Theorem gcm_round_trip (s : session) (pt : list bytes) :
  supported_block_size (block_size (cipher s)) ->
  (forall x, List.length x = block_size (cipher s) ->
             List.length (encrypt_block (cipher s) x) = block_size (cipher s)) ->
  List.length (nonce s) = (block_size (cipher s) / 2)%nat ->
  (List.length (header s) <= block_size (cipher s))%nat ->
  Forall (fun b => List.length b = block_size (cipher s)) pt ->
  Z.of_nat (List.length pt) < 256 ^ Z.of_nat (block_size (cipher s) / 2) ->
  outcome (encrypt s pt) = Ok tt /\
  List.length (yielded (encrypt s pt)) = (List.length pt + 2)%nat /\
  round_trip s pt.
Proof.
  intros Hbs Hcipher Hnonce Hheader Hfull Hcount.
  destruct (gcm_run_exists s pt Hbs Hcipher Hnonce Hheader Hfull Hcount)
    as (ek & A & Ek_0 & acc0 & acc & cts & tag & R).
  destruct R as (_ & _ & _ & _ & _ & Lcts & _ & _ & _ & E & D).
  unfold round_trip. rewrite E. unfold outcome, yielded. cbn [fst snd].
  split; [reflexivity|]. split; [|exact D].
  cbn [List.length]. rewrite length_app. cbn [List.length]. lia.
Qed.

Lemma xor_cipher_length bs k x :
  List.length (encrypt_block (xor_cipher bs k) x) = List.length x.
Proof. apply length_map. Qed.

Lemma gcm_round_trip_witness :
  outcome (encrypt gcm8 blocks8) = Ok tt /\
  List.length (yielded (encrypt gcm8 blocks8)) = 4%nat /\
  round_trip gcm8 blocks8.
Proof.
  apply (gcm_round_trip gcm8 blocks8).
  - left. reflexivity.
  - intros x Hx. exact (eq_trans (xor_cipher_length 8 x5a x) Hx).
  - reflexivity.
  - cbn. lia.
  - repeat constructor.
  - vm_compute. reflexivity.
Defined.

Ltac evaluate H :=
  vm_compute in H; first [discriminate H | injection H; clear H; intros; subst].

(** C4, as stated, fails: with a 2-byte header and two data blocks the
    length block of the code is [(2 << 32) + 3], the counter after the two
    blocks, not [(2 << 32) | 2], and the tag made with the latter is not
    the tag [encrypt] yields. *)
Lemma gcm_length_block_counterexample :
  extra_block_of gcm8 3 = 8589934595 /\
  length_block_as_stated gcm8 2 = 8589934594 /\
  (exists cts acc, forall Ek_0 acc0,
     hash_subkey gcm8 = Ok Ek_0 ->
     (exists A, GP 64 (from_bytes_little (header gcm8)) = Ok A /\
                mult A Ek_0 = Ok acc0) ->
     encrypt_loop gcm8 Ek_0 (eof_signal_iterator blocks8) 1 acc0
     = (cts, Ok (3, acc))) /\
  (forall counter,
     ~ encrypt_finalized_with gcm8 blocks8 counter
         (length_block_as_stated gcm8 (List.length blocks8))).
Proof.
  split; [reflexivity|]. split; [reflexivity|]. split.
  { do 2 eexists. intros Ek_0 acc0 HEk (A & HA & Hacc0).
    evaluate HEk. evaluate HA. evaluate Hacc0. vm_compute. reflexivity. }
  intros counter (ek & Ek_0 & acc0 & cts & acc & tag
                  & Hsetup & Hloop & Htag & _ & Hlast).
  destruct Hsetup as ((xb & Hxb & Hek) & HEk & A & HA & Hacc0).
  destruct Htag as (L & t1 & t2 & g & HL & H1 & H2 & H3 & H4 & _).
  subst tag.
  evaluate Hxb. evaluate Hek. evaluate HEk. evaluate HA. evaluate Hacc0.
  evaluate Hloop. evaluate HL. evaluate H1. evaluate H2. evaluate H3.
  vm_compute in H4. discriminate H4.
Qed.

(** The loop of [decrypt] on any stream of full blocks closed by a last
    element: it goes through every block, counts it, and leaves at the
    last element, whatever that element is. *)
Lemma decrypt_loop_any s p Ek_0 :
  session_ok s p -> elt (num_bits_of s) p Ek_0 ->
  forall (body : list bytes) counter rolling (received : bytes) last,
    Forall (fun b => List.length b = block_size (cipher s)) body ->
    elt (num_bits_of s) p rolling -> 0 <= counter ->
    counter + Z.of_nat (List.length body)
      <= 256 ^ Z.of_nat (List.length (nonce s)) ->
    exists pts rolling',
      decrypt_loop s Ek_0 (map (fun c => (c, false)) body ++ [(received, true)])
        counter rolling last
      = (pts, Ok (counter + Z.of_nat (List.length body), rolling', Some received)) /\
      List.length pts = List.length body /\
      elt (num_bits_of s) p rolling'.
Proof.
  intros Hs HEk. assert (table := proj1 (proj2 Hs)).
  induction body as [|ct rest IH];
    intros counter rolling received last Hfull Hr Hc Hb.
  - exists [], rolling. cbn. rewrite Z.add_0_r. auto.
  - inversion Hfull as [|? ? Hd Hrest]; subst.
    cbn [List.length] in Hb. rewrite Nat2Z.inj_succ in Hb.
    destruct (gcm_xor_block_ok s p counter Hs ltac:(lia)) as (Hks & Lks).
    destruct (GP_bytes s p ct Hs ltac:(lia)) as (HC & EC).
    destruct (roll_elt _ p table _ _ _ Hr EC HEk) as (r1 & Hr1 & Er1).
    destruct (IH (counter + 1) r1 received (Some ct) Hrest Er1
                 ltac:(lia) ltac:(lia))
      as (pts & r' & Hdec & Lpts & Er').
    exists (_xor ct (keystream s counter) :: pts), r'.
    split; [|split; [cbn; lia|exact Er']].
    cbn [map app decrypt_loop].
    rewrite Hks. cbn [lift gbind]. rewrite HC. cbn [gbind].
    rewrite Hr1. cbn [gbind yield]. rewrite Hdec.
    cbn [app List.length]. rewrite Nat2Z.inj_succ.
    do 4 f_equal. lia.
Qed.

(** The finalization of [decrypt] on any stream made of a header block,
    full blocks and a last element. *)
Lemma decrypt_finalized_any (s : session) (hb : bytes) (body : list bytes)
    (received : bytes) :
  supported_block_size (block_size (cipher s)) ->
  (forall x, List.length x = block_size (cipher s) ->
             List.length (encrypt_block (cipher s) x) = block_size (cipher s)) ->
  List.length (nonce s) = (block_size (cipher s) / 2)%nat ->
  (List.length (header s) <= block_size (cipher s))%nat ->
  (List.length hb <= block_size (cipher s))%nat ->
  Forall (fun b => List.length b = block_size (cipher s)) body ->
  Z.of_nat (List.length body) < 256 ^ Z.of_nat (block_size (cipher s) / 2) ->
  decrypt_finalized_with s (hb :: body ++ [received])
    (Z.of_nat (List.length body) + 1)
    (Z.shiftl (Z.of_nat (List.length (header s)))
              (Z.of_nat (num_bits_of s / 2))
     + (Z.of_nat (List.length body) + 1)).
Proof.
  intros Hbs Hcipher Hnonce Hheader Hhb Hfull Hcount.
  destruct (supported_table _ Hbs) as (p & table).
  fold (num_bits_of s) in table.
  assert (Hs : session_ok s p) by (unfold session_ok; auto).
  assert (H256 : 0 < 256 ^ Z.of_nat (List.length (nonce s)))
    by (apply Z.pow_pos_nonneg; lia).
  destruct (gcm_xor_block_ok s p 0 Hs ltac:(lia)) as (Hxb & Lxb).
  destruct (GP_bytes s p (keystream s 0) Hs ltac:(lia)) as (Hek & Eek).
  destruct (GP_bytes s p hb Hs Hhb) as (HA & EA).
  destruct (hash_subkey_ok s p Hs) as (Ek_0 & HEk & EEk).
  destruct (mult_elt _ p table _ _ EA EEk) as (acc0 & Hacc0 & Eacc0).
  destruct (decrypt_loop_any s p Ek_0 Hs EEk body 1 acc0 received None
              Hfull Eacc0 ltac:(lia) ltac:(rewrite Hnonce; lia))
    as (pts & acc & Hdec & Lpts & Eacc).
  replace (1 + Z.of_nat (List.length body))
    with (Z.of_nat (List.length body) + 1) in Hdec by lia.
  destruct (gmac_bytes_ok s p _ Ek_0 acc
              (Z.of_nat (List.length body) + 1) Hs Hheader Eek EEk Eacc)
    as (tag & Htag & Ltag); [rewrite Hnonce; lia|].
  pose proof (tag_with_of_gmac_bytes _ _ _ _ _ _ Htag Ltag) as T.
  exists hb, body, received. do 2 eexists. exists acc0, pts, acc, tag.
  split; [reflexivity|]. split; [|split; [|split; [exact T|]]].
  - unfold setup. split; [eexists; split; [exact Hxb|exact Hek]|].
    split; [exact HEk|]. eexists. split; [exact HA|exact Hacc0].
  - rewrite eof_signal_iterator_snoc. exact Hdec.
  - unfold decrypt. rewrite Hxb. cbn [lift gbind]. rewrite Hek. cbn [gbind].
    rewrite eof_signal_iterator_framed. cbn [negb assert gbind].
    rewrite HA. cbn [gbind]. rewrite HEk. cbn [gbind].
    rewrite Hacc0. cbn [gbind]. rewrite Hdec. cbn [gbind lift].
    rewrite Htag. cbn [gret app]. now rewrite app_nil_r.
Qed.

(** C4, amended.  In the finalization of [encrypt] and of [decrypt] the
    length block XORed into the accumulator before the last multiplication
    by H has the value [(header_length << (bitwidth / 2)) + counter], where
    the counter, started at 1, is the number of data blocks plus one; the
    tag is [(accumulator XOR length_element) x H XOR EK_nonce], one block.
    [encrypt] yields it last.  [decrypt] makes it in the same way from the
    stream it is given and compares it with the last element of that
    stream: on the stream of [encrypt], on that stream with any other last
    element (the outcome is then the comparison of that element with the
    tag [encrypt] yielded), and on every stream made of a header block,
    as many full blocks and a last element. *)
Theorem gcm_finalization (s : session) (pt : list bytes) :
  supported_block_size (block_size (cipher s)) ->
  (forall x, List.length x = block_size (cipher s) ->
             List.length (encrypt_block (cipher s) x) = block_size (cipher s)) ->
  List.length (nonce s) = (block_size (cipher s) / 2)%nat ->
  (List.length (header s) <= block_size (cipher s))%nat ->
  Forall (fun b => List.length b = block_size (cipher s)) pt ->
  Z.of_nat (List.length pt) < 256 ^ Z.of_nat (block_size (cipher s) / 2) ->
  let counter := Z.of_nat (List.length pt) + 1 in
  let length_value :=
    Z.shiftl (Z.of_nat (List.length (header s)))
             (Z.of_nat (num_bits_of s / 2))
    + counter in
  encrypt_finalized_with s pt counter length_value /\
  decrypt_finalized_with s (yielded (encrypt s pt)) counter length_value /\
  (forall received : bytes,
     decrypt_finalized_with s
       (removelast (yielded (encrypt s pt)) ++ [received])
       counter length_value /\
     decrypt s (removelast (yielded (encrypt s pt)) ++ [received])
     = (pt, Ok (bytes_eqb (last (yielded (encrypt s pt)) []) received))) /\
  (forall (hb : bytes) (body : list bytes) (received : bytes),
     (List.length hb <= block_size (cipher s))%nat ->
     Forall (fun b => List.length b = block_size (cipher s)) body ->
     List.length body = List.length pt ->
     decrypt_finalized_with s (hb :: body ++ [received]) counter length_value).
Proof.
  intros Hbs Hcipher Hnonce Hheader Hfull Hcount counter length_value.
  destruct (gcm_run_exists s pt Hbs Hcipher Hnonce Hheader Hfull Hcount)
    as (ek & A & Ek_0 & acc0 & acc & cts & tag & R).
  destruct R as (Hek & HA & HEk & Hacc0 & Henc & Lcts & Hdec & Htag & Ltag & E & D).
  assert (Hc : 1 + Z.of_nat (List.length pt) = counter)
    by (unfold counter; lia).
  rewrite Hc in *.
  assert (Hlv : extra_block_of s counter = length_value) by reflexivity.
  pose proof (tag_with_of_gmac_bytes _ _ _ _ _ _ Htag Ltag) as T.
  rewrite Hlv in T.
  assert (Hhb : 0 <= from_bytes_little (header s)
                < 256 ^ Z.of_nat (block_size (cipher s))).
  { pose proof (from_bytes_bound (header s)) as Hb. split; [lia|].
    apply Z.lt_le_trans with (1 := proj2 Hb). apply Z.pow_le_mono_r; lia. }
  set (hb := le_digits (block_size (cipher s)) (from_bytes_little (header s))) in *.
  assert (Hsetup : setup s hb ek Ek_0 acc0).
  { unfold setup, hb. rewrite from_le_digits by assumption. eauto 6. }
  assert (Dany : forall received,
             decrypt s (hb :: cts ++ [received])
             = (pt, Ok (bytes_eqb tag received))).
  { intros received. destruct Hek as (xb & Hxb & Hek).
    unfold decrypt. rewrite Hxb. cbn [lift gbind]. rewrite Hek. cbn [gbind].
    rewrite eof_signal_iterator_framed. cbn [negb assert gbind].
    unfold hb. rewrite from_le_digits by assumption. rewrite HA. cbn [gbind].
    rewrite HEk. cbn [gbind]. rewrite Hacc0. cbn [gbind].
    rewrite Hdec. cbn [gbind lift]. rewrite Htag. cbn [gret app].
    now rewrite app_nil_r. }
  assert (Fany : forall received,
             decrypt_finalized_with s (hb :: cts ++ [received])
               counter length_value).
  { intros received.
    exists hb, cts, received, ek, Ek_0, acc0, pt, acc, tag.
    split; [reflexivity|]. split; [exact Hsetup|].
    split; [rewrite eof_signal_iterator_snoc; apply Hdec|].
    split; [exact T|apply Dany]. }
  assert (Hfront : removelast (hb :: cts ++ [tag]) = hb :: cts)
    by (change (hb :: cts ++ [tag]) with ((hb :: cts) ++ [tag]);
        apply removelast_last).
  assert (Hlast : last (hb :: cts ++ [tag]) [] = tag)
    by (change (hb :: cts ++ [tag]) with ((hb :: cts) ++ [tag]);
        apply last_last).
  split; [|split; [|split]].
  - exists ek, Ek_0, acc0, cts, acc, tag.
    split; [unfold setup; eauto 6|]. split; [exact Henc|]. split; [exact T|].
    rewrite E. unfold outcome, yielded. cbn [fst snd]. split; [reflexivity|].
    exact Hlast.
  - rewrite E. unfold yielded. cbn [fst]. apply Fany.
  - intros received. rewrite E. unfold yielded. cbn [fst].
    rewrite Hfront, Hlast. cbn [app]. split; [apply Fany|apply Dany].
  - intros hb' body received Lhb Fbody Lbody.
    assert (Hcount' : Z.of_nat (List.length body)
                      < 256 ^ Z.of_nat (block_size (cipher s) / 2))
      by (rewrite Lbody; exact Hcount).
    pose proof (decrypt_finalized_any s hb' body received Hbs Hcipher Hnonce
                  Hheader Lhb Fbody Hcount') as F.
    rewrite Lbody in F. exact F.
Qed.

Lemma gcm_finalization_witness :
  encrypt_finalized_with gcm8 blocks8 3 8589934595 /\
  decrypt_finalized_with gcm8 (yielded (encrypt gcm8 blocks8)) 3 8589934595 /\
  (decrypt_finalized_with gcm8
     (removelast (yielded (encrypt gcm8 blocks8)) ++ [repeat x00 8])
     3 8589934595 /\
   decrypt gcm8 (removelast (yielded (encrypt gcm8 blocks8)) ++ [repeat x00 8])
   = (blocks8,
      Ok (bytes_eqb (last (yielded (encrypt gcm8 blocks8)) []) (repeat x00 8)))) /\
  decrypt_finalized_with gcm8
    ([xaa; xbb] :: blocks8 ++ [repeat x00 8]) 3 8589934595.
Proof.
  destruct (gcm_finalization gcm8 blocks8) as (H1 & H2 & H3 & H4).
  - left. reflexivity.
  - intros x Hx. exact (eq_trans (xor_cipher_length 8 x5a x) Hx).
  - reflexivity.
  - cbn. lia.
  - repeat constructor.
  - vm_compute. reflexivity.
  - split; [exact H1|]. split; [exact H2|]. split; [exact (H3 (repeat x00 8))|].
    apply (H4 [xaa; xbb] blocks8 (repeat x00 8)).
    + cbn. lia.
    + repeat constructor.
    + reflexivity.
Defined.

End GCMProofs.

(** * Further properties of the code *)

(** ** The algebra of [xor] and [mult] *)

Module GaloisAlgebra.

Import Galois GaloisSpec GF2 GaloisProofs GaloisElem.

(** *** An object is determined by its width, polynomial and value *)

Lemma bits_of_bin_value l :
  Forall bit l -> bits_of (List.length l) (bin_value l) = l.
Proof.
  induction l as [|x l IH] using rev_ind; intros F.
  - reflexivity.
  - apply Forall_app in F. destruct F as [Fl Fx].
    inversion Fx as [|? ? Bx _]; subst.
    rewrite length_app, Nat.add_1_r, bin_value_snoc. cbn [bits_of].
    assert (Hd : (2 * bin_value l + x) / 2 = bin_value l)
      by (destruct Bx; subst; Z.div_mod_to_equations; lia).
    assert (Hm : (2 * bin_value l + x) mod 2 = x)
      by (destruct Bx; subst; Z.div_mod_to_equations; lia).
    now rewrite Hd, Hm, IH.
Qed.

Lemma bin_value_inj a b :
  List.length a = List.length b -> Forall bit a -> Forall bit b ->
  bin_value a = bin_value b -> a = b.
Proof.
  intros L Fa Fb V.
  rewrite <- (bits_of_bin_value a Fa), <- (bits_of_bin_value b Fb).
  now rewrite L, V.
Qed.

Lemma gp_ext c c' :
  wf c -> wf c' -> length c = length c' -> irr_pol c = irr_pol c' ->
  bin_value (bits c) = bin_value (bits c') -> c = c'.
Proof.
  destruct c as [p n l], c' as [p' n' l'].
  intros (L & F & _) (L' & F' & _). cbn [length irr_pol bits] in *.
  intros -> -> V. f_equal. apply bin_value_inj; auto. congruence.
Qed.

Lemma wf_value a : wf a -> 0 <= bin_value (bits a) < 2 ^ Z.of_nat (length a).
Proof.
  intros (L & F & _). rewrite <- L. now apply bin_value_bound.
Qed.

(** What a successful construction has checked, and what it built. *)
Lemma init_inv n v irr e :
  __init__ n v irr = Ok e ->
  exists p,
    match irr with [] => irreducible_polynomials n | _ :: _ => Some irr end = Some p /\
    py_max p = Ok (Z.of_nat n) /\ 0 <= v < 2 ^ Z.of_nat n /\
    e = mkGP p n (bits_of n v).
Proof.
  unfold __init__. intros H.
  assert (Hp : exists p,
             match irr with [] => irreducible_polynomials n | _ :: _ => Some irr end
             = Some p /\
             match irr with
             | [] => match irreducible_polynomials n with
                     | Some p => Ok p
                     | None => Raise AssertionError
                     end
             | _ :: _ => Ok irr
             end = Ok p).
  { destruct irr as [|x irr].
    - destruct (irreducible_polynomials n) as [p|]; [now exists p|discriminate].
    - now eexists. }
  destruct Hp as (p & Hs & Hp). rewrite Hp in H. cbn [bind] in H.
  exists p. split; [exact Hs|].
  destruct (0 <=? v) eqn:Hv; cbn [assert bind] in H; [|discriminate].
  destruct (py_max p) as [m|] eqn:Hm; cbn [bind] in H; [|discriminate].
  destruct (Z.eqb_spec m (Z.of_nat n)) as [->|]; cbn [assert bind] in H; [|discriminate].
  apply Z.leb_le in Hv.
  destruct (Z_lt_le_dec v (2 ^ Z.of_nat n)) as [Hlt|Hge].
  - rewrite <- (app_nil_r (zeros n)), init_loop_ok, app_nil_r in H by lia.
    cbn [bind] in H. inversion H; subst. repeat split; auto; lia.
  - rewrite init_loop_overflow in H by lia. discriminate.
Qed.

(** *** The carry-less product is a commutative, associative product *)

Lemma mul_pos_2_l a q : mul_pos (2 * a) q = 2 * mul_pos a q.
Proof.
  induction q as [q IH|q IH|]; cbn [mul_pos].
  - now rewrite IH, <- double_lxor.
  - now rewrite IH.
  - reflexivity.
Qed.

Lemma mul_2_l a b : mul (2 * a) b = 2 * mul a b.
Proof. destruct b; cbn [mul]; [reflexivity|apply mul_pos_2_l|reflexivity]. Qed.

Lemma lxor_swap x y u v :
  Z.lxor (Z.lxor x y) (Z.lxor u v) = Z.lxor (Z.lxor x u) (Z.lxor y v).
Proof.
  apply Z.bits_inj'. intros m _. rewrite !Z.lxor_spec.
  destruct (Z.testbit x m), (Z.testbit y m), (Z.testbit u m), (Z.testbit v m);
    reflexivity.
Qed.

Lemma mul_pos_lxor_l a a' q :
  mul_pos (Z.lxor a a') q = Z.lxor (mul_pos a q) (mul_pos a' q).
Proof.
  induction q as [q IH|q IH|]; cbn [mul_pos].
  - rewrite IH, double_lxor. apply lxor_swap.
  - now rewrite IH, double_lxor.
  - reflexivity.
Qed.

Lemma mul_lxor_l a a' b : mul (Z.lxor a a') b = Z.lxor (mul a b) (mul a' b).
Proof. destruct b; cbn [mul]; [reflexivity|apply mul_pos_lxor_l|reflexivity]. Qed.

Lemma mul_1_r a : mul a 1 = a.
Proof. reflexivity. Qed.

Lemma mul_1_l b : 0 <= b -> mul 1 b = b.
Proof.
  destruct b as [|q|q]; intros Hb; [reflexivity| |lia]. cbn [mul].
  induction q as [q IH|q IH|]; cbn [mul_pos].
  - rewrite IH by lia. reflexivity.
  - rewrite IH by lia. reflexivity.
  - reflexivity.
Qed.

Lemma mul_comm a b : 0 <= a -> 0 <= b -> mul a b = mul b a.
Proof.
  intros Ha Hb. destruct a as [|q|q]; [|clear Ha|lia].
  - now rewrite mul_0_l, mul_0_r.
  - induction q as [q IH|q IH|].
    + change (Z.pos q~1) with (Z.lxor (2 * Z.pos q) 1) at 1.
      rewrite mul_lxor_l, mul_2_l, IH, mul_1_l by lia.
      cbn [mul mul_pos]. apply Z.lxor_comm.
    + change (Z.pos q~0) with (2 * Z.pos q) at 1.
      rewrite mul_2_l, IH. reflexivity.
    + now rewrite mul_1_l.
Qed.

Lemma mul_nonneg a b : 0 <= a -> 0 <= mul a b.
Proof.
  intros Ha. destruct b as [|q|q]; cbn [mul]; [lia| |lia].
  induction q as [q IH|q IH|]; cbn [mul_pos]; [|lia|lia].
  apply Z.lxor_nonneg. lia.
Qed.

Lemma mul_assoc a b c :
  0 <= a -> 0 <= b -> mul (mul a b) c = mul a (mul b c).
Proof.
  intros Ha Hb. destruct c as [|q|q]; [now rewrite !mul_0_r| |reflexivity].
  induction q as [q IH|q IH|].
  - change (mul b (Z.pos q~1)) with (Z.lxor b (2 * mul b (Z.pos q))).
    change (mul (mul a b) (Z.pos q~1))
      with (Z.lxor (mul a b) (2 * mul (mul a b) (Z.pos q))).
    assert (0 <= mul b (Z.pos q)) by now apply mul_nonneg.
    rewrite mul_lxor, mul_double, IH by lia. reflexivity.
  - change (mul b (Z.pos q~0)) with (2 * mul b (Z.pos q)).
    change (mul (mul a b) (Z.pos q~0)) with (2 * mul (mul a b) (Z.pos q)).
    assert (0 <= mul b (Z.pos q)) by now apply mul_nonneg.
    rewrite mul_double, IH by lia. reflexivity.
  - reflexivity.
Qed.

(** *** The reduction is linear, and leaves a reduced value alone *)

Lemma reduce_lxor k n p : forall u v,
  reduce k n p (Z.lxor u v) = Z.lxor (reduce k n p u) (reduce k n p v).
Proof.
  induction k as [|k IH]; intros u v; cbn [reduce]; [reflexivity|].
  rewrite <- IH. f_equal. rewrite Z.lxor_spec.
  destruct (Z.testbit u (n + Z.of_nat k)), (Z.testbit v (n + Z.of_nat k));
    cbn [xorb]; [|apply Z.bits_inj'; intros m _; rewrite !Z.lxor_spec..|reflexivity].
  - rewrite lxor_swap, Z.lxor_nilpotent, Z.lxor_0_r. reflexivity.
  - destruct (Z.testbit u m), (Z.testbit v m),
      (Z.testbit (Z.shiftl p (Z.of_nat k)) m); reflexivity.
  - destruct (Z.testbit u m), (Z.testbit v m),
      (Z.testbit (Z.shiftl p (Z.of_nat k)) m); reflexivity.
Qed.

Lemma reduce_small k (n : nat) p : forall v,
  0 <= v < 2 ^ Z.of_nat n -> reduce k (Z.of_nat n) p v = v.
Proof.
  induction k as [|k IH]; intros v Hv; cbn [reduce]; [reflexivity|].
  assert (Hb : Z.testbit v (Z.of_nat n + Z.of_nat k) = false).
  { apply (proj1 (lt_pow2_bits v (Z.of_nat n) ltac:(lia) ltac:(lia))); lia. }
  rewrite Hb. now apply IH.
Qed.

(** *** The polynomial of a well-formed object has degree [length] *)

Lemma testbit_exponents irr :
  Forall (fun e => 0 <= e) irr -> forall acc m,
  Z.testbit (fold_left (fun acc e => Z.setbit acc e) irr acc) m
  = Z.testbit acc m || existsb (Z.eqb m) irr.
Proof.
  induction 1 as [|e irr He _ IH]; intros acc m; cbn [fold_left existsb].
  - now rewrite orb_false_r.
  - rewrite IH, Z.setbit_eqb by lia. rewrite (Z.eqb_sym m e).
    destruct (e =? m), (Z.testbit acc m); reflexivity.
Qed.

Lemma exponents_nonneg irr : forall acc,
  0 <= acc -> 0 <= fold_left (fun acc e => Z.setbit acc e) irr acc.
Proof.
  induction irr as [|e irr IH]; intros acc Ha; cbn [fold_left]; [exact Ha|].
  apply IH. rewrite Z.setbit_spec'. apply Z.lor_nonneg. split; [exact Ha|].
  apply Z.pow_nonneg. lia.
Qed.

Lemma of_exponents_degree a :
  wf a -> Forall (fun e => 0 <= e) (irr_pol a) ->
  2 ^ Z.of_nat (length a) <= of_exponents (irr_pol a)
    < 2 ^ (Z.of_nat (length a) + 1).
Proof.
  intros (_ & _ & _ & Hmax) Hnn.
  destruct (py_max_spec _ _ Hmax) as [Hin Hle].
  set (P := of_exponents (irr_pol a)).
  assert (HP : 0 <= P) by (apply exponents_nonneg; lia).
  assert (Hbit : forall m, Z.testbit P m = existsb (Z.eqb m) (irr_pol a)).
  { intros m. unfold P, of_exponents. rewrite testbit_exponents by assumption.
    now rewrite Z.testbit_0_l. }
  split.
  - assert (Hn : Z.testbit P (Z.of_nat (length a)) = true).
    { rewrite Hbit. apply existsb_exists. eexists. split; [exact Hin|].
      apply Z.eqb_refl. }
    assert (Hpos : 0 < P).
    { destruct (Z.eq_dec P 0) as [E|]; [|lia].
      rewrite E, Z.testbit_0_l in Hn. discriminate. }
    assert (Hlog : Z.of_nat (length a) <= Z.log2 P).
    { destruct (Z_le_gt_dec (Z.of_nat (length a)) (Z.log2 P)); [assumption|].
      rewrite Z.bits_above_log2 in Hn by lia. discriminate. }
    apply Z.le_trans with (2 ^ Z.log2 P).
    + apply Z.pow_le_mono_r; lia.
    + apply Z.log2_spec. exact Hpos.
  - apply lt_pow2_bits; [exact HP|lia|]. intros m Hm. rewrite Hbit.
    destruct (existsb (Z.eqb m) (irr_pol a)) eqn:E; [|reflexivity].
    apply existsb_exists in E. destruct E as (e & He & Heq).
    apply Z.eqb_eq in Heq. subst e.
    rewrite Forall_forall in Hle. specialize (Hle _ He). lia.
Qed.

(** *** A negative exponent *)

Lemma irr_pol_fill_negative L irr : forall l,
  List.length l = L ->
  Forall (fun e => e <= Z.of_nat L - 1) irr ->
  Exists (fun e => e < 0) irr ->
  irr_pol_fill L irr l = Raise IndexError.
Proof.
  induction irr as [|e irr IH]; intros l Hl Hle Hex.
  - inversion Hex.
  - inversion Hle as [|? ? He Hle']; subst. cbn [irr_pol_fill].
    destruct (Z_lt_le_dec e 0) as [Hneg|Hnn].
    + unfold py_setitem.
      replace (Z.of_nat (List.length l) - 1 - e <? Z.of_nat (List.length l))
        with false by (symmetry; apply Z.ltb_ge; lia).
      replace (Z.of_nat (List.length l) - 1 - e <? 0)
        with false by (symmetry; apply Z.ltb_ge; lia).
      rewrite !andb_false_r. reflexivity.
    + rewrite py_setitem_ok by lia. cbn [bind].
      apply IH; [now rewrite length_list_set|assumption|].
      inversion Hex; subst; [lia|assumption].
Qed.

(** *** The product modulo the polynomial *)

Lemma mulmod_comm n p a b :
  0 <= a -> 0 <= b -> mulmod n p a b = mulmod n p b a.
Proof. intros Ha Hb. unfold mulmod. now rewrite mul_comm. Qed.

Lemma mulmod_1_r n p a : 0 <= a < 2 ^ Z.of_nat n -> mulmod n p a 1 = a.
Proof. intros Ha. unfold mulmod. rewrite mul_1_r. now apply reduce_small. Qed.

Lemma mulmod_0_r n p a : mulmod n p a 0 = 0.
Proof.
  unfold mulmod. rewrite mul_0_r. apply reduce_small.
  split; [lia|]. apply Z.pow_pos_nonneg; lia.
Qed.

Lemma mulmod_lxor_l n p a a' b :
  mulmod n p (Z.lxor a a') b = Z.lxor (mulmod n p a b) (mulmod n p a' b).
Proof. unfold mulmod. now rewrite mul_lxor_l, reduce_lxor. Qed.

Lemma mulmod_lxor_r n p a b b' :
  0 <= b -> 0 <= b' ->
  mulmod n p a (Z.lxor b b') = Z.lxor (mulmod n p a b) (mulmod n p a b').
Proof. intros Hb Hb'. unfold mulmod. now rewrite mul_lxor, reduce_lxor. Qed.

(** Reducing a factor first does not change the remainder of a product. *)
Lemma remainder_absorb n p u w r :
  2 ^ Z.of_nat n <= p < 2 ^ (Z.of_nat n + 1) ->
  0 <= w < 2 ^ Z.of_nat n ->
  remainder n p u r -> remainder n p (mul u w) (mulmod n p r w).
Proof.
  intros Hp Hw ([Hr0 Hr1] & q & Hq & Hu).
  destruct (mulmod_remainder n p Hp r w ltac:(lia) Hw)
    as (Hm & q2 & Hq2 & Hrw).
  split; [exact Hm|]. exists (Z.lxor (mul q w) q2). split.
  - apply Z.lxor_nonneg. assert (0 <= mul q w) by now apply mul_nonneg. lia.
  - assert (0 <= mul q w) by now apply mul_nonneg.
    rewrite Hu, mul_lxor_l, Hrw, mul_assoc, mul_lxor, Z.lxor_assoc by lia.
    reflexivity.
Qed.

Lemma mulmod_assoc n p a b c :
  2 ^ Z.of_nat n <= p < 2 ^ (Z.of_nat n + 1) ->
  0 <= a < 2 ^ Z.of_nat n -> 0 <= b < 2 ^ Z.of_nat n ->
  0 <= c < 2 ^ Z.of_nat n ->
  mulmod n p (mulmod n p a b) c = mulmod n p a (mulmod n p b c).
Proof.
  intros Hp Ha Hb Hc.
  pose proof (mulmod_remainder n p Hp a b Ha Hb) as Rab.
  pose proof (mulmod_remainder n p Hp b c Hb Hc) as Rbc.
  pose proof (remainder_absorb n p _ c _ Hp Hc Rab) as L.
  pose proof (remainder_absorb n p _ a _ Hp Ha Rbc) as R.
  destruct Rbc as (Bbc & _).
  rewrite (mulmod_comm n p a (mulmod n p b c)) by lia.
  apply (remainder_unique n p Hp (mul (mul a b) c)); [exact L|].
  rewrite mul_assoc, (mul_comm a) by (try apply mul_nonneg; lia).
  exact R.
Qed.

(** *** Objects by value *)

Lemma elem_wf p n v :
  p <> [] -> py_max p = Ok (Z.of_nat n) -> wf (elem p n v).
Proof.
  intros Hne Hmax. unfold wf, elem. cbn [bits length irr_pol].
  split; [apply length_bits_of|]. split; [apply Forall_bit_bits_of|].
  split; assumption.
Qed.

Lemma val_elem p n v : 0 <= v < 2 ^ Z.of_nat n -> val (elem p n v) = v.
Proof. intros Hv. unfold val, elem. cbn [bits]. now apply bin_value_bits_of_small. Qed.

Lemma elt_poly n p a : GCMSpec.elt n p a -> p <> [] /\ py_max p = Ok (Z.of_nat n).
Proof. intros ((_ & _ & Hne & Hmax) & <- & <-). now split. Qed.

Lemma elt_val n p a : GCMSpec.elt n p a -> 0 <= val a < 2 ^ Z.of_nat n.
Proof. intros (W & <- & _). now apply wf_value. Qed.

Lemma elt_elem n p a v : GCMSpec.elt n p a -> GCMSpec.elt n p (elem p n v).
Proof.
  intros E. destruct (elt_poly _ _ _ E) as [Hne Hmax].
  split; [now apply elem_wf|]. now split.
Qed.

Lemma elt_eq n p a : GCMSpec.elt n p a -> a = elem p n (val a).
Proof.
  intros E. pose proof (elt_val _ _ _ E) as B.
  pose proof (elt_elem _ _ _ (val a) E) as (W' & _).
  destruct E as (W & <- & <-).
  apply gp_ext; [exact W|exact W'|reflexivity|reflexivity|].
  symmetry. now apply val_elem.
Qed.

Lemma elt_self a : wf a -> GCMSpec.elt (length a) (irr_pol a) a.
Proof. intros W. split; [exact W|]. now split. Qed.

Lemma xor_elt_val n p q a b :
  GCMSpec.elt n p a -> GCMSpec.elt n q b ->
  xor a b = Ok (elem p n (Z.lxor (val a) (val b))) /\
  0 <= Z.lxor (val a) (val b) < 2 ^ Z.of_nat n.
Proof.
  intros Ea (Wb & Lb & _). pose proof Ea as (Wa & La & Pa).
  assert (L : length a = length b) by congruence.
  assert (Hc : xor a b = Ok (mkGP (irr_pol a) (length a) (zip_xor (bits a) (bits b))))
    by now apply xor_ok.
  destruct (xor_wf a b _ Wa Wb L Hc) as (Wc & Lc & Pc).
  cbn [length irr_pol] in Lc, Pc.
  assert (Ec : GCMSpec.elt n p (mkGP (irr_pol a) (length a) (zip_xor (bits a) (bits b))))
    by (split; [exact Wc|split; [exact La|exact Pa]]).
  pose proof Wa as (La' & Fa & _). pose proof Wb as (Lb' & Fb & _).
  assert (V : val (mkGP (irr_pol a) (length a) (zip_xor (bits a) (bits b)))
              = Z.lxor (val a) (val b)).
  { unfold val. cbn [bits]. apply bin_value_zip_xor; auto. lia. }
  pose proof (elt_val _ _ _ Ec) as B. rewrite V in B.
  split; [|exact B]. rewrite Hc, (elt_eq _ _ _ Ec), V. reflexivity.
Qed.

Lemma mult_elt_val n p q a b :
  GCMSpec.elt n p a -> GCMSpec.elt n q b -> Forall (fun e => 0 <= e) p ->
  mult a b = Ok (elem p n (mulmod n (of_exponents p) (val a) (val b))) /\
  0 <= mulmod n (of_exponents p) (val a) (val b) < 2 ^ Z.of_nat n.
Proof.
  intros (Wa & La & Pa) (Wb & Lb & _) Hnn. subst n p.
  destruct (mult_value a b Wa Wb ltac:(congruence) Hnn)
    as (c & Hc & Wc & Lc & Pc & Vc).
  assert (Ec : GCMSpec.elt (length a) (irr_pol a) c)
    by (split; [exact Wc|now split]).
  fold (val a) in Vc. fold (val b) in Vc. fold (val c) in Vc.
  pose proof (elt_val _ _ _ Ec) as B. rewrite Vc in B.
  split; [|exact B]. rewrite Hc, (elt_eq _ _ _ Ec), Vc. reflexivity.
Qed.

Lemma init_elt n p a v :
  GCMSpec.elt n p a -> 0 <= v < 2 ^ Z.of_nat n -> __init__ n v p = Ok (elem p n v).
Proof.
  intros E Hv. destruct (elt_poly _ _ _ E) as [Hne Hmax]. now apply init_custom.
Qed.

Lemma degree_elt n p a :
  GCMSpec.elt n p a -> Forall (fun e => 0 <= e) p ->
  2 ^ Z.of_nat n <= of_exponents p < 2 ^ (Z.of_nat n + 1).
Proof. intros (W & <- & <-) Hnn. now apply of_exponents_degree. Qed.

Lemma x57_wf : wf x57.
Proof. apply elem_wf; [discriminate|reflexivity]. Qed.

Lemma x83_wf : wf x83.
Proof. apply elem_wf; [discriminate|reflexivity]. Qed.

Lemma x1b_wf : wf x1b.
Proof. apply elem_wf; [discriminate|reflexivity]. Qed.

Lemma gf8_nonneg : Forall (fun e => 0 <= e) [8; 4; 3; 1; 0].
Proof. repeat constructor; lia. Qed.

(** *** The constructor *)

(** The constructor raises nothing but AssertionError. *)
Lemma init_error n v irr x :
  __init__ n v irr = Raise x -> x = AssertionError.
Proof.
  unfold __init__.
  assert (Hp : (exists p, p <> [] /\
               match irr with
               | [] => match irreducible_polynomials n with
                       | Some p => Ok p
                       | None => Raise AssertionError
                       end
               | _ :: _ => Ok irr
               end = Ok p) \/
               match irr with
               | [] => match irreducible_polynomials n with
                       | Some p => Ok p
                       | None => Raise AssertionError
                       end
               | _ :: _ => Ok irr
               end = Raise AssertionError).
  { destruct irr as [|y irr].
    - destruct (irreducible_polynomials n) as [p|] eqn:E; [left|now right].
      exists p. split; [|reflexivity]. now destruct (table_max _ _ E).
    - left. eexists. split; [|reflexivity]. discriminate. }
  destruct Hp as [(p & Hne & ->)| ->]; cbn [bind]; [|congruence].
  destruct (0 <=? v) eqn:Hv; cbn [assert bind]; [|congruence].
  apply Z.leb_le in Hv.
  destruct p as [|y p]; [congruence|]. cbn [py_max bind].
  destruct (fold_left Z.max p y =? Z.of_nat n); cbn [assert bind];
    [|congruence].
  destruct (Z_lt_le_dec v (2 ^ Z.of_nat n)) as [Hlt|Hge].
  - rewrite <- (app_nil_r (zeros n)), init_loop_ok by lia.
    cbn [bind]. discriminate.
  - rewrite init_loop_overflow by lia. cbn [bind]. congruence.
Qed.

(** X1. The constructor succeeds exactly when the polynomial it settles on
    (the table's for the default argument, the given one otherwise) exists
    and has the width as its largest exponent and the initial value lies in
    [0, 2^num_bits); the object then has that polynomial, that width and the
    bits of the value.  In every other case it raises AssertionError, and
    no other exception. *)
Theorem init_succeeds_iff (num_bits : nat) (initial_value : Z)
    (irreducible_polynomial : list Z) :
  (forall e,
     __init__ num_bits initial_value irreducible_polynomial = Ok e <->
     exists p,
       effective_polynomial num_bits irreducible_polynomial = Some p /\
       py_max p = Ok (Z.of_nat num_bits) /\
       0 <= initial_value < 2 ^ Z.of_nat num_bits /\
       e = elem p num_bits initial_value) /\
  (forall x,
     __init__ num_bits initial_value irreducible_polynomial = Raise x ->
     x = AssertionError).
Proof.
  split.
  - intros e. split.
    + intros H. destruct (init_inv _ _ _ _ H) as (p & Hp & Hmax & Hv & ->).
      exists p. repeat split; auto; lia.
    + intros (p & Hp & Hmax & Hv & ->). unfold effective_polynomial in Hp.
      destruct irreducible_polynomial as [|x irr].
      * now apply init_default.
      * inversion Hp; subst. apply init_custom; [discriminate|assumption|assumption].
  - intros x. apply init_error.
Qed.

(** X2. Building an object again from its own value, width and polynomial
    gives the object itself: with [init_intval_inverse] the constructor and
    [intval] are inverse to each other in both directions. *)
Theorem init_of_intval (e : GaloisPolynomial) :
  wf e -> (0 < length e)%nat ->
  (v <- intval e ;; __init__ (length e) v (irr_pol e)) = Ok e.
Proof.
  intros W Hpos. destruct (intval_ok e W Hpos) as [-> Hv]. cbn [bind].
  pose proof (elt_self e W) as E.
  rewrite (init_elt _ _ _ _ E Hv). f_equal. symmetry. exact (elt_eq _ _ _ E).
Qed.

Lemma init_of_intval_witness :
  (v <- intval x57 ;; __init__ (length x57) v (irr_pol x57)) = Ok x57.
Proof. apply init_of_intval; [exact x57_wf|cbn; lia]. Defined.

(** *** [xor] *)

(** X3. [xor] is the bitwise XOR of the two values; the result has the
    width and the polynomial of the receiver. *)
Theorem xor_intval (a b : GaloisPolynomial) :
  wf a -> wf b -> length a = length b -> (0 < length a)%nat ->
  exists va vb c,
    intval a = Ok va /\ intval b = Ok vb /\ xor a b = Ok c /\
    length c = length a /\ irr_pol c = irr_pol a /\
    intval c = Ok (Z.lxor va vb).
Proof.
  intros Wa Wb L Hpos.
  destruct (intval_ok a Wa Hpos) as [Ia _].
  destruct (intval_ok b Wb ltac:(lia)) as [Ib _].
  pose proof (elt_self a Wa) as Ea.
  assert (Eb : GCMSpec.elt (length a) (irr_pol b) b)
    by (split; [exact Wb|now split]).
  destruct (xor_elt_val _ _ _ a b Ea Eb) as [Hc Bc].
  exists (val a), (val b), (elem (irr_pol a) (length a) (Z.lxor (val a) (val b))).
  repeat (split; [assumption || reflexivity|]).
  apply intval_init; assumption.
Qed.

Lemma xor_intval_witness :
  exists va vb c,
    intval x57 = Ok va /\ intval x83 = Ok vb /\ xor x57 x83 = Ok c /\
    length c = length x57 /\ irr_pol c = irr_pol x57 /\
    intval c = Ok (Z.lxor va vb).
Proof.
  apply xor_intval; [exact x57_wf|exact x83_wf|reflexivity|cbn; lia].
Defined.

(** X4. The laws of [xor] on objects of one width: it is associative, an
    object is its own inverse, the zero object is neutral, and it is
    commutative for objects of one polynomial (the result takes the
    polynomial of the receiver). *)
Theorem xor_laws (a b c : GaloisPolynomial) :
  wf a -> wf b -> wf c -> length a = length b -> length b = length c ->
  (t <- xor a b ;; xor t c) = (t <- xor b c ;; xor a t) /\
  xor a a = __init__ (length a) 0 (irr_pol a) /\
  (z <- __init__ (length a) 0 (irr_pol a) ;; xor a z) = Ok a /\
  (irr_pol a = irr_pol b -> xor a b = xor b a).
Proof.
  intros Wa Wb Wc Lab Lbc.
  pose proof (elt_self a Wa) as Ea.
  assert (Eb : GCMSpec.elt (length a) (irr_pol b) b)
    by (split; [exact Wb|now split]).
  assert (Ec : GCMSpec.elt (length a) (irr_pol c) c)
    by (split; [exact Wc|split; congruence]).
  pose proof (elt_val _ _ _ Ea) as Ba.
  destruct (xor_elt_val _ _ _ a b Ea Eb) as [Hab Bab].
  destruct (xor_elt_val _ _ _ b c Eb Ec) as [Hbc Bbc].
  assert (B0 : 0 <= 0 < 2 ^ Z.of_nat (length a)) by lia.
  split; [|split; [|split]].
  - rewrite Hab, Hbc. cbn [bind].
    rewrite (proj1 (xor_elt_val _ _ _ _ c (elt_elem _ _ _ _ Ea) Ec)).
    rewrite (proj1 (xor_elt_val _ _ _ a _ Ea (elt_elem _ _ _ _ Eb))).
    rewrite !val_elem by assumption. now rewrite Z.lxor_assoc.
  - rewrite (proj1 (xor_elt_val _ _ _ a a Ea Ea)), Z.lxor_nilpotent.
    symmetry. now apply (init_elt _ _ a).
  - rewrite (init_elt _ _ a) by assumption. cbn [bind].
    rewrite (proj1 (xor_elt_val _ _ _ a _ Ea (elt_elem _ _ _ 0 Ea))).
    rewrite val_elem, Z.lxor_0_r by assumption. f_equal. symmetry.
    exact (elt_eq _ _ _ Ea).
  - intros P. rewrite Hab, (proj1 (xor_elt_val _ _ _ b a Eb Ea)), P, Z.lxor_comm.
    reflexivity.
Qed.

Lemma xor_laws_witness :
  (t <- xor x57 x83 ;; xor t x1b) = (t <- xor x83 x1b ;; xor x57 t) /\
  xor x57 x57 = __init__ (length x57) 0 (irr_pol x57) /\
  (z <- __init__ (length x57) 0 (irr_pol x57) ;; xor x57 z) = Ok x57 /\
  xor x57 x83 = xor x83 x57.
Proof.
  destruct (xor_laws x57 x83 x1b x57_wf x83_wf x1b_wf eq_refl eq_refl)
    as (H1 & H2 & H3 & H4).
  split; [exact H1|]. split; [exact H2|]. split; [exact H3|].
  exact (H4 eq_refl).
Defined.

(** X5. [xor] and [mult] succeed exactly on two objects of one width (for
    [mult], with a polynomial without a negative exponent); on two widths
    both raise AssertionError. *)
Theorem width_check (a b : GaloisPolynomial) :
  wf a -> wf b ->
  ((exists c, xor a b = Ok c) <-> length a = length b) /\
  (Forall (fun e => 0 <= e) (irr_pol a) ->
   ((exists c, mult a b = Ok c) <-> length a = length b)) /\
  (length a <> length b ->
   xor a b = Raise AssertionError /\ mult a b = Raise AssertionError).
Proof.
  intros Wa Wb. pose proof (elt_self a Wa) as Ea.
  split; [|split].
  - split.
    + intros (c & Hc). now apply xor_same_length in Hc.
    + intros L.
      assert (Eb : GCMSpec.elt (length a) (irr_pol b) b)
        by (split; [exact Wb|now split]).
      destruct (xor_elt_val _ _ _ a b Ea Eb) as [H _]. eauto.
  - intros Hnn. split.
    + intros (c & Hc). now apply mult_same_length in Hc.
    + intros L.
      assert (Eb : GCMSpec.elt (length a) (irr_pol b) b)
        by (split; [exact Wb|now split]).
      destruct (mult_elt_val _ _ _ a b Ea Eb Hnn) as [H _]. eauto.
  - intros Hne. apply Nat.eqb_neq in Hne.
    unfold xor, mult, mult_reduced. rewrite Hne. split; reflexivity.
Qed.

Lemma wide5_wf : wf wide5.
Proof. apply elem_wf; [discriminate|reflexivity]. Qed.

Lemma width_check_witness :
  ((exists c, xor x57 x83 = Ok c) <-> length x57 = length x83) /\
  ((exists c, mult x57 x83 = Ok c) <-> length x57 = length x83) /\
  xor x57 wide5 = Raise AssertionError /\ mult x57 wide5 = Raise AssertionError.
Proof.
  destruct (width_check x57 x83 x57_wf x83_wf) as (H1 & H2 & _).
  destruct (width_check x57 wide5 x57_wf wide5_wf) as (_ & _ & H3).
  split; [exact H1|]. split; [exact (H2 gf8_nonneg)|].
  apply H3. cbn. lia.
Defined.

(** *** [mult] *)

(** X6. [mult] is commutative on two objects of one width and one
    polynomial. *)
Theorem mult_commutative (a b : GaloisPolynomial) :
  wf a -> wf b -> length a = length b -> irr_pol a = irr_pol b ->
  Forall (fun e => 0 <= e) (irr_pol a) ->
  mult a b = mult b a.
Proof.
  intros Wa Wb L P Hnn.
  pose proof (elt_self a Wa) as Ea.
  assert (Eb : GCMSpec.elt (length a) (irr_pol a) b)
    by (split; [exact Wb|now split]).
  pose proof (elt_val _ _ _ Ea). pose proof (elt_val _ _ _ Eb).
  rewrite (proj1 (mult_elt_val _ _ _ a b Ea Eb Hnn)).
  rewrite (proj1 (mult_elt_val _ _ _ b a Eb Ea Hnn)).
  rewrite (mulmod_comm _ _ (val a)) by lia. reflexivity.
Qed.

Lemma mult_commutative_witness : mult x57 x83 = mult x83 x57.
Proof.
  apply mult_commutative;
    [exact x57_wf|exact x83_wf|reflexivity|reflexivity|exact gf8_nonneg].
Defined.

(** X7. The object of value 1 is neutral for [mult] on both sides, and the
    object of value 0 absorbs on both sides. *)
Theorem mult_one_zero (a : GaloisPolynomial) :
  wf a -> (0 < length a)%nat -> Forall (fun e => 0 <= e) (irr_pol a) ->
  (exists one, __init__ (length a) 1 (irr_pol a) = Ok one /\
               mult a one = Ok a /\ mult one a = Ok a) /\
  (exists zero, __init__ (length a) 0 (irr_pol a) = Ok zero /\
                mult a zero = Ok zero /\ mult zero a = Ok zero).
Proof.
  intros Wa Hpos Hnn.
  pose proof (elt_self a Wa) as Ea.
  pose proof (elt_val _ _ _ Ea) as Ba.
  assert (B1 : 0 <= 1 < 2 ^ Z.of_nat (length a)).
  { split; [lia|]. change 1 with (2 ^ 0) at 1. apply Z.pow_lt_mono_r; lia. }
  assert (B0 : 0 <= 0 < 2 ^ Z.of_nat (length a)) by lia.
  split.
  - exists (elem (irr_pol a) (length a) 1).
    pose proof (elt_elem _ _ _ 1 Ea) as E1.
    split; [now apply (init_elt _ _ a)|]. split.
    + rewrite (proj1 (mult_elt_val _ _ _ a _ Ea E1 Hnn)).
      rewrite val_elem, mulmod_1_r by assumption.
      f_equal. symmetry. exact (elt_eq _ _ _ Ea).
    + rewrite (proj1 (mult_elt_val _ _ _ _ a E1 Ea Hnn)).
      rewrite val_elem, mulmod_comm, mulmod_1_r by (assumption || lia).
      f_equal. symmetry. exact (elt_eq _ _ _ Ea).
  - exists (elem (irr_pol a) (length a) 0).
    pose proof (elt_elem _ _ _ 0 Ea) as E0.
    split; [now apply (init_elt _ _ a)|]. split.
    + rewrite (proj1 (mult_elt_val _ _ _ a _ Ea E0 Hnn)).
      now rewrite val_elem, mulmod_0_r by assumption.
    + rewrite (proj1 (mult_elt_val _ _ _ _ a E0 Ea Hnn)).
      now rewrite val_elem, mulmod_comm, mulmod_0_r by (assumption || lia).
Qed.

Lemma mult_one_zero_witness :
  (exists one, __init__ (length x57) 1 (irr_pol x57) = Ok one /\
               mult x57 one = Ok x57 /\ mult one x57 = Ok x57) /\
  (exists zero, __init__ (length x57) 0 (irr_pol x57) = Ok zero /\
                mult x57 zero = Ok zero /\ mult zero x57 = Ok zero).
Proof. apply mult_one_zero; [exact x57_wf|cbn; lia|exact gf8_nonneg]. Defined.

(** X8. [mult] distributes over [xor] on both sides. *)
Theorem mult_distributes (a b c : GaloisPolynomial) :
  wf a -> wf b -> wf c -> length a = length b -> length b = length c ->
  irr_pol a = irr_pol b ->
  Forall (fun e => 0 <= e) (irr_pol a) ->
  Forall (fun e => 0 <= e) (irr_pol c) ->
  (t <- xor a b ;; mult t c) = (u <- mult a c ;; v <- mult b c ;; xor u v) /\
  (t <- xor a b ;; mult c t) = (u <- mult c a ;; v <- mult c b ;; xor u v).
Proof.
  intros Wa Wb Wc Lab Lbc P Hna Hnc.
  pose proof (elt_self a Wa) as Ea.
  assert (Eb : GCMSpec.elt (length a) (irr_pol a) b)
    by (split; [exact Wb|now split]).
  assert (Ec : GCMSpec.elt (length a) (irr_pol c) c)
    by (split; [exact Wc|split; congruence]).
  pose proof (elt_val _ _ _ Ea) as Ba. pose proof (elt_val _ _ _ Eb) as Bb.
  pose proof (elt_val _ _ _ Ec) as Bc.
  destruct (xor_elt_val _ _ _ a b Ea Eb) as [-> Bab]. cbn [bind].
  split.
  - destruct (mult_elt_val _ _ _ a c Ea Ec Hna) as [-> Bac].
    destruct (mult_elt_val _ _ _ b c Eb Ec Hna) as [-> Bbc].
    rewrite (proj1 (mult_elt_val _ _ _ _ c (elt_elem _ _ _ _ Ea) Ec Hna)).
    cbn [bind].
    rewrite (proj1 (xor_elt_val _ _ _ _ _ (elt_elem _ _ _ _ Ea)
                      (elt_elem _ _ _ _ Eb))).
    rewrite !val_elem by assumption. now rewrite mulmod_lxor_l.
  - destruct (mult_elt_val _ _ _ c a Ec Ea Hnc) as [-> Bca].
    destruct (mult_elt_val _ _ _ c b Ec Eb Hnc) as [-> Bcb].
    rewrite (proj1 (mult_elt_val _ _ _ c _ Ec (elt_elem _ _ _ _ Ea) Hnc)).
    cbn [bind].
    rewrite (proj1 (xor_elt_val _ _ _ _ _ (elt_elem _ _ _ _ Ec)
                      (elt_elem _ _ _ _ Ec))).
    rewrite !val_elem by assumption. now rewrite mulmod_lxor_r by lia.
Qed.

Lemma mult_distributes_witness :
  (t <- xor x57 x83 ;; mult t x1b)
  = (u <- mult x57 x1b ;; v <- mult x83 x1b ;; xor u v) /\
  (t <- xor x57 x83 ;; mult x1b t)
  = (u <- mult x1b x57 ;; v <- mult x1b x83 ;; xor u v).
Proof.
  apply mult_distributes;
    [exact x57_wf|exact x83_wf|exact x1b_wf|reflexivity|reflexivity|reflexivity
    |exact gf8_nonneg|exact gf8_nonneg].
Defined.

(** X9. [mult] is associative on objects of one width and one polynomial. *)
Theorem mult_associative (a b c : GaloisPolynomial) :
  wf a -> wf b -> wf c -> length a = length b -> length b = length c ->
  irr_pol a = irr_pol b ->
  Forall (fun e => 0 <= e) (irr_pol a) ->
  (t <- mult a b ;; mult t c) = (t <- mult b c ;; mult a t).
Proof.
  intros Wa Wb Wc Lab Lbc P Hna.
  pose proof (elt_self a Wa) as Ea.
  assert (Eb : GCMSpec.elt (length a) (irr_pol a) b)
    by (split; [exact Wb|now split]).
  assert (Ec : GCMSpec.elt (length a) (irr_pol c) c)
    by (split; [exact Wc|split; congruence]).
  pose proof (elt_val _ _ _ Ea) as Ba. pose proof (elt_val _ _ _ Eb) as Bb.
  pose proof (elt_val _ _ _ Ec) as Bc.
  destruct (mult_elt_val _ _ _ a b Ea Eb Hna) as [-> Bab].
  destruct (mult_elt_val _ _ _ b c Eb Ec Hna) as [-> Bbc].
  cbn [bind].
  rewrite (proj1 (mult_elt_val _ _ _ _ c (elt_elem _ _ _ _ Ea) Ec Hna)).
  rewrite (proj1 (mult_elt_val _ _ _ a _ Ea (elt_elem _ _ _ _ Ea) Hna)).
  rewrite !val_elem by assumption.
  rewrite mulmod_assoc; [reflexivity| |assumption..].
  exact (degree_elt _ _ _ Ea Hna).
Qed.

Lemma mult_associative_witness :
  (t <- mult x57 x83 ;; mult t x1b) = (t <- mult x83 x1b ;; mult x57 t).
Proof.
  apply mult_associative;
    [exact x57_wf|exact x83_wf|exact x1b_wf|reflexivity|reflexivity|reflexivity
    |exact gf8_nonneg].
Defined.

(** X10. The constructor does not look at the exponents of a polynomial
    beyond their maximum: one with a negative exponent is accepted, [xor]
    works on the objects, and every [mult] on them raises IndexError. *)
Theorem mult_negative_exponent (n : nat) (v w : Z) (irr : list Z) :
  py_max irr = Ok (Z.of_nat n) -> Exists (fun e => e < 0) irr ->
  0 <= v < 2 ^ Z.of_nat n -> 0 <= w < 2 ^ Z.of_nat n ->
  exists a b c,
    __init__ n v irr = Ok a /\ __init__ n w irr = Ok b /\
    xor a b = Ok c /\ mult a b = Raise IndexError.
Proof.
  intros Hmax Hex Hv Hw.
  assert (Hne : irr <> []) by (intros ->; inversion Hex).
  pose proof (elem_wf irr n v Hne Hmax) as Wa.
  pose proof (elem_wf irr n w Hne Hmax) as Wb.
  exists (elem irr n v), (elem irr n w).
  destruct (xor_elt_val _ _ _ _ _ (elt_self _ Wa) (elt_self _ Wb)) as [Hc _].
  eexists. split; [now apply init_custom|]. split; [now apply init_custom|].
  split; [exact Hc|].
  refine (proj2 (mult_index_error _ (elem irr n w) IndexError Wa eq_refl _)).
  cbn [elem irr_pol length]. unfold irr_pol_list_of.
  apply irr_pol_fill_negative; [apply length_zeros| |exact Hex].
  destruct (py_max_spec _ _ Hmax) as [_ Hle].
  eapply Forall_impl; [|exact Hle]. cbn. intros e He. lia.
Qed.

Lemma mult_negative_exponent_witness :
  exists a b c,
    __init__ 8 87 [8; -1] = Ok a /\ __init__ 8 131 [8; -1] = Ok b /\
    xor a b = Ok c /\ mult a b = Raise IndexError.
Proof.
  apply mult_negative_exponent;
    [reflexivity|right; left; lia|cbn; lia|cbn; lia].
Defined.

End GaloisAlgebra.

(** ** Facts shared by the modes *)

Module ModesFacts.

Import BytesProofs.

Lemma xor_cancel_le : forall data key,
  (List.length data <= List.length key)%nat -> _xor (_xor data key) key = data.
Proof.
  induction data as [|x r IH]; intros [|y s] H; simpl in H; try lia.
  - reflexivity.
  - reflexivity.
  - unfold _xor in *. simpl. rewrite byte_xor_cancel. f_equal. apply IH. lia.
Qed.

Lemma eof_signal_iterator_cons {A} (x y : A) l :
  eof_signal_iterator (x :: y :: l) = (x, false) :: eof_signal_iterator (y :: l).
Proof. reflexivity. Qed.

Lemma length_eof_signal_iterator {A} (l : list A) :
  List.length (eof_signal_iterator l) = List.length l.
Proof.
  rewrite <- (eof_signal_iterator_fst l) at 2. now rewrite length_map.
Qed.

Lemma xor_cipher_inverse bs k x :
  decrypt_block (xor_cipher bs k) (encrypt_block (xor_cipher bs k) x) = x.
Proof.
  cbn. rewrite map_map. rewrite <- (map_id x) at 2.
  apply map_ext. intros b. apply byte_val_inj.
  rewrite !byte_val_xor, <- Z.lxor_assoc, Z.lxor_nilpotent. apply Z.lxor_0_l.
Qed.

Lemma byte_xor_key a b k : byte_xor (byte_xor a k) (byte_xor b k) = byte_xor a b.
Proof.
  apply byte_val_inj. rewrite !byte_val_xor.
  rewrite Z.lxor_assoc, (Z.lxor_comm (byte_val k)), Z.lxor_assoc.
  rewrite Z.lxor_nilpotent, Z.lxor_0_r. reflexivity.
Qed.

Lemma xor_key : forall a b key,
  (List.length a <= List.length key)%nat ->
  (List.length b <= List.length key)%nat ->
  _xor (_xor a key) (_xor b key) = _xor a b.
Proof.
  induction a as [|x a IH]; intros [|y b] [|k key] Ha Hb;
    simpl in Ha, Hb; try lia; try reflexivity.
  unfold _xor in *. simpl. rewrite byte_xor_key. f_equal. apply IH; lia.
Qed.

End ModesFacts.

(** ** ECB *)

Module ECBProofs.

Import BytesProofs ModesFacts ECB.

Lemma ecb_encrypt_loop_app s body : forall rest,
  encrypt_loop s (map (fun x => (x, false)) body ++ rest)
  = (map (encrypt_block (cipher s)) body ++ fst (encrypt_loop s rest),
     snd (encrypt_loop s rest)).
Proof.
  induction body as [|x body IH]; intros rest.
  - cbn [map app]. apply surjective_pairing.
  - cbn [map app encrypt_loop encrypt_body negb lift gbind yield].
    rewrite IH. reflexivity.
Qed.

Lemma ecb_decrypt_loop_app s cts : forall rest,
  decrypt_loop s (map (fun x => (x, false)) cts ++ rest)
  = (map (decrypt_block (cipher s)) cts ++ fst (decrypt_loop s rest),
     snd (decrypt_loop s rest)).
Proof.
  induction cts as [|x cts IH]; intros rest.
  - cbn [map app]. apply surjective_pairing.
  - cbn [map app decrypt_loop negb gbind yield].
    rewrite IH. reflexivity.
Qed.

Lemma ecb_encrypt_snoc s body final :
  encrypt s (body ++ [final]) =
  if Nat.eqb (List.length (apply (padding_scheme s) final)) (block_size (cipher s))
  then
    (map (encrypt_block (cipher s)) body
       ++ [encrypt_block (cipher s) (apply (padding_scheme s) final)], Ok tt)
  else if Nat.eqb (List.length (apply (padding_scheme s) final))
                  (block_size (cipher s) * 2)
  then
    (map (encrypt_block (cipher s)) body
       ++ [encrypt_block (cipher s)
             (firstn (block_size (cipher s)) (apply (padding_scheme s) final))
           ++ encrypt_block (cipher s)
                (skipn (block_size (cipher s)) (apply (padding_scheme s) final))],
     Ok tt)
  else (map (encrypt_block (cipher s)) body, Raise PaddingException).
Proof.
  unfold encrypt.
  rewrite eof_signal_iterator_snoc, ecb_encrypt_loop_app.
  cbn [encrypt_loop encrypt_body negb].
  destruct (Nat.eqb _ (block_size (cipher s))); [reflexivity|].
  destruct (Nat.eqb _ (block_size (cipher s) * 2)); [reflexivity|].
  cbn. now rewrite app_nil_r.
Qed.

Lemma map_inverse (c : Cipher) (body : list bytes) :
  (forall x, List.length x = block_size c ->
             decrypt_block c (encrypt_block c x) = x) ->
  Forall (fun b => List.length b = block_size c) body ->
  map (decrypt_block c) (map (encrypt_block c) body) = body.
Proof.
  intros Hinv Hbody. rewrite map_map. rewrite <- (map_id body) at 2.
  apply map_ext_in. intros x Hx. apply Hinv.
  rewrite Forall_forall in Hbody. now apply Hbody.
Qed.

(** X11. ECB works chunk by chunk: a chunk that is not the last is handed
    to the cipher as it is, without padding or length check, so that equal
    chunks give equal output elements wherever they stand.  Only the last
    chunk is padded: a padded chunk of one block gives one block, one of
    two blocks gives the two encrypted blocks as a single element, and any
    other length stops the generator with the padding error after the
    elements of all earlier chunks have been yielded. *)
Theorem ecb_chunkwise (s : session) (body : list bytes) (final : bytes) :
  let c := cipher s in
  let padded := apply (padding_scheme s) final in
  encrypt s (body ++ [final]) =
  if Nat.eqb (List.length padded) (block_size c) then
    (map (encrypt_block c) body ++ [encrypt_block c padded], Ok tt)
  else if Nat.eqb (List.length padded) (block_size c * 2) then
    (map (encrypt_block c) body
       ++ [encrypt_block c (firstn (block_size c) padded)
           ++ encrypt_block c (skipn (block_size c) padded)], Ok tt)
  else (map (encrypt_block c) body, Raise PaddingException).
Proof. exact (ecb_encrypt_snoc s body final). Qed.

(** X12. ECB round trip on the list of elements [encrypt] yielded, for a
    message whose chunks before the last are full blocks and whose padded
    last chunk is one block: [decrypt] gives the chunks back.  The empty
    message goes through as well: nothing is yielded either way. *)
Theorem ecb_round_trip (s : session) (body : list bytes) (final : bytes) :
  (forall x, List.length x = block_size (cipher s) ->
             decrypt_block (cipher s) (encrypt_block (cipher s) x) = x) ->
  Forall (fun b => List.length b = block_size (cipher s)) body ->
  List.length (apply (padding_scheme s) final) = block_size (cipher s) ->
  remove (padding_scheme s) (apply (padding_scheme s) final) = final ->
  outcome (encrypt s (body ++ [final])) = Ok tt /\
  List.length (yielded (encrypt s (body ++ [final])))
  = List.length (body ++ [final]) /\
  decrypt s (yielded (encrypt s (body ++ [final]))) = (body ++ [final], Ok tt) /\
  decrypt s (yielded (encrypt s [])) = ([], Ok tt).
Proof.
  intros Hinv Hbody Hpad Hrem.
  assert (E : encrypt s (body ++ [final])
              = (map (encrypt_block (cipher s)) body
                   ++ [encrypt_block (cipher s) (apply (padding_scheme s) final)],
                 Ok tt)).
  { unfold encrypt. rewrite eof_signal_iterator_snoc, ecb_encrypt_loop_app.
    cbn [encrypt_loop encrypt_body negb]. rewrite Hpad, Nat.eqb_refl.
    reflexivity. }
  rewrite E. unfold outcome, yielded. cbn [fst snd].
  split; [reflexivity|]. split; [now rewrite !length_app, length_map|].
  split; [|reflexivity].
  unfold decrypt. rewrite eof_signal_iterator_snoc, map_map.
  rewrite <- (map_map (encrypt_block (cipher s)) (fun x => (x, false))).
  rewrite ecb_decrypt_loop_app. cbn [decrypt_loop negb gbind yield gret fst snd app].
  rewrite Hinv, Hrem by assumption. f_equal. f_equal.
  rewrite map_map. rewrite <- (map_id body) at 2.
  apply map_ext_in. intros x Hx. apply Hinv.
  rewrite Forall_forall in Hbody. now apply Hbody.
Qed.

Lemma ecb_round_trip_witness :
  outcome (encrypt Samples.ecb4 (Samples.body4 ++ [Samples.final4])) = Ok tt /\
  List.length (yielded (encrypt Samples.ecb4 (Samples.body4 ++ [Samples.final4])))
  = List.length (Samples.body4 ++ [Samples.final4]) /\
  decrypt Samples.ecb4
    (yielded (encrypt Samples.ecb4 (Samples.body4 ++ [Samples.final4])))
  = (Samples.body4 ++ [Samples.final4], Ok tt) /\
  decrypt Samples.ecb4 (yielded (encrypt Samples.ecb4 [])) = ([], Ok tt).
Proof.
  apply ecb_round_trip.
  - intros x _. apply xor_cipher_inverse.
  - repeat constructor.
  - reflexivity.
  - reflexivity.
Defined.

(** X23. A padded last chunk of two blocks goes out as one element of two
    blocks.  Cut at the block boundary, as reading the stream back block by
    block does, it comes back from [decrypt] as two chunks: the first
    padded block as it is, and the second with its padding removed. *)
Theorem ecb_two_block_padding (s : session) (body : list bytes) (final : bytes) :
  let bs := block_size (cipher s) in
  let p1 := firstn bs (apply (padding_scheme s) final) in
  let p2 := skipn bs (apply (padding_scheme s) final) in
  (0 < bs)%nat ->
  (forall x, List.length x = bs ->
             decrypt_block (cipher s) (encrypt_block (cipher s) x) = x) ->
  Forall (fun b => List.length b = bs) body ->
  List.length (apply (padding_scheme s) final) = (bs * 2)%nat ->
  exists cts c1 c2,
    encrypt s (body ++ [final]) = (cts ++ [c1 ++ c2], Ok tt) /\
    decrypt s (cts ++ [c1; c2])
    = (body ++ [p1; remove (padding_scheme s) p2], Ok tt).
Proof.
  intros bs p1 p2 Hpos Hinv Hbody Hpad.
  exists (map (encrypt_block (cipher s)) body),
         (encrypt_block (cipher s) p1), (encrypt_block (cipher s) p2).
  split.
  - rewrite ecb_encrypt_snoc. fold bs. rewrite Hpad.
    replace (Nat.eqb (bs * 2) bs) with false
      by (symmetry; apply Nat.eqb_neq; lia).
    now rewrite Nat.eqb_refl.
  - unfold decrypt.
    change [encrypt_block (cipher s) p1; encrypt_block (cipher s) p2]
      with ([encrypt_block (cipher s) p1] ++ [encrypt_block (cipher s) p2]).
    rewrite app_assoc, eof_signal_iterator_snoc, ecb_decrypt_loop_app.
    cbn [decrypt_loop negb gbind yield gret fst snd app].
    rewrite map_app, map_inverse by assumption. cbn [map].
    assert (L1 : List.length p1 = bs) by (unfold p1; rewrite length_firstn; lia).
    assert (L2 : List.length p2 = bs) by (unfold p2; rewrite length_skipn; lia).
    rewrite !Hinv by assumption. now rewrite <- app_assoc.
Qed.

Lemma ecb_two_block_padding_witness :
  exists cts c1 c2,
    encrypt Samples.ecb4 (Samples.body4 ++ [[x30; x31; x32; x33]])
    = (cts ++ [c1 ++ c2], Ok tt) /\
    decrypt Samples.ecb4 (cts ++ [c1; c2])
    = (Samples.body4
         ++ [firstn 4 (apply (pkcs7 4) [x30; x31; x32; x33]);
             remove (pkcs7 4) (skipn 4 (apply (pkcs7 4) [x30; x31; x32; x33]))],
       Ok tt).
Proof.
  apply (ecb_two_block_padding Samples.ecb4 Samples.body4 [x30; x31; x32; x33]).
  - cbn. lia.
  - intros x _. apply xor_cipher_inverse.
  - repeat constructor.
  - reflexivity.
Defined.

End ECBProofs.

(** ** CBC *)

Module CBCRoundTrip.

Import BytesProofs ModesFacts CBC CBCSpec CBCProofs CBCChain.

Lemma chain_blocks s body : forall cb : bytes,
  blocks_ok s body -> List.length cb = block_size (cipher s) ->
  Forall (fun b => List.length b = block_size (cipher s)) (chain s cb body) /\
  List.length (chain s cb body) = List.length body /\
  List.length (last (chain s cb body) cb) = block_size (cipher s).
Proof.
  induction body as [|x body IH]; intros cb (Hpos & Hc & Hiv & Hb) Hcb.
  - cbn. auto.
  - inversion Hb as [|? ? Hx Hb']; subst. cbn [chain].
    assert (Hc1 : List.length (encrypt_block (cipher s) (_xor x cb))
                  = block_size (cipher s))
      by (apply Hc; rewrite length_xor; lia).
    destruct (IH (encrypt_block (cipher s) (_xor x cb))) as (F & L & La);
      [repeat split; assumption|exact Hc1|].
    split; [now constructor|]. split; [cbn; lia|].
    now rewrite last_cons.
Qed.

(** The loop of [encrypt] over the non-final chunks. *)
Lemma cbc_encrypt_body s body : forall (cb : bytes) rest,
  blocks_ok s body -> List.length cb = block_size (cipher s) ->
  encrypt_loop s (map (fun x => (x, false)) body ++ rest) (Some cb)
  = (chain s cb body
       ++ fst (encrypt_loop s rest (Some (last (chain s cb body) cb))),
     snd (encrypt_loop s rest (Some (last (chain s cb body) cb)))).
Proof.
  induction body as [|x body IH]; intros cb rest Hok Hcb.
  - cbn [map app chain last].
    apply surjective_pairing.
  - pose proof Hok as (Hpos & Hc & Hiv & Hb).
    inversion Hb as [|? ? Hx Hb']; subst.
    assert (Hc1 : List.length (encrypt_block (cipher s) (_xor x cb))
                  = block_size (cipher s))
      by (apply Hc; rewrite length_xor; lia).
    cbn [map app encrypt_loop chain].
    assert (Hf : falsy (Some cb) = false)
      by (destruct cb; [cbn in Hcb; lia|reflexivity]).
    rewrite Hf. cbn [gret gbind the encrypt_body negb lift yield app].
    rewrite IH; [|repeat split; assumption|exact Hc1].
    now rewrite last_cons.
Qed.

(** A fresh session meets its first chunk: the IV goes out, and the loop
    goes on as from the IV. *)
Lemma cbc_encrypt_fresh s item items :
  iv s <> [] ->
  encrypt_loop s (item :: items) None
  = (iv s :: fst (encrypt_loop s (item :: items) (Some (iv s))),
     snd (encrypt_loop s (item :: items) (Some (iv s)))).
Proof.
  intros Hiv. destruct item as [data eof]. cbn [encrypt_loop].
  assert (Hf : falsy (Some (iv s)) = false)
    by (destruct (iv s) eqn:E; [congruence|reflexivity]).
  rewrite Hf. cbn [falsy the gret yield gbind app].
  match goal with
  | |- context [gbind (lift ?m) ?k] => destruct (gbind (lift m) k) as [zs r]
  end.
  reflexivity.
Qed.

(** The loop of [decrypt] over the chain gives the chunks back. *)
Lemma cbc_plains_chain s body : forall (cb : bytes) rest,
  (forall x, List.length x = block_size (cipher s) ->
             decrypt_block (cipher s) (encrypt_block (cipher s) x) = x) ->
  blocks_ok s body -> List.length cb = block_size (cipher s) ->
  plains s cb (map (fun x => (x, false)) (chain s cb body) ++ rest)
  = body ++ plains s (last (chain s cb body) cb) rest.
Proof.
  induction body as [|x body IH]; intros cb rest Hinv Hok Hcb.
  - reflexivity.
  - pose proof Hok as (Hpos & Hc & Hiv & Hb).
    inversion Hb as [|? ? Hx Hb']; subst.
    assert (Hc1 : List.length (encrypt_block (cipher s) (_xor x cb))
                  = block_size (cipher s))
      by (apply Hc; rewrite length_xor; lia).
    cbn [chain map app plains]. unfold plain at 1. cbn [negb].
    rewrite Hinv by (rewrite length_xor; lia).
    rewrite xor_cancel by lia.
    rewrite IH; [|exact Hinv|repeat split; assumption|exact Hc1].
    now rewrite last_cons.
Qed.

Lemma iv_nonempty s body : blocks_ok s body -> iv s <> [].
Proof. intros (Hpos & _ & Hiv & _) E. rewrite E in Hiv. cbn in Hiv. lia. Qed.

(** [encrypt], fresh or not, on a message whose padded last chunk is one
    block. *)
Lemma cbc_encrypt_one_block s (cb : bytes) body final :
  blocks_ok s body -> List.length cb = block_size (cipher s) ->
  List.length (apply (padding_scheme s) final) = block_size (cipher s) ->
  let c := encrypt_block (cipher s)
             (_xor (apply (padding_scheme s) final) (last (chain s cb body) cb)) in
  encrypt_from s (Some cb) (body ++ [final])
  = (chain s cb body ++ [c], Ok (Some c)).
Proof.
  intros Hok Hcb Hpad c. unfold encrypt_from.
  rewrite eof_signal_iterator_snoc, cbc_encrypt_body by assumption.
  destruct (chain_blocks s body cb Hok Hcb) as (_ & _ & Hlast).
  cbn [encrypt_loop].
  assert (Hf : falsy (Some (last (chain s cb body) cb)) = false).
  { destruct (last (chain s cb body) cb); [|reflexivity].
    destruct Hok as (Hpos & _). cbn in Hlast. lia. }
  rewrite Hf. cbn [gret gbind the encrypt_body negb].
  rewrite Hpad, Nat.eqb_refl. reflexivity.
Qed.

(** X13. CBC round trip on the list of elements [encrypt] yielded, for a
    fresh session with blocks that are not empty, a cipher that returns and
    inverts blocks, an IV of one block, chunks before the last of one block
    and a padded last chunk of one block: [encrypt] yields the IV and one
    block for each chunk, and [decrypt] on these gives the chunks back.
    The empty message does not go through: [encrypt] yields nothing, not
    even the IV, and [decrypt] then stops with an error. *)
Theorem cbc_round_trip (s : session) (body : list bytes) (final : bytes) :
  blocks_ok s body ->
  (forall x, List.length x = block_size (cipher s) ->
             decrypt_block (cipher s) (encrypt_block (cipher s) x) = x) ->
  List.length (apply (padding_scheme s) final) = block_size (cipher s) ->
  remove (padding_scheme s) (apply (padding_scheme s) final) = final ->
  (exists st, outcome (encrypt s (body ++ [final])) = Ok st) /\
  List.length (yielded (encrypt s (body ++ [final])))
  = S (List.length (body ++ [final])) /\
  yielded (decrypt s (yielded (encrypt s (body ++ [final])))) = body ++ [final] /\
  (exists st, outcome (decrypt s (yielded (encrypt s (body ++ [final])))) = Ok st) /\
  decrypt s (yielded (encrypt s [])) = ([], Raise RuntimeError).
Proof.
  intros Hok Hinv Hpad Hrem.
  pose proof Hok as (Hpos & Hc & Hiv & Hb).
  pose proof (iv_nonempty s body Hok) as Hne.
  destruct (chain_blocks s body (iv s) Hok Hiv) as (_ & Lch & Hlast).
  set (c := encrypt_block (cipher s)
              (_xor (apply (padding_scheme s) final)
                    (last (chain s (iv s) body) (iv s)))).
  assert (E : encrypt s (body ++ [final])
              = (iv s :: chain s (iv s) body ++ [c], Ok (Some c))).
  { pose proof (cbc_encrypt_one_block s (iv s) body final Hok Hiv Hpad) as E1.
    cbv zeta in E1. fold c in E1. unfold encrypt_from in E1.
    unfold encrypt, encrypt_from.
    destruct (eof_signal_iterator (body ++ [final])) as [|item items] eqn:Hit.
    - pose proof (length_eof_signal_iterator (body ++ [final])) as L.
      rewrite Hit, length_app in L. cbn in L. lia.
    - rewrite cbc_encrypt_fresh by assumption. rewrite E1. reflexivity. }
  rewrite E. unfold outcome, yielded. cbn [fst snd].
  split; [eauto|]. split; [cbn [List.length]; rewrite !length_app; cbn; lia|].
  assert (D : decrypt s (iv s :: chain s (iv s) body ++ [c])
              = (body ++ [final],
                 Ok (last (map fst (map (fun x => (x, false)) (chain s (iv s) body)
                                      ++ [(c, true)])) (iv s),
                     [] ++ map fst (map (fun x => (x, false)) (chain s (iv s) body)
                                      ++ [(c, true)])))).
  { unfold decrypt. rewrite GCMProofs.eof_signal_iterator_framed.
    rewrite decrypt_loop_eq. f_equal.
    rewrite cbc_plains_chain by assumption. f_equal.
    cbn [plains]. unfold plain, c. cbn [negb].
    rewrite Hinv by (rewrite length_xor; lia).
    rewrite xor_cancel by lia. now rewrite Hrem. }
  rewrite D. cbn [fst snd]. split; [reflexivity|]. split; [eauto|].
  reflexivity.
Qed.

Lemma pkcs7_blocks_ok : blocks_ok Samples.cbc4 Samples.body4.
Proof.
  split; [cbn; lia|]. split.
  - intros x Hx. exact (eq_trans (GCMProofs.xor_cipher_length 4 x5a x) Hx).
  - split; [reflexivity|repeat constructor].
Qed.

Lemma cbc_round_trip_witness :
  (exists st,
     outcome (encrypt Samples.cbc4 (Samples.body4 ++ [Samples.final4])) = Ok st) /\
  List.length (yielded (encrypt Samples.cbc4 (Samples.body4 ++ [Samples.final4])))
  = S (List.length (Samples.body4 ++ [Samples.final4])) /\
  yielded (decrypt Samples.cbc4
             (yielded (encrypt Samples.cbc4 (Samples.body4 ++ [Samples.final4]))))
  = Samples.body4 ++ [Samples.final4] /\
  (exists st,
     outcome (decrypt Samples.cbc4
                (yielded (encrypt Samples.cbc4 (Samples.body4 ++ [Samples.final4]))))
     = Ok st) /\
  decrypt Samples.cbc4 (yielded (encrypt Samples.cbc4 [])) = ([], Raise RuntimeError).
Proof.
  apply cbc_round_trip.
  - exact pkcs7_blocks_ok.
  - intros x _. apply xor_cipher_inverse.
  - reflexivity.
  - reflexivity.
Defined.

Lemma chain_cipher s s' body : forall cb : bytes,
  cipher s = cipher s' -> chain s cb body = chain s' cb body.
Proof.
  induction body as [|x body IH]; intros cb E; [reflexivity|].
  cbn [chain]. rewrite E. now rewrite IH.
Qed.

(** X14. The IV goes out once for a session object.  A second message
    given to a session that has encrypted a first one is chained from the
    last ciphertext block of the first and is not preceded by the IV: it
    is encrypted as by a fresh session whose IV is that block, the IV
    element left out. *)
Theorem cbc_session_reuse (s : session) (cb : bytes)
    (body : list bytes) (final : bytes) :
  blocks_ok s body -> List.length cb = block_size (cipher s) ->
  List.length (apply (padding_scheme s) final) = block_size (cipher s) ->
  let fresh := mkCBC (cipher s) cb (padding_scheme s) in
  yielded (encrypt fresh (body ++ [final]))
  = cb :: yielded (encrypt_from s (Some cb) (body ++ [final])) /\
  outcome (encrypt fresh (body ++ [final]))
  = outcome (encrypt_from s (Some cb) (body ++ [final])) /\
  List.length (yielded (encrypt_from s (Some cb) (body ++ [final])))
  = List.length (body ++ [final]) /\
  exists c, outcome (encrypt_from s (Some cb) (body ++ [final])) = Ok (Some c) /\
            last (yielded (encrypt_from s (Some cb) (body ++ [final]))) [] = c.
Proof.
  intros Hok Hcb Hpad fresh.
  pose proof Hok as (Hpos & Hc & Hiv & Hb).
  assert (Hok' : blocks_ok fresh body) by (repeat split; assumption).
  pose proof (cbc_encrypt_one_block s cb body final Hok Hcb Hpad) as E1.
  pose proof (cbc_encrypt_one_block fresh cb body final Hok' Hcb Hpad) as E2.
  cbv zeta in E1, E2.
  pose proof (chain_cipher fresh s body cb eq_refl) as Hch.
  rewrite Hch in E2. cbn [cipher padding_scheme fresh] in E2.
  destruct (chain_blocks s body cb Hok Hcb) as (_ & Lch & _).
  assert (E : encrypt fresh (body ++ [final])
              = (cb :: fst (encrypt_from s (Some cb) (body ++ [final])),
                 snd (encrypt_from s (Some cb) (body ++ [final])))).
  { rewrite E1. cbn [fst snd]. unfold encrypt. unfold encrypt_from in *.
    destruct (eof_signal_iterator (body ++ [final])) as [|item items] eqn:Hit.
    - pose proof (length_eof_signal_iterator (body ++ [final])) as L.
      rewrite Hit, length_app in L. cbn in L. lia.
    - rewrite cbc_encrypt_fresh by (apply (iv_nonempty fresh body Hok')).
      cbn [iv fresh]. rewrite E2. reflexivity. }
  rewrite E, E1. unfold yielded, outcome. cbn [fst snd].
  split; [reflexivity|]. split; [reflexivity|].
  split; [rewrite !length_app; cbn; lia|].
  eexists. split; [reflexivity|]. now rewrite last_last.
Qed.

Lemma cbc_session_reuse_witness :
  let fresh := mkCBC (cipher Samples.cbc4) [xb0; xb1; xb2; xb3]
                     (padding_scheme Samples.cbc4) in
  yielded (encrypt fresh (Samples.body4 ++ [Samples.final4]))
  = [xb0; xb1; xb2; xb3]
      :: yielded (encrypt_from Samples.cbc4 (Some [xb0; xb1; xb2; xb3])
                    (Samples.body4 ++ [Samples.final4])) /\
  outcome (encrypt fresh (Samples.body4 ++ [Samples.final4]))
  = outcome (encrypt_from Samples.cbc4 (Some [xb0; xb1; xb2; xb3])
               (Samples.body4 ++ [Samples.final4])) /\
  List.length (yielded (encrypt_from Samples.cbc4 (Some [xb0; xb1; xb2; xb3])
                          (Samples.body4 ++ [Samples.final4])))
  = List.length (Samples.body4 ++ [Samples.final4]) /\
  exists c,
    outcome (encrypt_from Samples.cbc4 (Some [xb0; xb1; xb2; xb3])
               (Samples.body4 ++ [Samples.final4])) = Ok (Some c) /\
    last (yielded (encrypt_from Samples.cbc4 (Some [xb0; xb1; xb2; xb3])
                     (Samples.body4 ++ [Samples.final4]))) [] = c.
Proof.
  apply (cbc_session_reuse Samples.cbc4 [xb0; xb1; xb2; xb3]
           Samples.body4 Samples.final4).
  - exact pkcs7_blocks_ok.
  - reflexivity.
  - reflexivity.
Defined.

(** X15. A padding scheme that returns anything but one or two blocks for
    the last chunk stops [encrypt] with the padding error, after the IV
    and the blocks of all earlier chunks have been yielded. *)
Theorem cbc_padding_error (s : session) (body : list bytes) (final : bytes) :
  blocks_ok s body ->
  List.length (apply (padding_scheme s) final) <> block_size (cipher s) ->
  List.length (apply (padding_scheme s) final) <> (2 * block_size (cipher s))%nat ->
  encrypt s (body ++ [final])
  = (iv s :: chain s (iv s) body, Raise PaddingException).
Proof.
  intros Hok H1 H2. pose proof Hok as (Hpos & Hc & Hiv & Hb).
  destruct (chain_blocks s body (iv s) Hok Hiv) as (_ & _ & Hlast).
  unfold encrypt, encrypt_from.
  destruct (eof_signal_iterator (body ++ [final])) as [|item items] eqn:Hit.
  - pose proof (length_eof_signal_iterator (body ++ [final])) as L.
    rewrite Hit, length_app in L. cbn in L. lia.
  - rewrite cbc_encrypt_fresh by (apply (iv_nonempty s body Hok)).
    rewrite <- Hit, eof_signal_iterator_snoc, cbc_encrypt_body by assumption.
    cbn [encrypt_loop].
    assert (Hf : falsy (Some (last (chain s (iv s) body) (iv s))) = false).
    { destruct (last (chain s (iv s) body) (iv s)); [|reflexivity].
      cbn in Hlast. lia. }
    rewrite Hf. cbn [gret gbind the encrypt_body negb].
    apply Nat.eqb_neq in H1. apply Nat.eqb_neq in H2. rewrite H1, H2.
    cbn. now rewrite app_nil_r.
Qed.

Lemma cbc_padding_error_witness :
  encrypt Samples.cbc4_bad (Samples.body4 ++ [Samples.final4])
  = (iv Samples.cbc4_bad :: chain Samples.cbc4_bad (iv Samples.cbc4_bad) Samples.body4,
     Raise PaddingException).
Proof.
  apply cbc_padding_error.
  - split; [cbn; lia|]. split.
    + intros x Hx. exact (eq_trans (GCMProofs.xor_cipher_length 4 x5a x) Hx).
    + split; [reflexivity|repeat constructor].
  - cbn. lia.
  - cbn. lia.
Defined.

Lemma chain_snoc s body : forall (cb : bytes) x,
  chain s cb (body ++ [x])
  = chain s cb body
      ++ [encrypt_block (cipher s) (_xor x (last (chain s cb body) cb))].
Proof.
  induction body as [|y body IH]; intros cb x; [reflexivity|].
  cbn [app chain]. now rewrite IH, last_cons.
Qed.

(** X24. CBC chains across the extra block of a two-block padding: the
    two ciphertext blocks go out as one element, and the chaining value is
    that element.  Cut at the block boundary, as reading the stream back
    block by block does, the element comes back from [decrypt] as two
    chunks: the first padded block as it is, and the second with its
    padding removed. *)
Theorem cbc_two_block_padding (s : session) (body : list bytes) (final : bytes) :
  let bs := block_size (cipher s) in
  let p1 := firstn bs (apply (padding_scheme s) final) in
  let p2 := skipn bs (apply (padding_scheme s) final) in
  blocks_ok s body ->
  (forall x, List.length x = bs ->
             decrypt_block (cipher s) (encrypt_block (cipher s) x) = x) ->
  List.length (apply (padding_scheme s) final) = (2 * bs)%nat ->
  exists cts prev c1 c2,
    encrypt s (body ++ [final]) = (iv s :: cts ++ [c1 ++ c2], Ok (Some (c1 ++ c2))) /\
    prev = last cts (iv s) /\
    c1 = encrypt_block (cipher s) (_xor p1 prev) /\
    c2 = encrypt_block (cipher s) (_xor p2 c1) /\
    yielded (decrypt s (iv s :: cts ++ [c1; c2]))
    = body ++ [p1; remove (padding_scheme s) p2].
Proof.
  intros bs p1 p2 Hok Hinv Hpad.
  pose proof Hok as (Hpos & Hc & Hiv & Hb). fold bs in Hpos, Hc, Hiv, Hb.
  destruct (chain_blocks s body (iv s) Hok Hiv) as (_ & _ & Hlast).
  fold bs in Hlast.
  set (prev := last (chain s (iv s) body) (iv s)) in *.
  set (c1 := encrypt_block (cipher s) (_xor p1 prev)).
  set (c2 := encrypt_block (cipher s) (_xor p2 c1)).
  assert (L1 : List.length p1 = bs) by (unfold p1; rewrite length_firstn; lia).
  assert (L2 : List.length p2 = bs) by (unfold p2; rewrite length_skipn; lia).
  assert (Lc1 : List.length c1 = bs)
    by (apply Hc; rewrite length_xor; lia).
  exists (chain s (iv s) body), prev, c1, c2.
  split; [|split; [reflexivity|split; [reflexivity|split; [reflexivity|]]]].
  - unfold encrypt, encrypt_from.
    destruct (eof_signal_iterator (body ++ [final])) as [|item items] eqn:Hit.
    + pose proof (length_eof_signal_iterator (body ++ [final])) as L.
      rewrite Hit, length_app in L. cbn in L. lia.
    + rewrite cbc_encrypt_fresh by (apply (iv_nonempty s body Hok)).
      rewrite <- Hit, eof_signal_iterator_snoc, cbc_encrypt_body by assumption.
      cbn [encrypt_loop]. fold prev.
      assert (Hf : falsy (Some prev) = false).
      { destruct prev; [|reflexivity]. cbn in Hlast. lia. }
      rewrite Hf. cbn [gret gbind the encrypt_body negb].
      fold bs. rewrite Hpad.
      replace (Nat.eqb (2 * bs) bs) with false
        by (symmetry; apply Nat.eqb_neq; lia).
      rewrite Nat.eqb_refl. reflexivity.
  - assert (Hok' : blocks_ok s (body ++ [p1])).
    { split; [exact Hpos|]. split; [exact Hc|]. split; [exact Hiv|].
      apply Forall_app. split; [exact Hb|]. now repeat constructor. }
    assert (Hch : chain s (iv s) body ++ [c1] = chain s (iv s) (body ++ [p1]))
      by (now rewrite chain_snoc).
    change [c1; c2] with ([c1] ++ [c2]). rewrite app_assoc, Hch.
    unfold decrypt. rewrite GCMProofs.eof_signal_iterator_framed.
    rewrite decrypt_loop_eq. unfold yielded. cbn [fst].
    rewrite cbc_plains_chain by assumption.
    rewrite <- Hch, last_last. cbn [plains]. unfold plain. cbn [negb].
    unfold c2 at 1. rewrite Hinv by (rewrite length_xor; lia).
    rewrite xor_cancel by lia. now rewrite <- app_assoc.
Qed.

Lemma cbc_two_block_padding_witness :
  exists cts prev c1 c2,
    encrypt Samples.cbc4 (Samples.body4 ++ [[x30; x31; x32; x33]])
    = (iv Samples.cbc4 :: cts ++ [c1 ++ c2], Ok (Some (c1 ++ c2))) /\
    prev = last cts (iv Samples.cbc4) /\
    c1 = encrypt_block (cipher Samples.cbc4)
           (_xor (firstn 4 (apply (pkcs7 4) [x30; x31; x32; x33])) prev) /\
    c2 = encrypt_block (cipher Samples.cbc4)
           (_xor (skipn 4 (apply (pkcs7 4) [x30; x31; x32; x33])) c1) /\
    yielded (decrypt Samples.cbc4 (iv Samples.cbc4 :: cts ++ [c1; c2]))
    = Samples.body4
        ++ [firstn 4 (apply (pkcs7 4) [x30; x31; x32; x33]);
            remove (pkcs7 4) (skipn 4 (apply (pkcs7 4) [x30; x31; x32; x33]))].
Proof.
  apply (cbc_two_block_padding Samples.cbc4 Samples.body4 [x30; x31; x32; x33]).
  - exact pkcs7_blocks_ok.
  - intros x _. apply xor_cipher_inverse.
  - reflexivity.
Defined.

End CBCRoundTrip.

(** ** CTR *)

Module CTRRoundTrip.

Import BytesProofs ModesFacts CTR CTRSpec CTRProofs.

Lemma length_keystream s i :
  (2 * List.length (nonce s))%nat = block_size (cipher s) ->
  (forall x, List.length x = block_size (cipher s) ->
             List.length (encrypt_block (cipher s) x) = block_size (cipher s)) ->
  List.length (keystream s i) = block_size (cipher s).
Proof.
  intros Hn Hc. unfold keystream. apply Hc.
  now rewrite length_nonce_and_counter.
Qed.

Lemma outputs_involutive s chunks : forall i,
  (2 * List.length (nonce s))%nat = block_size (cipher s) ->
  (forall x, List.length x = block_size (cipher s) ->
             List.length (encrypt_block (cipher s) x) = block_size (cipher s)) ->
  Forall (fun b => (List.length b <= block_size (cipher s))%nat) chunks ->
  outputs s (outputs s chunks i) i = chunks /\
  Forall2 (fun b o => List.length o = List.length b) chunks (outputs s chunks i).
Proof.
  induction chunks as [|d r IH]; intros i Hn Hc Hb.
  - split; [reflexivity|constructor].
  - inversion Hb as [|? ? Hd Hr]; subst. cbn [outputs].
    pose proof (length_keystream s i Hn Hc) as Lk.
    destruct (IH (i + 1) Hn Hc Hr) as [IH1 IH2].
    split.
    + rewrite xor_cancel_le by lia. now rewrite IH1.
    + constructor; [rewrite length_xor; lia|exact IH2].
Qed.

Lemma ctr_encrypt_outputs s chunks :
  (2 * List.length (nonce s))%nat = block_size (cipher s) ->
  Z.of_nat (List.length chunks) <= 256 ^ Z.of_nat (List.length (nonce s)) ->
  encrypt s chunks = (outputs s chunks 0, Ok (Z.of_nat (List.length chunks))).
Proof.
  intros Hn Hb. unfold encrypt.
  rewrite encrypt_loop_ok; rewrite ?length_eof_signal_iterator; auto; try lia.
  now rewrite eof_signal_iterator_fst.
Qed.

(** X16. CTR round trip: with a nonce of half a block, a cipher that
    returns blocks, chunks of at most one block each (a short chunk may
    stand anywhere) and no more than [256 ^ len(nonce)] of them, every
    output element is as long as its chunk, and [decrypt] on the list of
    elements [encrypt] yielded gives the chunks back.  [decrypt_block] is
    not used, and nothing is padded. *)
Theorem ctr_round_trip (s : session) (chunks : list bytes) :
  (2 * List.length (nonce s))%nat = block_size (cipher s) ->
  (forall x, List.length x = block_size (cipher s) ->
             List.length (encrypt_block (cipher s) x) = block_size (cipher s)) ->
  Forall (fun b => (List.length b <= block_size (cipher s))%nat) chunks ->
  Z.of_nat (List.length chunks) <= 256 ^ Z.of_nat (List.length (nonce s)) ->
  Forall2 (fun b o => List.length o = List.length b)
          chunks (yielded (encrypt s chunks)) /\
  decrypt s (yielded (encrypt s chunks))
  = (chunks, Ok (Z.of_nat (List.length chunks))).
Proof.
  intros Hn Hc Hb Hcount.
  rewrite ctr_encrypt_outputs by assumption.
  unfold yielded, decrypt. cbn [fst].
  destruct (outputs_involutive s chunks 0 Hn Hc Hb) as [Hinv Hlen].
  split; [exact Hlen|].
  rewrite ctr_encrypt_outputs by (rewrite ?length_outputs; assumption).
  now rewrite Hinv, length_outputs.
Qed.

Lemma ctr_round_trip_witness :
  Forall2 (fun b o => List.length o = List.length b)
          [[x00; x01; x02; x03]; [x10; x11]; [x20; x21; x22]]
          (yielded (encrypt ctr4 [[x00; x01; x02; x03]; [x10; x11]; [x20; x21; x22]])) /\
  decrypt ctr4
    (yielded (encrypt ctr4 [[x00; x01; x02; x03]; [x10; x11]; [x20; x21; x22]]))
  = ([[x00; x01; x02; x03]; [x10; x11]; [x20; x21; x22]], Ok 3).
Proof.
  apply (ctr_round_trip ctr4 [[x00; x01; x02; x03]; [x10; x11]; [x20; x21; x22]]).
  - reflexivity.
  - intros x Hx. exact (eq_trans (GCMProofs.xor_cipher_length 4 x5a x) Hx).
  - repeat constructor; cbn; lia.
  - vm_compute. discriminate.
Defined.

Lemma ctr_loop_overflow s :
  (2 * List.length (nonce s))%nat = block_size (cipher s) ->
  forall items counter,
    0 <= counter <= 256 ^ Z.of_nat (List.length (nonce s)) ->
    256 ^ Z.of_nat (List.length (nonce s)) < counter + Z.of_nat (List.length items) ->
    Z.of_nat (List.length (fst (encrypt_loop s items counter)))
    = 256 ^ Z.of_nat (List.length (nonce s)) - counter /\
    snd (encrypt_loop s items counter) = Raise OverflowError.
Proof.
  intros Hn. induction items as [|[data eof] rest IH]; intros counter Hc Hb.
  - cbn in Hb. lia.
  - cbn [List.length] in Hb. rewrite Nat2Z.inj_succ in Hb.
    cbn [encrypt_loop].
    destruct (Z.eq_dec counter (256 ^ Z.of_nat (List.length (nonce s)))) as [E|NE].
    + rewrite get_xor_block_overflow by lia. cbn. split; [lia|reflexivity].
    + rewrite get_xor_block_ok by (auto; lia).
      cbn [lift gbind yield].
      destruct (IH (counter + 1) ltac:(lia) ltac:(lia)) as [IH1 IH2].
      destruct (encrypt_loop s rest (counter + 1)) as [zs r].
      cbn [fst snd app List.length] in *. rewrite Nat2Z.inj_succ.
      split; [lia|exact IH2].
Qed.

(** X17. The counter of CTR has [len(nonce)] bytes: a message of more than
    [256 ^ len(nonce)] chunks is encrypted up to chunk [256 ^ len(nonce)],
    and the generator then stops with OverflowError. *)
Theorem ctr_counter_exhausted (s : session) (chunks : list bytes) :
  (2 * List.length (nonce s))%nat = block_size (cipher s) ->
  256 ^ Z.of_nat (List.length (nonce s)) < Z.of_nat (List.length chunks) ->
  Z.of_nat (List.length (yielded (encrypt s chunks)))
  = 256 ^ Z.of_nat (List.length (nonce s)) /\
  outcome (encrypt s chunks) = Raise OverflowError /\
  yielded (encrypt s chunks)
  = firstn (List.length (yielded (encrypt s chunks))) (outputs s chunks 0).
Proof.
  intros Hn Hb. unfold encrypt, yielded, outcome.
  assert (H256 : 0 < 256 ^ Z.of_nat (List.length (nonce s)))
    by (apply Z.pow_pos_nonneg; lia).
  destruct (ctr_loop_overflow s Hn (eof_signal_iterator chunks) 0) as [H1 H2];
    [lia|rewrite length_eof_signal_iterator; lia|].
  split; [lia|]. split; [exact H2|].
  rewrite <- (eof_signal_iterator_fst chunks) at 3.
  clear H1 H2 Hb. generalize (eof_signal_iterator chunks) as items.
  generalize 0 as counter.
  intros counter items. revert counter.
  induction items as [|[data eof] rest IH]; intros counter; [reflexivity|].
  cbn [encrypt_loop map fst outputs].
  destruct (_get_xor_block s counter) as [xb|e] eqn:Hx; [|reflexivity].
  cbn [lift gbind yield].
  specialize (IH (counter + 1)).
  destruct (encrypt_loop s rest (counter + 1)) as [zs r].
  cbn [fst app List.length firstn] in *. f_equal; [|exact IH].
  unfold _get_xor_block, nonce_and_counter, to_bytes_big, to_bytes_little in Hx.
  destruct ((0 <=? counter) && _); cbn [bind] in Hx; [|discriminate].
  destruct (Nat.eqb _ _); cbn [assert bind] in Hx; [|discriminate].
  inversion Hx; subst. unfold keystream.
  destruct (eof && _); [apply xor_firstn|reflexivity].
Qed.

Lemma ctr_counter_exhausted_witness :
  Z.of_nat (List.length (yielded (encrypt Samples.ctr2 (repeat [x00; x00] 257))))
  = 256 ^ Z.of_nat (List.length (nonce Samples.ctr2)) /\
  outcome (encrypt Samples.ctr2 (repeat [x00; x00] 257)) = Raise OverflowError /\
  yielded (encrypt Samples.ctr2 (repeat [x00; x00] 257))
  = firstn (List.length (yielded (encrypt Samples.ctr2 (repeat [x00; x00] 257))))
           (outputs Samples.ctr2 (repeat [x00; x00] 257) 0).
Proof.
  apply ctr_counter_exhausted.
  - reflexivity.
  - vm_compute. reflexivity.
Defined.

Lemma nth_outputs s chunks i (k : nat) :
  (k < List.length chunks)%nat ->
  nth k (outputs s chunks i) []
  = _xor (nth k chunks []) (keystream s (i + Z.of_nat k)).
Proof.
  intros Hk. apply nth_error_nth. now apply nth_error_outputs.
Qed.

(** X25. [encrypt] keeps no state between two calls: every message is
    encrypted from counter 0, so two messages given to one session meet
    the same keystream, and the XOR of their outputs at a position is the
    XOR of their chunks at that position. *)
Theorem ctr_keystream_reuse (s : session) (m1 m2 : list bytes) (i : nat) :
  (2 * List.length (nonce s))%nat = block_size (cipher s) ->
  (forall x, List.length x = block_size (cipher s) ->
             List.length (encrypt_block (cipher s) x) = block_size (cipher s)) ->
  Forall (fun b => (List.length b <= block_size (cipher s))%nat) m1 ->
  Forall (fun b => (List.length b <= block_size (cipher s))%nat) m2 ->
  Z.of_nat (List.length m1) <= 256 ^ Z.of_nat (List.length (nonce s)) ->
  Z.of_nat (List.length m2) <= 256 ^ Z.of_nat (List.length (nonce s)) ->
  (i < List.length m1)%nat -> (i < List.length m2)%nat ->
  _xor (nth i (yielded (encrypt s m1)) []) (nth i (yielded (encrypt s m2)) [])
  = _xor (nth i m1 []) (nth i m2 []).
Proof.
  intros Hn Hc H1 H2 N1 N2 I1 I2.
  rewrite !ctr_encrypt_outputs by assumption. unfold yielded. cbn [fst].
  rewrite !nth_outputs by assumption.
  pose proof (length_keystream s (0 + Z.of_nat i) Hn Hc) as Lk.
  rewrite Forall_forall in H1, H2.
  apply xor_key; rewrite Lk; [apply H1|apply H2]; now apply nth_In.
Qed.

Lemma ctr_keystream_reuse_witness :
  _xor (nth 1 (yielded (encrypt ctr4 [[x00; x01; x02; x03]; [x10; x11]])) [])
       (nth 1 (yielded (encrypt ctr4 [[x40; x41; x42; x43]; [x50; x51; x52]])) [])
  = _xor (nth 1 [[x00; x01; x02; x03]; [x10; x11]] [])
         (nth 1 [[x40; x41; x42; x43]; [x50; x51; x52]] []).
Proof.
  apply (ctr_keystream_reuse ctr4).
  - reflexivity.
  - intros x Hx. exact (eq_trans (GCMProofs.xor_cipher_length 4 x5a x) Hx).
  - repeat constructor; cbn; lia.
  - repeat constructor; cbn; lia.
  - vm_compute. discriminate.
  - vm_compute. discriminate.
  - cbn. lia.
  - cbn. lia.
Defined.

End CTRRoundTrip.

(** ** GCM: the layout of the stream, and what [decrypt] checks *)

Module GCMStream.

Import Galois GaloisSpec GaloisProofs BytesProofs ModesFacts.
Import GCM GCMSpec GCMProofs.

(** *** The header block *)

Lemma le_digits_zero k : le_digits k 0 = repeat x00 k.
Proof.
  induction k as [|k IH]; [reflexivity|].
  cbn [le_digits repeat]. change (0 / 256) with 0. now rewrite IH.
Qed.

Lemma le_digits_from_bytes h : forall k,
  le_digits (List.length h + k) (from_bytes_little h) = h ++ repeat x00 k.
Proof.
  induction h as [|x r IH]; intros k.
  - apply le_digits_zero.
  - cbn [List.length Nat.add le_digits from_bytes_little app].
    pose proof (byte_val_bound x) as Hx.
    assert (Hm : (byte_val x + 256 * from_bytes_little r) mod 256 = byte_val x)
      by (Z.div_mod_to_equations; lia).
    assert (Hd : (byte_val x + 256 * from_bytes_little r) / 256
                 = from_bytes_little r)
      by (Z.div_mod_to_equations; lia).
    now rewrite Hm, Hd, byte_of_val, IH.
Qed.

Lemma header_block s :
  (List.length (header s) <= block_size (cipher s))%nat ->
  le_digits (block_size (cipher s)) (from_bytes_little (header s))
  = header s ++ repeat x00 (block_size (cipher s) - List.length (header s)).
Proof.
  intros H. rewrite <- le_digits_from_bytes. f_equal. lia.
Qed.

(** *** The ciphertext blocks *)

Lemma gcm_xor_block_inv s counter xb :
  _get_xor_block s counter = Ok xb ->
  xb = CTRSpec.keystream (CTR.mkCTR (cipher s) (nonce s)) counter /\
  (2 * List.length (nonce s))%nat = block_size (cipher s).
Proof.
  unfold _get_xor_block, to_bytes_big, to_bytes_little, CTRSpec.keystream.
  cbn [CTR.cipher CTR.nonce].
  destruct ((0 <=? counter) && _); cbn [bind]; [|discriminate].
  destruct (Nat.eqb_spec
              (List.length (nonce s ++ rev (le_digits (List.length (nonce s)) counter)))
              (block_size (cipher s))) as [E|E];
    cbn [assert bind]; [|discriminate].
  intros H. inversion H. split; [reflexivity|].
  rewrite length_app, length_rev, length_le_digits in E. lia.
Qed.

Lemma gcm_xor_block_0_error s e :
  _get_xor_block s 0 = Raise e -> e = AssertionError.
Proof.
  unfold _get_xor_block. rewrite to_bytes_big_ok.
  - cbn [bind]. destruct (Nat.eqb _ _); cbn [assert bind]; congruence.
  - split; [lia|]. apply Z.pow_pos_nonneg; lia.
Qed.

(** Whatever the loop of [encrypt] yields before it ends is what CTR yields
    with the same cipher and nonce from the same counter. *)
Lemma gcm_loop_outputs s Ek_0 items : forall counter rolling cts st,
  encrypt_loop s Ek_0 items counter rolling = (cts, Ok st) ->
  cts = CTRSpec.outputs (CTR.mkCTR (cipher s) (nonce s)) (map fst items) counter.
Proof.
  induction items as [|[data eof] rest IH]; intros counter rolling cts st H.
  - cbn in H. now inversion H.
  - cbn [encrypt_loop] in H.
    destruct (_get_xor_block s counter) as [xb|e] eqn:Hx;
      cbn [lift gbind] in H; [|discriminate].
    destruct (GP _ _) as [C|e]; cbn [gbind] in H; [|discriminate].
    destruct (roll _ _ _) as [r1|e]; cbn [gbind yield] in H; [|discriminate].
    destruct (encrypt_loop s Ek_0 rest (counter + 1) r1) as [zs [st'|e]] eqn:Hl;
      cbn in H; [|discriminate].
    inversion H; subst. cbn [map fst CTRSpec.outputs].
    destruct (gcm_xor_block_inv _ _ _ Hx) as [-> _].
    f_equal. exact (IH _ _ _ _ Hl).
Qed.

Lemma Forall2_length_blocks (n : nat) (pt cts : list bytes) :
  Forall (fun b => List.length b = n) pt ->
  Forall2 (fun b o => List.length o = List.length b) pt cts ->
  Forall (fun b => List.length b = n) cts.
Proof.
  intros F F2. induction F2 as [|b o pt cts Hbo _ IH]; [constructor|].
  inversion F; subst. constructor; [congruence|auto].
Qed.

(** X18. The stream [encrypt] yields: the header extended with zero bytes
    to one block, then the ciphertext blocks, then the tag, every element
    one block long.  The ciphertext blocks are those CTR gives with the same
    cipher and nonce for the chunks after the first of a message: counter 0
    is kept for the tag, and the data start at counter 1. *)
Theorem gcm_stream_layout (s : session) (pt : list bytes) (b0 : bytes) :
  supported_block_size (block_size (cipher s)) ->
  (forall x, List.length x = block_size (cipher s) ->
             List.length (encrypt_block (cipher s) x) = block_size (cipher s)) ->
  List.length (nonce s) = (block_size (cipher s) / 2)%nat ->
  (List.length (header s) <= block_size (cipher s))%nat ->
  Forall (fun b => List.length b = block_size (cipher s)) pt ->
  Z.of_nat (List.length pt) < 256 ^ Z.of_nat (block_size (cipher s) / 2) ->
  exists tag,
    encrypt s pt
    = ((header s ++ repeat x00 (block_size (cipher s) - List.length (header s)))
         :: tl (yielded (CTR.encrypt (CTR.mkCTR (cipher s) (nonce s)) (b0 :: pt)))
         ++ [tag],
       Ok tt) /\
    Forall (fun b => List.length b = block_size (cipher s))
           (yielded (encrypt s pt)).
Proof.
  intros Hbs Hcipher Hnonce Hheader Hfull Hcount.
  destruct (gcm_run_exists s pt Hbs Hcipher Hnonce Hheader Hfull Hcount)
    as (ek & A & Ek_0 & acc0 & acc & cts & tag & R).
  unfold gcm_run in R. cbv zeta in R.
  destruct R as (_ & _ & _ & _ & Henc & _ & _ & _ & Ltag & E & _).
  apply gcm_loop_outputs in Henc. rewrite eof_signal_iterator_fst in Henc.
  set (ctr := CTR.mkCTR (cipher s) (nonce s)) in *.
  assert (Hhalf : (2 * List.length (CTR.nonce ctr))%nat
                  = block_size (CTR.cipher ctr)).
  { cbn [ctr CTR.nonce CTR.cipher]. rewrite Hnonce.
    apply (supported_even _ Hbs). }
  assert (C : CTR.encrypt ctr (b0 :: pt)
              = (CTRSpec.outputs ctr (b0 :: pt) 0,
                 Ok (Z.of_nat (List.length (b0 :: pt))))).
  { apply CTRRoundTrip.ctr_encrypt_outputs; [exact Hhalf|].
    cbn [List.length ctr CTR.nonce]. rewrite Hnonce, Nat2Z.inj_succ. lia. }
  exists tag. rewrite C. unfold yielded. cbn [fst CTRSpec.outputs tl].
  change (0 + 1) with 1. rewrite <- Henc, <- header_block by assumption.
  split; [exact E|]. rewrite E. cbn [fst].
  constructor; [apply length_le_digits|].
  apply Forall_app. split; [|now repeat constructor].
  rewrite Henc.
  apply (Forall2_length_blocks _ pt); [exact Hfull|].
  apply (CTRRoundTrip.outputs_involutive ctr pt 1 Hhalf).
  - exact Hcipher.
  - eapply Forall_impl; [|exact Hfull]. cbn. intros b Hb.
    cbn [ctr CTR.cipher]. lia.
Qed.

Lemma gcm_stream_layout_witness :
  exists tag,
    encrypt gcm8 blocks8
    = ((header gcm8 ++ repeat x00 (block_size (cipher gcm8) - List.length (header gcm8)))
         :: tl (yielded (CTR.encrypt (CTR.mkCTR (cipher gcm8) (nonce gcm8))
                           ([] :: blocks8)))
         ++ [tag],
       Ok tt) /\
    Forall (fun b => List.length b = block_size (cipher gcm8))
           (yielded (encrypt gcm8 blocks8)).
Proof.
  apply (gcm_stream_layout gcm8 blocks8 []).
  - left. reflexivity.
  - intros x Hx. exact (eq_trans (xor_cipher_length 8 x5a x) Hx).
  - reflexivity.
  - cbn. lia.
  - repeat constructor.
  - vm_compute. reflexivity.
Defined.

(** *** What [decrypt] does with the tag *)

Lemma bytes_eqb_neq a b : a <> b -> bytes_eqb a b = false.
Proof.
  intros H. unfold bytes_eqb.
  destruct (list_eq_dec Byte.byte_eq_dec a b); [contradiction|reflexivity].
Qed.

(** X19. A tag that does not match raises nothing and holds nothing back:
    on the stream of [encrypt] with the last element replaced by any other
    block, [decrypt] yields the whole plaintext and ends normally; the
    outcome of the comparison shows only in the message printed. *)
Theorem gcm_wrong_tag (s : session) (pt : list bytes) :
  supported_block_size (block_size (cipher s)) ->
  (forall x, List.length x = block_size (cipher s) ->
             List.length (encrypt_block (cipher s) x) = block_size (cipher s)) ->
  List.length (nonce s) = (block_size (cipher s) / 2)%nat ->
  (List.length (header s) <= block_size (cipher s))%nat ->
  Forall (fun b => List.length b = block_size (cipher s)) pt ->
  Z.of_nat (List.length pt) < 256 ^ Z.of_nat (block_size (cipher s) / 2) ->
  exists hb cts tag,
    encrypt s pt = (hb :: cts ++ [tag], Ok tt) /\
    forall tag',
      decrypt s (hb :: cts ++ [tag']) = (pt, Ok (bytes_eqb tag tag')) /\
      (tag' <> tag -> decrypt s (hb :: cts ++ [tag']) = (pt, Ok false)).
Proof.
  intros Hbs Hcipher Hnonce Hheader Hfull Hcount.
  destruct (gcm_run_exists s pt Hbs Hcipher Hnonce Hheader Hfull Hcount)
    as (ek & A & Ek_0 & acc0 & acc & cts & tag & R).
  unfold gcm_run in R. cbv zeta in R.
  destruct R as ((xb & Hxb & Hek) & HA & HEk & Hacc0 & _ & _ & Hdec & Htag & _ & E & _).
  exists (le_digits (block_size (cipher s)) (from_bytes_little (header s))), cts, tag.
  split; [exact E|]. intros tag'.
  assert (Hhb : 0 <= from_bytes_little (header s)
                < 256 ^ Z.of_nat (block_size (cipher s))).
  { pose proof (from_bytes_bound (header s)) as Hb. split; [lia|].
    apply Z.lt_le_trans with (1 := proj2 Hb). apply Z.pow_le_mono_r; lia. }
  assert (D : decrypt s (le_digits (block_size (cipher s))
                           (from_bytes_little (header s)) :: cts ++ [tag'])
              = (pt, Ok (bytes_eqb tag tag'))).
  { unfold decrypt. rewrite Hxb. cbn [lift gbind]. rewrite Hek. cbn [gbind].
    rewrite eof_signal_iterator_framed. cbn [negb assert gbind].
    rewrite from_le_digits by assumption. rewrite HA. cbn [gbind].
    rewrite HEk. cbn [gbind]. rewrite Hacc0. cbn [gbind].
    rewrite Hdec. cbn [gbind lift]. rewrite Htag. cbn [gret app].
    now rewrite app_nil_r. }
  split; [exact D|]. intros Hne. rewrite D, bytes_eqb_neq; [reflexivity|].
  congruence.
Qed.

Lemma gcm_wrong_tag_witness :
  exists hb cts tag,
    encrypt gcm8 blocks8 = (hb :: cts ++ [tag], Ok tt) /\
    forall tag',
      decrypt gcm8 (hb :: cts ++ [tag']) = (blocks8, Ok (bytes_eqb tag tag')) /\
      (tag' <> tag -> decrypt gcm8 (hb :: cts ++ [tag']) = (blocks8, Ok false)).
Proof.
  apply (gcm_wrong_tag gcm8 blocks8).
  - left. reflexivity.
  - intros x Hx. exact (eq_trans (xor_cipher_length 8 x5a x) Hx).
  - reflexivity.
  - cbn. lia.
  - repeat constructor.
  - vm_compute. reflexivity.
Defined.

(** *** What the set-up rejects *)

Lemma GP_table nb v e :
  GP nb v = Ok e -> irreducible_polynomials nb <> None.
Proof.
  unfold GP. intros H.
  destruct (GaloisAlgebra.init_inv _ _ _ _ H) as (p & Hp & _).
  congruence.
Qed.

Lemma GP_error nb v x : GP nb v = Raise x -> x = AssertionError.
Proof. unfold GP. apply GaloisAlgebra.init_error. Qed.

(** X20. The conditions of the round trip are checked, by assertions,
    before anything is yielded: a nonce that is not half a block, a field
    width [8 * block_size] that is not in the table, or a header longer
    than a block make [encrypt] raise AssertionError without yielding, and
    the first two do the same to [decrypt]. *)
Theorem gcm_setup_rejects (s : session) (pt stream : list bytes) :
  ((2 * List.length (nonce s))%nat <> block_size (cipher s) \/
   irreducible_polynomials (num_bits_of s) = None \/
   (block_size (cipher s) < List.length (header s))%nat ->
   encrypt s pt = ([], Raise AssertionError)) /\
  ((2 * List.length (nonce s))%nat <> block_size (cipher s) \/
   irreducible_polynomials (num_bits_of s) = None ->
   decrypt s stream = ([], Raise AssertionError)).
Proof.
  split; intros H.
  - unfold encrypt.
    destruct (_get_xor_block s 0) as [xb|e] eqn:Hx; cbn [lift gbind];
      [|now rewrite (gcm_xor_block_0_error _ _ Hx)].
    destruct (gcm_xor_block_inv _ _ _ Hx) as [_ Hhalf].
    destruct (GP _ _) as [ek|e] eqn:Hek; cbn [gbind];
      [|now rewrite (GP_error _ _ _ Hek)].
    apply GP_table in Hek.
    destruct H as [H|[H|H]]; [contradiction|contradiction|].
    replace (Nat.leb _ _) with false by (symmetry; apply Nat.leb_gt; lia).
    reflexivity.
  - unfold decrypt.
    destruct (_get_xor_block s 0) as [xb|e] eqn:Hx; cbn [lift gbind];
      [|now rewrite (gcm_xor_block_0_error _ _ Hx)].
    destruct (gcm_xor_block_inv _ _ _ Hx) as [_ Hhalf].
    destruct (GP _ _) as [ek|e] eqn:Hek; cbn [gbind];
      [|now rewrite (GP_error _ _ _ Hek)].
    apply GP_table in Hek.
    destruct H as [H|H]; contradiction.
Qed.

Lemma gcm_setup_rejects_witness :
  encrypt gcm4 blocks8 = ([], Raise AssertionError) /\
  decrypt gcm4 blocks8 = ([], Raise AssertionError).
Proof.
  split.
  - apply (proj1 (gcm_setup_rejects gcm4 blocks8 blocks8)).
    right. left. reflexivity.
  - apply (proj2 (gcm_setup_rejects gcm4 blocks8 blocks8)).
    right. reflexivity.
Defined.

(** X21. [decrypt] wants a header block and a tag: on a stream of one
    element it raises AssertionError, on the empty stream AssertionError or
    the error of the exhausted iterator, and in both cases nothing is
    yielded. *)
Theorem gcm_short_stream (s : session) (x : bytes) :
  decrypt s [x] = ([], Raise AssertionError) /\
  (decrypt s [] = ([], Raise AssertionError) \/
   decrypt s [] = ([], Raise RuntimeError)).
Proof.
  unfold decrypt.
  destruct (_get_xor_block s 0) as [xb|e] eqn:Hx; cbn [lift gbind];
    [|rewrite (gcm_xor_block_0_error _ _ Hx); auto].
  destruct (GP _ _) as [ek|e] eqn:Hek; cbn [gbind];
    [|rewrite (GP_error _ _ _ Hek); auto].
  cbn. auto.
Qed.

(** *** What [decrypt] takes from its own header *)

Lemma gcm_decrypt_loop_header c n h h' Ek_0 items :
  forall counter rolling last,
    decrypt_loop (mkGCM c n h) Ek_0 items counter rolling last
    = decrypt_loop (mkGCM c n h') Ek_0 items counter rolling last.
Proof.
  induction items as [|[ct eof] rest IH]; intros counter rolling last;
    [reflexivity|].
  cbn [decrypt_loop]. destruct eof; [reflexivity|].
  change (_get_xor_block (mkGCM c n h') counter)
    with (_get_xor_block (mkGCM c n h) counter).
  change (num_bits_of (mkGCM c n h')) with (num_bits_of (mkGCM c n h)).
  destruct (_get_xor_block (mkGCM c n h) counter) as [xb|e];
    cbn [lift gbind]; [|reflexivity].
  destruct (GP _ _) as [C|e]; cbn [gbind]; [|reflexivity].
  destruct (roll _ _ _) as [r1|e]; cbn [gbind yield]; [|reflexivity].
  now rewrite IH.
Qed.

(** X22. [decrypt] authenticates the header block of the stream, not the
    header of its session, of which it takes the length only: two sessions
    with one cipher and one nonce and headers of one length decrypt every
    stream alike. *)
Theorem gcm_decrypt_header_length (s s' : session) (stream : list bytes) :
  cipher s' = cipher s -> nonce s' = nonce s ->
  List.length (header s') = List.length (header s) ->
  decrypt s' stream = decrypt s stream.
Proof.
  destruct s as [c n h], s' as [c' n' h']. cbn [cipher nonce header].
  intros -> -> Hlen. unfold decrypt.
  change (_get_xor_block (mkGCM c n h') 0) with (_get_xor_block (mkGCM c n h) 0).
  change (num_bits_of (mkGCM c n h')) with (num_bits_of (mkGCM c n h)).
  change (hash_subkey (mkGCM c n h')) with (hash_subkey (mkGCM c n h)).
  destruct (_get_xor_block (mkGCM c n h) 0) as [xb|e];
    cbn [lift gbind]; [|reflexivity].
  destruct (GP _ _) as [ek|e]; cbn [gbind]; [|reflexivity].
  destruct (eof_signal_iterator stream) as [|[hb b] rest]; [reflexivity|].
  destruct b; cbn [negb assert gbind]; [reflexivity|].
  destruct (GP _ _) as [A|e]; cbn [gbind]; [|reflexivity].
  destruct (hash_subkey _) as [Ek_0|e]; cbn [gbind]; [|reflexivity].
  destruct (mult A Ek_0) as [acc0|e]; cbn [gbind]; [|reflexivity].
  rewrite (gcm_decrypt_loop_header c n h' h).
  destruct (decrypt_loop _ _ _ _ _ _) as [ys [[[counter rolling] last]|e]];
    cbn [gbind]; [|reflexivity].
  assert (G : gmac_bytes_of (mkGCM c n h') ek Ek_0 rolling counter
              = gmac_bytes_of (mkGCM c n h) ek Ek_0 rolling counter).
  { unfold gmac_bytes_of, gmac_of, gmac_to_bytes, extra_block_of, num_bits_of.
    cbn [header cipher]. now rewrite Hlen. }
  now rewrite G.
Qed.

Lemma gcm_decrypt_header_length_witness :
  decrypt (mkGCM (xor_cipher 8 x5a) [x01; x02; x03; x04] [xcc; xdd])
          (yielded (encrypt gcm8 blocks8))
  = decrypt gcm8 (yielded (encrypt gcm8 blocks8)).
Proof.
  apply gcm_decrypt_header_length; reflexivity.
Defined.

End GCMStream.
